(** * Presence, friend graph and word-game coordination: a shallow embedding

    The definitions below follow the TypeScript sources of the application
    (components/WordleGame.tsx, contexts/AuthContext.tsx, contexts/GameContext,
    pages/Friends.tsx, services/friendService.ts, utils/tweetCache.ts).
    Documents of the document store are records, collections are finite maps
    or lists in query order, JS strings are [string] and [Date.now()] is an
    integer passed in by the caller.  All definitions come first; the
    statements about them follow in the second half of the file. *)

From Stdlib Require Import ZArith Bool Ascii String Permutation Sorted.
From stdpp Require Import gmap strings list sorting.

Local Open Scope string_scope.

(** ** components/WordleGame.tsx *)

Module Wordle.

(** [status: 'waiting' | 'active' | 'completed'] *)
Inductive GameStatus := waiting | active | completed.

#[global] Instance GameStatus_eq_dec : EqDecision GameStatus.
Proof. solve_decision. Defined.

(** [interface GameState]; [winner: string | null] is an option. *)
Record GameState := mkGameState {
  word : string;
  currentPlayer : string;
  player1 : string;
  player2 : string;
  player1Guesses : list string;
  player2Guesses : list string;
  status : GameStatus;
  winner : option string;
  createdAt : Z
}.

#[global] Instance GameState_eq_dec : EqDecision GameState.
Proof. solve_decision. Defined.

Definition WORDS : list string := [
  "FLUSH"; "WIPES"; "BIDET"; "STOOL"; "BOWEL"; "POTTY"; "SQUAT"; "PLUMB";
  "WATER"; "PAPER"; "CLEAN"; "SMELL"; "SPRAY"; "DRAIN"; "FLOAT"; "ROYAL";
  "WASTE"; "SEWER"; "PIPES"; "VALVE"; "BASIN"; "FECAL"; "URINE"; "POOPS";
  "POOHS"; "CRAPS"; "DUMPS"; "TURDS"; "DOOKS"; "LOAFS"; "SINKS"; "TANKS";
  "SEATS"; "LATCH"; "LEVER"; "CHAIN"; "KNOBS"; "HINGE"; "LOCKS"; "DOORS";
  "STALL"; "WALLS"; "TILES"; "GROUT"; "CAULK"; "DRIPS"; "LEAKS"; "CLOGS";
  "BACKS"; "FLOWS"; "SWIRL"; "WHIRL"; "SPINS"; "DROPS"; "FALLS"; "ROLLS";
  "SHEET"; "CLOTH"; "BRUSH"; "GOING"; "DOING"; "VISIT"; "BREAK"; "RELAX";
  "EMPTY"; "PURGE"; "EXPEL"; "GRUNT"; "PINCH"; "PRESS"; "SHITS"; "FORCE";
  "QUIET"; "PEACE"; "ALONE"; "SPACE"; "READS"; "PHONE"; "GAMES"; "TEXTS";
  "WAITS"; "HURRY"; "QUICK"; "RUSHS"; "TARDY"; "LATER"; "STINK"; "ODORS";
  "SCENT"; "WHIFF"; "FRESH"; "MISTS"; "VAPOR"; "STEAM"; "SCRUB"; "MOPUP";
  "RINSE"; "SHINE"; "GLEAM"; "GLOSS"; "SHEEN"; "SLICK"; "SLIME"; "GRIME";
  "FILTH"; "DIRTY"; "MUCKY"; "GRIMY"; "STAIN"; "MARKS"; "SPOTS"; "RINGS";
  "LINES"; "MOLDS"; "FUNGI"; "GERMS"; "VIRUS"; "BACTS"; "LYSOL"; "SOAPY";
  "SUDSY"; "SWIPE"; "SWEEP"; "FOAMS"; "BUBBL"; "FROTH"; "SWISH"; "BOWLS";
  "BASES"; "BENDS"; "TRAPS"; "FLAPS"; "PEDAL"; "TOUCH"; "SENSE"; "ROUND";
  "JOHNS"; "HEADS"; "ROOMS"; "CABIN"; "VENTS"; "PLUSH"; "THICK"; "ROUGH";
  "FOLDS"; "MOIST"; "WETTY"; "DRYER"; "TOWEL"; "SOAPS"; "HANDS"; "PALMS";
  "NAILS"; "FLOWS"; "DUCTS"; "MAINS"; "LINES"; "ROUTE"; "PUMPS"; "POWER";
  "BOOST"; "GATES"; "STOPS"; "BLOCK"; "CLOGS"; "DRIPS"; "DROPS"; "SPILL";
  "FLOOD"; "POOLS"; "SPINS"; "TWIST"; "SOUND"; "NOISE" ].

(** The [updates] object handed to [updateDoc]: [currentPlayer] is always
    present, exactly one of the two guess fields is, and [status] / [winner]
    only when the guess is correct. *)
Record Updates := mkUpdates {
  upd_player1Guesses : option (list string);
  upd_player2Guesses : option (list string);
  upd_currentPlayer : string;
  upd_status : option GameStatus;
  upd_winner : option string
}.

(** [updateDoc(gameRef, updates)]: a field-wise merge into the document. *)
Definition updateDoc (updates : Updates) (g : GameState) : GameState :=
  {| word := word g;
     currentPlayer := upd_currentPlayer updates;
     player1 := player1 g;
     player2 := player2 g;
     player1Guesses := default (player1Guesses g) (upd_player1Guesses updates);
     player2Guesses := default (player2Guesses g) (upd_player2Guesses updates);
     status := default (status g) (upd_status updates);
     winner := match upd_winner updates with
               | Some w => Some w
               | None => winner g
               end;
     createdAt := createdAt g |}.

(** What one call of [handleSubmitGuess] does: return silently, refuse with a
    message, or send [updates] and then show a message. *)
Inductive Outcome :=
  | Ignored
  | Refused (message : string)
  | Sent (updates : Updates) (message : string).

Definition handleSubmitGuess (gameState : option GameState)
    (currentUser : option string) (currentGuess : string) : Outcome :=
  match gameState, currentUser with
  | Some gameState, Some uid =>
      if negb (String.eqb (currentPlayer gameState) uid) then
        Refused "It's not your turn!"
      else if negb (Nat.eqb (String.length currentGuess) 5) then
        Refused "Your guess must be 5 letters!"
      else
        let isPlayer1 := String.eqb uid (player1 gameState) in
        let opponentId :=
          if isPlayer1 then player2 gameState else player1 gameState in
        let updatedGuesses :=
          ((if isPlayer1 then player1Guesses gameState
            else player2Guesses gameState) ++ [currentGuess])%list in
        let isCorrect := String.eqb currentGuess (word gameState) in
        let updates :=
          {| upd_player1Guesses :=
               if isPlayer1 then Some updatedGuesses else None;
             upd_player2Guesses :=
               if isPlayer1 then None else Some updatedGuesses;
             upd_currentPlayer := opponentId;
             upd_status := if isCorrect then Some completed else None;
             upd_winner := if isCorrect then Some uid else None |} in
        Sent updates (if isCorrect then "You won!" else "Guess submitted!")
  | _, _ => Ignored
  end.

(** The stored document after a call of [handleSubmitGuess] by [uid], the
    write going through.  The handler works on [gameState], the snapshot in
    the React state of its tab, and [updateDoc] merges the fields it
    computed from that snapshot into the document as it is [stored] at the
    time of the write. *)
Definition submitFrom (gameState : option GameState) (stored : GameState)
    (uid guess : string) : GameState :=
  match handleSubmitGuess gameState (Some uid) guess with
  | Sent updates _ => updateDoc updates stored
  | _ => stored
  end.

(** The same when the snapshot of the tab is the stored document. *)
Definition submitGuess (g : GameState) (uid guess : string) : GameState :=
  submitFrom (Some g) g uid guess.

(** A submission is accepted when it passes the turn and length checks. *)
Definition accepted (g : GameState) (uid guess : string) : bool :=
  match handleSubmitGuess (Some g) (Some uid) guess with
  | Sent _ _ => true
  | _ => false
  end.

(** The documents visited while a list of (player, guess) submissions is
    played from [g], the start included. *)
Fixpoint play (g : GameState) (moves : list (string * string))
    : list GameState :=
  match moves with
  | [] => [g]
  | (uid, guess) :: rest => g :: play (submitGuess g uid guess) rest
  end.

(** The document at the end of such a run. *)
Definition finish (g : GameState) (moves : list (string * string))
    : GameState :=
  foldl (λ g m, submitGuess g m.1 m.2) g moves.

(** Number of steps of a run at which [status] goes from ['active'] to
    ['completed']. *)
Fixpoint completions (run : list GameState) : nat :=
  match run with
  | g :: ((g' :: _) as rest) =>
      (if bool_decide (status g = active ∧ status g' = completed)
       then 1 else 0) + completions rest
  | _ => 0
  end.

(** Which of the three returns of the component renders. *)
Inductive Screen := LoadingScreen | GameOverScreen | GameScreen.

Definition screen (loading showGameOver : bool) (gameState : option GameState)
    : Screen :=
  if loading then LoadingScreen
  else match gameState with
       | Some g =>
           if showGameOver && bool_decide (status g = completed)
           then GameOverScreen else GameScreen
       | None => GameScreen
       end.

(** [gameState.status !== 'completed' && gameState.currentPlayer ===
    currentUser?.uid && renderKeyboard()]: the keyboard, and with it the
    Enter button, the only caller of [handleSubmitGuess]. *)
Definition keyboardRendered (loading showGameOver : bool)
    (gameState : option GameState) (currentUser : option string) : bool :=
  match screen loading showGameOver gameState, gameState, currentUser with
  | GameScreen, Some g, Some uid =>
      negb (bool_decide (status g = completed))
      && String.eqb (currentPlayer g) uid
  | _, _, _ => false
  end.

(** [disabled] attribute of the Enter button. *)
Definition enterDisabled (gameState : option GameState)
    (currentUser : option string) (currentGuess : string) : bool :=
  negb (Nat.eqb (String.length currentGuess) 5)
  || match gameState, currentUser with
     | Some g, Some uid => negb (String.eqb (currentPlayer g) uid)
     | Some g, None => true
     | None, _ => false
     end.

(** A click on Enter in a tab whose React state is [loading],
    [showGameOver] and [gameState]: nothing happens unless the button is on
    screen and enabled; then [handleSubmitGuess] runs on that state and
    writes to the [stored] document. *)
Definition clickEnterFrom (loading showGameOver : bool)
    (gameState : option GameState) (stored : GameState)
    (uid guess : string) : GameState :=
  if keyboardRendered loading showGameOver gameState (Some uid)
     && negb (enterDisabled gameState (Some uid) guess)
  then submitFrom gameState stored uid guess
  else stored.

(** The same when the snapshot of the tab is the stored document. *)
Definition clickEnter (loading showGameOver : bool) (g : GameState)
    (uid guess : string) : GameState :=
  clickEnterFrom loading showGameOver (Some g) g uid guess.

(** Letter classes of [renderGuessResult]: [bg-green-500], [bg-yellow-500]
    and the default grey. *)
Inductive LetterClass := exact | present | absent.

#[global] Instance LetterClass_eq_dec : EqDecision LetterClass.
Proof. solve_decision. Defined.

(** [gameState.word.includes(letter)] for a one-letter string. *)
Definition includes (w : string) (letter : ascii) : bool :=
  bool_decide (letter ∈ list_ascii_of_string w).

(** The class of the letter at index [i] of the guess. *)
Definition letterClass (w : string) (i : nat) (letter : ascii) : LetterClass :=
  if bool_decide (String.get i w = Some letter) then exact
  else if includes w letter then present
  else absent.

(** [guess.split('').map((letter, i) => ...)] *)
Definition renderGuessResult (w guess : string) : list LetterClass :=
  imap (letterClass w) (list_ascii_of_string guess).

(** *** Lazy initialization

    [initializeGame] reads the document and, when it is missing, writes a
    new one with [setDoc]; the two store calls are separate awaits, so the
    steps of two clients interleave.  A client is its parameters and its
    program counter. *)

Record Client := mkClient {
  c_uid : string;
  c_opponentId : string;
  c_randomIndex : nat;  (* Math.floor(Math.random() * WORDS.length) *)
  c_now : Z
}.

Inductive Pc :=
  | BeforeGet
  | AfterGet (docExists : bool)
  | Finished.

Definition newGameState (c : Client) : GameState :=
  {| word := nth (c_randomIndex c) WORDS "";
     currentPlayer := c_uid c;
     player1 := c_uid c;
     player2 := c_opponentId c;
     player1Guesses := [];
     player2Guesses := [];
     status := active;
     winner := None;
     createdAt := c_now c |}.

(** One store call of [initializeGame] on the collection [wordleGames]. *)
Definition initializeGame (gameId : string) (c : Client) (pc : Pc)
    (games : gmap string GameState) : Pc * gmap string GameState :=
  match pc with
  | BeforeGet => (AfterGet (bool_decide (is_Some (games !! gameId))), games)
  | AfterGet false => (Finished, <[gameId := newGameState c]> games)
  | AfterGet true => (Finished, games)
  | Finished => (Finished, games)
  end.

(** Two clients [a] and [b] on one store; a schedule says whose store call
    runs next ([true] for [a]). *)
Record World := mkWorld {
  pcA : Pc;
  pcB : Pc;
  wordleGames : gmap string GameState
}.

Definition worldStep (gameId : string) (a b : Client) (w : World)
    (turnA : bool) : World :=
  if turnA then
    let '(pc, games) := initializeGame gameId a (pcA w) (wordleGames w) in
    {| pcA := pc; pcB := pcB w; wordleGames := games |}
  else
    let '(pc, games) := initializeGame gameId b (pcB w) (wordleGames w) in
    {| pcA := pcA w; pcB := pc; wordleGames := games |}.

Definition runSchedule (gameId : string) (a b : Client)
    (schedule : list bool) (w : World) : World :=
  foldl (worldStep gameId a b) w schedule.

Definition initialWorld : World :=
  {| pcA := BeforeGet; pcB := BeforeGet; wordleGames := ∅ |}.

(** *** Concrete inputs used in examples *)

Definition sampleGame : GameState :=
  {| word := "FLUSH"; currentPlayer := "alice"; player1 := "alice";
     player2 := "bob"; player1Guesses := []; player2Guesses := [];
     status := active; winner := None; createdAt := 0 |}.

(** The same game after ["alice"] found the word. *)
Definition wonGame : GameState :=
  {| word := "FLUSH"; currentPlayer := "bob"; player1 := "alice";
     player2 := "bob"; player1Guesses := ["FLUSH"]; player2Guesses := [];
     status := completed; winner := Some "alice"; createdAt := 0 |}.

Definition clientA : Client :=
  {| c_uid := "alice"; c_opponentId := "bob"; c_randomIndex := 0;
     c_now := 1000 |}.

Definition clientB : Client :=
  {| c_uid := "bob"; c_opponentId := "alice"; c_randomIndex := 1;
     c_now := 1001 |}.

End Wordle.

(** ** contexts/AuthContext.tsx (session-map version) *)

Module Presence.

(** The value under [status/{uid}] in the realtime store.  Every field may
    be missing in a snapshot; [sessions] maps a session id to [true]. *)
Record Status := mkStatus {
  isOnline : option bool;
  isShitting : option bool;
  lastActive : option Z;
  sessions : option (gmap string bool)
}.

#[global] Instance Status_eq_dec : EqDecision Status.
Proof. solve_decision. Defined.

(** A node without any child does not exist in the realtime store. *)
Definition noStatus : Status :=
  {| isOnline := None; isShitting := None; lastActive := None;
     sessions := None |}.

(** The store keeps no empty object. *)
Definition pruneSessions (m : gmap string bool) : option (gmap string bool) :=
  if bool_decide (m = ∅) then None else Some m.

(** [set(ref(database, path), value)] on the whole node [status/{uid}]. *)
Definition setStatus (uid : string) (value : Status)
    (db : gmap string Status) : gmap string Status :=
  let stored :=
    {| isOnline := isOnline value; isShitting := isShitting value;
       lastActive := lastActive value;
       sessions := sessions value ≫= pruneSessions |} in
  if bool_decide (stored = noStatus) then delete uid db
  else <[uid := stored]> db.

(** [set(ref(database, `status/${uid}/sessions/${sessionId}`), null)], which
    is also what [onDisconnect(...).remove()] performs on the server: the
    one key goes, the siblings stay. *)
Definition removeSessionKey (uid sessionId : string)
    (db : gmap string Status) : gmap string Status :=
  match db !! uid with
  | None => db
  | Some st =>
      setStatus uid
        {| isOnline := isOnline st; isShitting := isShitting st;
           lastActive := lastActive st;
           sessions := delete sessionId <$> sessions st |} db
  end.

(** [{ ...sessions, [sessionId]: true }] with [sessions || {}] before. *)
Definition withSession (sessionId : string)
    (s : option (gmap string bool)) : gmap string bool :=
  <[sessionId := true]> (default ∅ s).

(** The realtime store as one client sees it: the presence nodes and the
    paths for which this connection registered a remove-on-disconnect. *)
Record Realtime := mkRealtime {
  statusNodes : gmap string Status;
  onDisconnectRemove : list (string * string)
}.

(** [logout]: only the write before [signOut(auth)]. *)
Definition logout (currentUser : option string) (sessionId : string)
    (rt : Realtime) : Realtime :=
  match currentUser with
  | Some uid =>
      {| statusNodes := removeSessionKey uid sessionId (statusNodes rt);
         onDisconnectRemove := onDisconnectRemove rt |}
  | None => rt
  end.

(** The server side of a dropped connection: every registered path is
    removed. *)
Definition disconnect (rt : Realtime) : Realtime :=
  {| statusNodes :=
       foldr (λ p db, removeSessionKey p.1 p.2 db) (statusNodes rt)
         (onDisconnectRemove rt);
     onDisconnectRemove := [] |}.

(** The write of [updateUserStatus(isShitting)] for the signed-in user
    [uid], computed from [snapshot], what [get(statusRef)] returned before;
    both branches of [snapshot.exists()] write the same shape.  The
    registration of the disconnect hook follows. *)
Definition updateUserStatusFrom (uid sessionId : string)
    (isShittingNow : bool) (now : Z) (snapshot : option Status)
    (rt : Realtime) : Realtime :=
  let written :=
    match snapshot with
    | Some currentStatus =>
        {| isOnline := Some true; isShitting := Some isShittingNow;
           lastActive := Some now;
           sessions :=
             Some (withSession sessionId (sessions currentStatus)) |}
    | None =>
        {| isOnline := Some true; isShitting := Some isShittingNow;
           lastActive := Some now;
           sessions := Some {[ sessionId := true ]} |}
    end in
  {| statusNodes := setStatus uid written (statusNodes rt);
     onDisconnectRemove :=
       onDisconnectRemove rt ++ [(uid, sessionId)] |}.

(** [updateUserStatus(isShitting)] when nothing is written to the node
    between its [get] and its [set]. *)
Definition updateUserStatus (currentUser : option string)
    (sessionId : string) (isShittingNow : bool) (now : Z)
    (rt : Realtime) : Realtime :=
  match currentUser with
  | None => rt
  | Some uid =>
      updateUserStatusFrom uid sessionId isShittingNow now
        (statusNodes rt !! uid) rt
  end.

(** The status write of the [onAuthStateChanged] effect for a signed-in
    user, computed from [statusSnapshot], what [get(statusRef)] returned
    before, and followed by the registration of the disconnect hook. *)
Definition attachFrom (uid sessionId : string) (now : Z)
    (statusSnapshot : option Status) (rt : Realtime) : Realtime :=
  let existingStatus :=
    default {| isOnline := Some false; isShitting := Some false;
               lastActive := Some now; sessions := Some ∅ |}
            statusSnapshot in
  let written :=
    {| isOnline := Some true;
       isShitting := isShitting existingStatus;
       lastActive := Some now;
       sessions := Some (withSession sessionId (sessions existingStatus)) |} in
  {| statusNodes := setStatus uid written (statusNodes rt);
     onDisconnectRemove := onDisconnectRemove rt ++ [(uid, sessionId)] |}.

(** The same when nothing is written to the node between the [get] and the
    [set] of the effect. *)
Definition attach (uid sessionId : string) (now : Z)
    (rt : Realtime) : Realtime :=
  attachFrom uid sessionId now (statusNodes rt !! uid) rt.

(** [status.sessions && Object.keys(status.sessions).length > 0] *)
Definition hasActiveSessions (status : Status) : bool :=
  match sessions status with
  | Some m => bool_decide (0 < size m)
  | None => false
  end.

(** The presence part of [UserData] set by the [onValue] listener. *)
Record UserPresence := mkUserPresence {
  ud_isOnline : bool;
  ud_isShitting : bool;
  ud_lastActive : Z
}.

(** The listener: [snapshot.val() || { isOnline: false, ..., sessions: {} }]
    and the derived fields. *)
Definition onStatusValue (snapshot : option Status) (now : Z) : UserPresence :=
  let status :=
    default {| isOnline := Some false; isShitting := Some false;
               lastActive := Some now; sessions := Some ∅ |} snapshot in
  {| ud_isOnline := hasActiveSessions status;
     ud_isShitting := default false (isShitting status);
     ud_lastActive :=
       match lastActive status with
       | Some t => if Z.eqb t 0 then now else t
       | None => now
       end |}.

(** components/OnlineUsers.tsx (session-map version): whether the entry
    [uid] of the [status] snapshot goes into the list of online friends. *)
Definition listedOnline (currentUser : string) (friends : list string)
    (now : Z) (uid : string) (status : Status) : bool :=
  negb (String.eqb uid currentUser)
  && hasActiveSessions status
  && bool_decide (uid ∈ friends)
  && bool_decide (now - default 0 (lastActive status) < 300000)%Z.

(** Reading the store: the node of [uid] (all fields missing when there is
    none), one session key, and the session map with a missing map read as
    empty. *)
Definition nodeAt (db : gmap string Status) (uid : string) : Status :=
  default noStatus (db !! uid).

Definition sessionAt (db : gmap string Status) (uid sessionId : string)
    : option bool :=
  sessions (nodeAt db uid) ≫= (λ m, m !! sessionId).

Definition sessionsOf (snapshot : option Status) : gmap string bool :=
  default ∅ (snapshot ≫= sessions).

(** *** Concrete inputs used in examples *)

Definition emptyRealtime : Realtime :=
  {| statusNodes := ∅; onDisconnectRemove := [] |}.

(** One user with two tabs open. *)
Definition twoTabs : gmap string Status :=
  statusNodes (attach "alice" "tab2" 2000
                 (attach "alice" "tab1" 1000 emptyRealtime)).

End Presence.

(** ** contexts/GameContext (the invite and game coordinator) *)

Module GameCoordinator.

Inductive InviteStatus := accepted | pending | rejected | cancelled.

#[global] Instance InviteStatus_eq_dec : EqDecision InviteStatus.
Proof. solve_decision. Defined.

(** [interface GameInviteData] without its [id], which is the document id. *)
Record GameInviteData := mkInvite {
  senderId : string;
  senderName : string;
  receiverId : string;
  inviteStatus : InviteStatus;
  createdAt : Z;
  gameId : option string
}.

#[global] Instance GameInviteData_eq_dec : EqDecision GameInviteData.
Proof. solve_decision. Defined.

(** A collection is the list of its documents, id first, in the order in
    which a query returns them. *)
Definition Invites := list (string * GameInviteData).

(** JS truthiness of a [string | null | undefined]. *)
Definition truthy (o : option string) : bool :=
  match o with
  | Some s => negb (String.eqb s "")
  | None => false
  end.

(** [where('senderId', '==', uid), where('status', '==', 'accepted')] *)
Definition senderInvitesQuery (uid : string) (invites : Invites) : Invites :=
  filter (λ d, senderId d.2 = uid ∧ inviteStatus d.2 = accepted) invites.

(** [where('receiverId', '==', uid), where('status', '==', 'accepted')] *)
Definition receiverInvitesQuery (uid : string) (invites : Invites) : Invites :=
  filter (λ d, receiverId d.2 = uid ∧ inviteStatus d.2 = accepted) invites.

(** [where('receiverId', '==', uid), where('status', '==', 'pending')] *)
Definition invitesQuery (uid : string) (invites : Invites) : Invites :=
  filter (λ d, receiverId d.2 = uid ∧ inviteStatus d.2 = pending) invites.

(** [deleteDoc(doc(firestore, 'gameInvites', id))] *)
Definition deleteDoc (id : string) (invites : Invites) : Invites :=
  filter (λ d, d.1 ≠ id) invites.

(** [gameDoc.exists() && gameDoc.data().status !== 'completed'] *)
Definition stillActive (games : gmap string Wordle.GameState)
    (gid : string) : bool :=
  match games !! gid with
  | Some g => negb (bool_decide (Wordle.status g = Wordle.completed))
  | None => false
  end.

(** React state of [GameProvider]. *)
Record Provider := mkProvider {
  activeGameId : option string;
  activeOpponentId : option string;
  activeInviteId : option string;
  pendingInvites : Invites
}.

(** What the scan of one side decides about the first document of its
    query. *)
Inductive Scan :=
  | Surface (game opponent : string)
  | Continue (invites : Invites).

(** The block run on [docs[0]] of a query for accepted invites;
    [opponentOf] is [receiverId] in the sender scan and [senderId] in the
    receiver scan. *)
Definition scanAccepted (games : gmap string Wordle.GameState)
    (opponentOf : GameInviteData → string) (docs invites : Invites) : Scan :=
  match docs with
  | (id, invite) :: _ =>
      if truthy (gameId invite) then
        let gid := default "" (gameId invite) in
        if stillActive games gid then Surface gid (opponentOf invite)
        else Continue (deleteDoc id invites)
      else Continue invites
  | [] => Continue invites
  end.

(** The last part of [fetchGameState]: the pending invites addressed to
    [uid]; the first becomes the active invite when neither an invite nor a
    game is active. *)
Definition scanPending (uid : string) (invites : Invites) (st : Provider)
    : Invites * Provider :=
  let invitesList := invitesQuery uid invites in
  (invites,
   {| activeGameId := activeGameId st;
      activeOpponentId := activeOpponentId st;
      activeInviteId :=
        match invitesList with
        | (id, _) :: _ =>
            if negb (truthy (activeInviteId st))
               && negb (truthy (activeGameId st))
            then Some id else activeInviteId st
        | [] => activeInviteId st
        end;
      pendingInvites := invitesList |}).

(** [setActiveGameId(gid); setActiveOpponentId(opponent); return] *)
Definition surface (gid opponent : string) (st : Provider) : Provider :=
  {| activeGameId := Some gid; activeOpponentId := Some opponent;
     activeInviteId := activeInviteId st;
     pendingInvites := pendingInvites st |}.

(** The middle part: accepted invites where [uid] is the receiver. *)
Definition scanAsReceiver (uid : string)
    (games : gmap string Wordle.GameState) (invites : Invites)
    (st : Provider) : Invites * Provider :=
  match scanAccepted games senderId (receiverInvitesQuery uid invites)
          invites with
  | Surface gid opponent => (invites, surface gid opponent st)
  | Continue invites' => scanPending uid invites' st
  end.

(** One run of [fetchGameState] for [uid], the store calls succeeding: the
    invite collection and the provider state afterwards. *)
Definition fetchGameState (uid : string)
    (games : gmap string Wordle.GameState) (invites : Invites)
    (st : Provider) : Invites * Provider :=
  match scanAccepted games receiverId (senderInvitesQuery uid invites)
          invites with
  | Surface gid opponent => (invites, surface gid opponent st)
  | Continue invites' => scanAsReceiver uid games invites' st
  end.

(** *** Concrete inputs used in examples *)

Definition noGame : Provider :=
  {| activeGameId := None; activeOpponentId := None;
     activeInviteId := None; pendingInvites := [] |}.

(** ["alice"] sent two invites that were accepted; the game of the first
    is running, the game of the second is over. *)
Definition twoAccepted : Invites :=
  [ ("invite1",
     {| senderId := "alice"; senderName := "Alice"; receiverId := "bob";
        inviteStatus := accepted; createdAt := 100;
        gameId := Some "game1" |});
    ("invite2",
     {| senderId := "alice"; senderName := "Alice"; receiverId := "carol";
        inviteStatus := accepted; createdAt := 200;
        gameId := Some "game2" |}) ].

Definition twoGames : gmap string Wordle.GameState :=
  {[ "game1" := Wordle.sampleGame; "game2" := Wordle.wonGame ]}.

(** A single stale invite, seen from both sides. *)
Definition oneStale : Invites :=
  [ ("invite2",
     {| senderId := "alice"; senderName := "Alice"; receiverId := "carol";
        inviteStatus := accepted; createdAt := 200;
        gameId := Some "game2" |}) ].

End GameCoordinator.

(** ** pages/Friends.tsx: accepting a friend request *)

Module Friends.

Inductive RequestStatus := pending | accepted | rejected | cancelled.

#[global] Instance RequestStatus_eq_dec : EqDecision RequestStatus.
Proof. solve_decision. Defined.

(** A document of [users]; the [friends] array may be missing
    ([data.friends || []]). *)
Record UserDoc := mkUserDoc {
  displayName : string;
  friends : option (list string)
}.

#[global] Instance UserDoc_eq_dec : EqDecision UserDoc.
Proof. solve_decision. Defined.

Record FriendRequestDoc := mkFriendRequestDoc {
  senderId : string;
  receiverId : string;
  status : RequestStatus
}.

(** The two collections the operation touches, keyed by document id. *)
Record Firestore := mkFirestore {
  users : gmap string UserDoc;
  friendRequests : gmap string FriendRequestDoc
}.

(** The [request] argument: [request.id], [request.sender.uid] and
    [request.sender.displayName]. *)
Record FriendRequest := mkFriendRequest {
  id : string;
  sender_uid : string;
  sender_displayName : string
}.

(** The banners set through [setError] and [setSuccess]. *)
Record Banner := mkBanner {
  error : string;
  success : string
}.

#[global] Instance Banner_eq_dec : EqDecision Banner.
Proof. solve_decision. Defined.

(** A store call either returns or throws an error with a message; the
    store keeps whatever was written before the throw. *)
Inductive Result (A : Type) :=
  | Returned (a : A)
  | Threw (message : string).
Arguments Returned {A} a.
Arguments Threw {A} message.

Definition Op (A : Type) : Type := Firestore → Firestore * Result A.

#[global] Instance Op_ret : MRet Op := λ A a fs, (fs, Returned a).

#[global] Instance Op_bind : MBind Op := λ A B k m fs,
  match m fs with
  | (fs', Returned a) => k a fs'
  | (fs', Threw message) => (fs', Threw message)
  end.

Definition throw {A} (message : string) : Op A := λ fs, (fs, Threw message).

(** The message of the platform when an updated document is missing. *)
Definition notFound : string := "No document to update".

(** [arrayUnion(x)] on the [friends] field. *)
Definition arrayUnion (x : string) (u : UserDoc) : UserDoc :=
  let fs := default [] (friends u) in
  {| displayName := displayName u;
     friends := Some (if bool_decide (x ∈ fs) then fs else (fs ++ [x])%list) |}.

(** [updateDoc(requestRef, { status: 'accepted' })]; [fault] is the error
    the platform answers with, if any. *)
Definition acceptRequestDoc (fault : option string) (rid : string) : Op unit :=
  λ fs,
  match fault, friendRequests fs !! rid with
  | Some message, _ => (fs, Threw message)
  | None, None => (fs, Threw notFound)
  | None, Some r =>
      ({| users := users fs;
          friendRequests :=
            <[rid := {| senderId := senderId r; receiverId := receiverId r;
                        status := accepted |}]> (friendRequests fs) |},
       Returned ())
  end.

(** [updateDoc(userRef, { friends: arrayUnion(x) })] *)
Definition addFriend (fault : option string) (target x : string) : Op unit :=
  λ fs,
  match fault, users fs !! target with
  | Some message, _ => (fs, Threw message)
  | None, None => (fs, Threw notFound)
  | None, Some u =>
      ({| users := <[target := arrayUnion x u]> (users fs);
          friendRequests := friendRequests fs |},
       Returned ())
  end.

(** [getDoc] followed by the [exists()] check that throws [message]. *)
Definition getUserOrThrow (target message : string) : Op UserDoc :=
  λ fs,
  match users fs !! target with
  | Some u => (fs, Returned u)
  | None => (fs, Threw message)
  end.

(** [batch.commit()] of a list of [friends: arrayUnion(x)] updates, each a
    pair (document, x): all of them are applied or none is. *)
Definition commit (fault : option string) (batch : list (string * string))
    : Op unit :=
  λ fs,
  match fault with
  | Some message => (fs, Threw message)
  | None =>
      if forallb (λ w, bool_decide (is_Some (users fs !! w.1))) batch then
        ({| users :=
              foldl (λ us w, alter (arrayUnion w.2) w.1 us) (users fs) batch;
            friendRequests := friendRequests fs |},
         Returned ())
      else (fs, Threw notFound)
  end.

(** The [try] / [catch] around the body: the banners after the call. *)
Definition report (request : FriendRequest) (r : Result unit) : Banner :=
  match r with
  | Returned _ =>
      {| error := "";
         success :=
           "You are now friends with " ++ sender_displayName request ++ "!" |}
  | Threw message =>
      {| error :=
           "Failed to accept friend request: "
           ++ (if String.eqb message "" then "Unknown error" else message);
         success := "" |}
  end.

(** The platform errors injected at the two writes of the batched version. *)
Record Faults := mkFaults {
  atRequestUpdate : option string;
  atCommit : option string
}.

(** [acceptFriendRequest] with [writeBatch], for a signed-in [currentUser]. *)
Definition acceptFriendRequestBody (faults : Faults) (currentUser : string)
    (request : FriendRequest) : Op unit :=
  _ ← acceptRequestDoc (atRequestUpdate faults) (id request);
  currentUserData ←
    getUserOrThrow currentUser "Your user document does not exist";
  senderData ←
    getUserOrThrow (sender_uid request)
      ("User document for " ++ sender_displayName request ++ " not found");
  let currentUserFriends := default [] (friends currentUserData) in
  let senderFriends := default [] (friends senderData) in
  let batch :=
    ((if bool_decide (sender_uid request ∈ currentUserFriends) then []
      else [(currentUser, sender_uid request)])
     ++ (if bool_decide (currentUser ∈ senderFriends) then []
         else [(sender_uid request, currentUser)]))%list in
  commit (atCommit faults) batch.

Definition acceptFriendRequest (faults : Faults) (currentUser : string)
    (request : FriendRequest) (fs : Firestore) : Firestore * Banner :=
  let '(fs', r) := acceptFriendRequestBody faults currentUser request fs in
  (fs', report request r).

(** The earlier version of the page: three [updateDoc] calls in sequence. *)
Module Sequential.

Record Faults := mkFaults {
  atRequestUpdate : option string;
  atCurrentUserUpdate : option string;
  atSenderUpdate : option string
}.

Definition acceptFriendRequestBody (faults : Faults) (currentUser : string)
    (request : FriendRequest) : Op unit :=
  _ ← acceptRequestDoc (atRequestUpdate faults) (id request);
  _ ← addFriend (atCurrentUserUpdate faults) currentUser (sender_uid request);
  addFriend (atSenderUpdate faults) (sender_uid request) currentUser.

Definition acceptFriendRequest (faults : Faults) (currentUser : string)
    (request : FriendRequest) (fs : Firestore) : Firestore * Banner :=
  let '(fs', r) := acceptFriendRequestBody faults currentUser request fs in
  (fs', report request r).

End Sequential.

(** [x] is in the [friends] array of [owner]'s profile. *)
Definition lists (us : gmap string UserDoc) (owner x : string) : Prop :=
  ∃ u, us !! owner = Some u ∧ x ∈ default [] (friends u).

#[global] Instance lists_dec us owner x : Decision (lists us owner x).
Proof.
  unfold lists. destruct (us !! owner) as [u|] eqn:E.
  - destruct (decide (x ∈ default [] (friends u))) as [H|H].
    + left. eauto.
    + right. intros (u' & Hu & Hx). congruence.
  - right. intros (u' & Hu & _). congruence.
Defined.

Definition isFriendOf (fs : Firestore) (owner x : string) : Prop :=
  lists (users fs) owner x.

#[global] Instance isFriendOf_dec fs owner x : Decision (isFriendOf fs owner x).
Proof. unfold isFriendOf. apply _. Defined.

(** Both profiles list each other. *)
Definition mutualFriends (fs : Firestore) (a b : string) : Prop :=
  isFriendOf fs a b ∧ isFriendOf fs b a.

#[global] Instance mutualFriends_dec fs a b : Decision (mutualFriends fs a b).
Proof. unfold mutualFriends. apply _. Defined.

(** *** Concrete inputs used in examples *)

(** ["bob"] asked ["alice"]; neither lists the other yet. *)
Definition twoUsers : Firestore :=
  {| users :=
       {[ "alice" := {| displayName := "Alice"; friends := Some [] |};
          "bob" := {| displayName := "Bob"; friends := None |} ]};
     friendRequests :=
       {[ "request1" :=
            {| senderId := "bob"; receiverId := "alice";
               status := pending |} ]} |}.

Definition fromBob : FriendRequest :=
  {| id := "request1"; sender_uid := "bob"; sender_displayName := "Bob" |}.

Definition noFaults : Faults :=
  {| atRequestUpdate := None; atCommit := None |}.

Definition senderUpdateFails : Sequential.Faults :=
  {| Sequential.atRequestUpdate := None;
     Sequential.atCurrentUserUpdate := None;
     Sequential.atSenderUpdate := Some "permission-denied" |}.

Definition currentUserUpdateFails : Sequential.Faults :=
  {| Sequential.atRequestUpdate := None;
     Sequential.atCurrentUserUpdate := Some "permission-denied";
     Sequential.atSenderUpdate := None |}.

End Friends.

(** ** utils/tweetCache.ts and services/friendService.ts: the caches *)

Module TweetCache.

(** [friends.sort().join('|')].  [sort()] without a comparator orders
    strings by their code units, which is [String.le] on the characters of
    the ids; any sorting algorithm returns the same array for that order. *)
Definition generateFriendsHash (friends : list string) : string :=
  String.concat "|" (merge_sort String.le friends).

(** [interface TimelineCache], for any representation of a tweet. *)
Record TimelineCache (Tweet : Type) := mkTimelineCache {
  tweets : list Tweet;
  lastUpdated : Z;
  friendsHash : string;
  lastLoadedActivity : Z
}.
Arguments mkTimelineCache {Tweet}.
Arguments tweets {Tweet}.
Arguments lastUpdated {Tweet}.
Arguments friendsHash {Tweet}.
Arguments lastLoadedActivity {Tweet}.

(** [cacheTimeline]: the value stored under ['timeline_cache']. *)
Definition cacheTimeline {Tweet} (tweets : list Tweet) (friends : list string)
    (lastLoadedActivity : option Z) (now : Z) : TimelineCache Tweet :=
  {| tweets := tweets;
     lastUpdated := now;
     friendsHash := generateFriendsHash friends;
     lastLoadedActivity :=
       match lastLoadedActivity with
       | Some t => if Z.eqb t 0 then now else t
       | None => now
       end |}.

(** [getCachedTimeline]; [cacheJson] is the parsed item of local storage,
    [None] when there is none (an item that does not parse ends in the same
    [null]). *)
Definition getCachedTimeline {Tweet} (cacheJson : option (TimelineCache Tweet))
    (friends : list string) (currentTime maxAge : Z)
    : option (TimelineCache Tweet) :=
  match cacheJson with
  | None => None
  | Some cache =>
      if bool_decide (currentTime - lastUpdated cache > maxAge)%Z
         || negb (String.eqb (friendsHash cache) (generateFriendsHash friends))
      then None
      else Some cache
  end.

Definition defaultMaxAge : Z := 5 * 60 * 1000.

End TweetCache.

Module FriendService.

(** [interface RecommendedFriend] *)
Record RecommendedFriend := mkRecommendedFriend {
  rf_uid : string;
  rf_displayName : string;
  rf_email : string;
  rf_mutualFriends : nat
}.

(** [interface FriendRecommendationsCache] *)
Record FriendRecommendationsCache := mkCache {
  recommendations : list RecommendedFriend;
  lastUpdated : Z;
  friendsHash : string;
  sampledFriends : list string
}.

(** The service has its own copy of the hash function, with the same body. *)
Definition generateFriendsHash (friends : list string) : string :=
  String.concat "|" (merge_sort String.le friends).

Definition defaultMaxAge : Z := 24 * 60 * 60 * 1000.

Definition cacheRecommendations (recs : list RecommendedFriend)
    (allFriends sampled : list string) (now : Z) : FriendRecommendationsCache :=
  {| recommendations := recs;
     lastUpdated := now;
     friendsHash := generateFriendsHash allFriends;
     sampledFriends := sampled |}.

(** [getCachedRecommendations]; [cachedData] as in [getCachedTimeline]. *)
Definition getCachedRecommendations
    (cachedData : option FriendRecommendationsCache)
    (friends : list string) (currentTime maxAge : Z)
    : option (list RecommendedFriend) :=
  match cachedData with
  | None => None
  | Some cache =>
      if bool_decide (currentTime - lastUpdated cache > maxAge)%Z
         || negb (String.eqb (friendsHash cache) (generateFriendsHash friends))
      then None
      else Some (recommendations cache)
  end.

(** *** The ranking *)

(** A JS [Map] with string keys: its entries in insertion order.  [set] on
    a key that is present keeps the entry where it is. *)
Definition JsMap (V : Type) : Type := list (string * V).

Fixpoint map_get {V} (k : string) (m : JsMap V) : option V :=
  match m with
  | [] => None
  | (k', v) :: m' => if String.eqb k' k then Some v else map_get k m'
  end.

Fixpoint map_set {V} (k : string) (v : V) (m : JsMap V) : JsMap V :=
  match m with
  | [] => [(k, v)]
  | (k', v') :: m' =>
      if String.eqb k' k then (k', v) :: m' else (k', v') :: map_set k v m'
  end.

(** The element type of the result: [{ uid, mutualFriends }]. *)
Record Recommendation := mkRecommendation {
  uid : string;
  mutualFriends : nat
}.

#[global] Instance Recommendation_eq_dec : EqDecision Recommendation.
Proof. solve_decision. Defined.

(** [Array.prototype.sort(compare)] is stable, so for a comparator that
    orders the elements its result is the one arrangement that is sorted
    and keeps elements comparing equal in their previous order; inserting
    from the right, each element in front of the first one it does not
    exceed, computes it. *)
Fixpoint insertBy {A} (compare : A → A → Z) (x : A) (l : list A) : list A :=
  match l with
  | [] => [x]
  | y :: l' =>
      if (0 <? compare x y)%Z then y :: insertBy compare x l'
      else x :: y :: l'
  end.

Definition sortBy {A} (compare : A → A → Z) (l : list A) : list A :=
  foldr (insertBy compare) [] l.

(** [(a, b) => b.mutualFriends - a.mutualFriends] *)
Definition byMutualFriendsDesc (a b : Recommendation) : Z :=
  (Z.of_nat (mutualFriends b) - Z.of_nat (mutualFriends a))%Z.

(** [candidatesMap.set(potentialFriend,
    (candidatesMap.get(potentialFriend) || 0) + 1)] *)
Definition increment (candidatesMap : JsMap nat) (potentialFriend : string)
    : JsMap nat :=
  map_set potentialFriend
    (default 0 (map_get potentialFriend candidatesMap) + 1) candidatesMap.

(** The body of the inner loop for one [potentialFriend]. *)
Definition countCandidate (currentUserId : string)
    (currentUserFriendsSet : gset string) (candidatesMap : JsMap nat)
    (potentialFriend : string) : JsMap nat :=
  if String.eqb potentialFriend currentUserId
     || bool_decide (potentialFriend ∈ currentUserFriendsSet)
  then candidatesMap
  else increment candidatesMap potentialFriend.

(** The two nested loops over [friendsOfFriends.entries()]. *)
Definition countCandidates (currentUserId : string)
    (allCurrentUserFriends : list string)
    (friendsOfFriends : JsMap (list string)) : JsMap nat :=
  let currentUserFriendsSet : gset string :=
    list_to_set allCurrentUserFriends in
  foldl (λ candidatesMap entry,
           foldl (countCandidate currentUserId currentUserFriendsSet)
                 candidatesMap entry.2)
        [] friendsOfFriends.

Definition calculateRecommendations (currentUserId : string)
    (allCurrentUserFriends : list string)
    (friendsOfFriends : JsMap (list string)) : list Recommendation :=
  sortBy byMutualFriendsDesc
    (map (λ e, {| uid := e.1; mutualFriends := e.2 |})
       (countCandidates currentUserId allCurrentUserFriends friendsOfFriends)).

(** In [getFriendRecommendations]: [recommendations.slice(0, limit)], the
    ids asked from the store and the final list, which keeps the entries
    whose profile the store returned. *)
Definition defaultLimit : nat := 5.

Definition topRecommendationIds (limit : nat)
    (recs : list Recommendation) : list string :=
  map uid (take limit recs).

Definition finalRecommendations (limit : nat)
    (userMap : gmap string (string * string))
    (recs : list Recommendation) : list RecommendedFriend :=
  omap (λ rec,
          userDetails ← userMap !! uid rec;
          Some {| rf_uid := uid rec;
                  rf_displayName := userDetails.1;
                  rf_email := userDetails.2;
                  rf_mutualFriends := mutualFriends rec |})
       (take limit recs).

(** *** The ranking in the words of its description

    The ids met by the two loops in order, which of them count, how often
    an id occurs, through how many sampled friends it is reached, and the
    ids in the order in which they are first met. *)

Definition potentialFriends (friendsOfFriends : JsMap (list string))
    : list string :=
  mjoin friendsOfFriends.*2.

Definition eligible (currentUserId : string)
    (allCurrentUserFriends : list string) (c : string) : Prop :=
  c ≠ currentUserId ∧ c ∉ allCurrentUserFriends.

#[global] Instance eligible_dec u fs c : Decision (eligible u fs c).
Proof. unfold eligible. apply _. Defined.

Definition occurrencesIn (c : string) (l : list string) : nat :=
  length (filter (λ x, x = c) l).

Definition occurrences (c : string) (friendsOfFriends : JsMap (list string))
    : nat :=
  occurrencesIn c (potentialFriends friendsOfFriends).

Definition sampledFriendsListing (c : string)
    (friendsOfFriends : JsMap (list string)) : nat :=
  length (filter (λ e, c ∈ e.2) friendsOfFriends).

Fixpoint firstSeen (l : list string) : list string :=
  match l with
  | [] => []
  | x :: l' => x :: filter (λ y, y ≠ x) (firstSeen l')
  end.

(** The ids of a list in first-seen order, each with its number of
    occurrences. *)
Definition tally (l : list string) : JsMap nat :=
  map (λ c, (c, occurrencesIn c l)) (firstSeen l).

(** The candidates in the order in which the loops first reach them. *)
Definition candidatesInOrder (currentUserId : string)
    (allCurrentUserFriends : list string)
    (friendsOfFriends : JsMap (list string)) : list string :=
  firstSeen (filter (eligible currentUserId allCurrentUserFriends)
               (potentialFriends friendsOfFriends)).

(** Each candidate with the number of its occurrences, unsorted. *)
Definition scoredCandidates (currentUserId : string)
    (allCurrentUserFriends : list string)
    (friendsOfFriends : JsMap (list string)) : list Recommendation :=
  map (λ c, {| uid := c; mutualFriends := occurrences c friendsOfFriends |})
    (candidatesInOrder currentUserId allCurrentUserFriends friendsOfFriends).

(** Scores do not go up from [a] to [b]. *)
Definition descending (a b : Recommendation) : Prop :=
  (mutualFriends b ≤ mutualFriends a)%nat.

(** *** Concrete inputs used in examples *)

(** Five sampled friends of ["me"] and eight candidates. *)
Definition sampleGraph : JsMap (list string) :=
  [ ("f1", ["me"; "zoe"; "amy"; "f2"; "bea"]);
    ("f2", ["me"; "amy"; "f1"; "cat"; "dan"]);
    ("f3", ["zoe"; "me"; "amy"; "eve"]);
    ("f4", ["me"; "bea"; "zoe"; "fay"]);
    ("f5", ["gus"; "me"; "f4"]) ].

Definition sampleFriends : list string := ["f1"; "f2"; "f3"; "f4"; "f5"].

End FriendService.

(** ** components/WordleGame.tsx: typing a guess and closing the game *)

Module WordleKeyboard.

(** [/^[A-Za-z]$/] on a one-character string. *)
Definition isUpperLetter (a : ascii) : bool :=
  ((65 <=? nat_of_ascii a) && (nat_of_ascii a <=? 90))%nat.

Definition isLowerLetter (a : ascii) : bool :=
  ((97 <=? nat_of_ascii a) && (nat_of_ascii a <=? 122))%nat.

Definition isLetter (a : ascii) : bool :=
  isUpperLetter a || isLowerLetter a.

(** [toUpperCase()] on a letter. *)
Definition toUpperCase (a : ascii) : ascii :=
  if isLowerLetter a then ascii_of_nat (nat_of_ascii a - 32) else a.

(** [prev.slice(0, -1)] *)
Fixpoint dropLast (s : string) : string :=
  match s with
  | EmptyString => EmptyString
  | String a EmptyString => EmptyString
  | String a rest => String a (dropLast rest)
  end.

(** [handleKeyPress(key)]: the key counts when the guess is shorter than
    five characters and the key is one letter. *)
Definition handleKeyPress (currentGuess key : string) : string :=
  match key with
  | String a EmptyString =>
      if (String.length currentGuess <? 5)%nat && isLetter a
      then currentGuess ++ String (toUpperCase a) EmptyString
      else currentGuess
  | _ => currentGuess
  end.

Definition handleBackspace (currentGuess : string) : string :=
  dropLast currentGuess.

(** What the player does to the guess being typed. *)
Inductive Input :=
  | Key (key : string)
  | Backspace.

Definition input (currentGuess : string) (i : Input) : string :=
  match i with
  | Key key => handleKeyPress currentGuess key
  | Backspace => handleBackspace currentGuess
  end.

(** The guess after a series of inputs, from the empty guess the component
    starts with (and returns to after each submission). *)
Definition typed (inputs : list Input) : string :=
  foldl input "" inputs.

End WordleKeyboard.

Module WordleClose.
Import GameCoordinator.

(** [where('senderId', '==', uid), where('gameId', '==', gameId)] *)
Definition senderQuery (uid gid : string) (invites : Invites) : Invites :=
  filter (λ d, senderId d.2 = uid ∧ gameId d.2 = Some gid) invites.

(** [where('receiverId', '==', uid), where('gameId', '==', gameId)] *)
Definition receiverQuery (uid gid : string) (invites : Invites) : Invites :=
  filter (λ d, receiverId d.2 = uid ∧ gameId d.2 = Some gid) invites.

(** [handleClose] of the game window for a signed-in user, the store calls
    succeeding: the invite collection afterwards.  [onClose()] follows. *)
Definition handleClose (uid gid : string) (invites : Invites) : Invites :=
  match senderQuery uid gid invites with
  | (id, _) :: _ => deleteDoc id invites
  | [] =>
      match receiverQuery uid gid invites with
      | (id, _) :: _ => deleteDoc id invites
      | [] => invites
      end
  end.

(** [handleCloseGame], the [onClose] the provider passes down. *)
Definition handleCloseGame (st : Provider) : Provider :=
  {| activeGameId := None; activeOpponentId := None;
     activeInviteId := activeInviteId st;
     pendingInvites := pendingInvites st |}.

(** [handleAcceptInvite(gameId, opponentId)] *)
Definition handleAcceptInvite (gid opponent : string) (st : Provider)
    : Provider :=
  {| activeGameId := Some gid; activeOpponentId := Some opponent;
     activeInviteId := None;
     pendingInvites := pendingInvites st |}.

(** [handleCloseInvite] *)
Definition handleCloseInvite (st : Provider) : Provider :=
  {| activeGameId := activeGameId st;
     activeOpponentId := activeOpponentId st;
     activeInviteId := None;
     pendingInvites := pendingInvites st |}.

(** GameModal: the game window is shown when both ids are truthy, the
    invite window when [activeInviteId] is. *)
Definition gameWindowShown (st : Provider) : bool :=
  truthy (activeGameId st) && truthy (activeOpponentId st).

Definition inviteWindowShown (st : Provider) : bool :=
  truthy (activeInviteId st).

End WordleClose.

(** ** Runs of the word game *)

Module WordleRuns.
Import Wordle.

(** The guess list the handler picks for [uid]: [player1Guesses] for
    player 1, [player2Guesses] for anyone else. *)
Definition guessesOf (g : GameState) (uid : string) : list string :=
  if String.eqb uid (player1 g) then player1Guesses g else player2Guesses g.

(** Whose turn it is agrees with how many guesses each player has made. *)
Definition turnsAgree (g : GameState) : Prop :=
  (currentPlayer g = player1 g
   ∧ length (player1Guesses g) = length (player2Guesses g))
  ∨ (currentPlayer g = player2 g
     ∧ length (player1Guesses g) = S (length (player2Guesses g))).

Definition fiveLetters (g : GameState) : Prop :=
  Forall (λ s, String.length s = 5) (player1Guesses g ++ player2Guesses g)%list.

(** The game is running and nobody has guessed the word, or it is over and
    the winner's list holds the word. *)
Definition outcomeAgrees (g : GameState) : Prop :=
  (status g = active ∧ winner g = None
   ∧ (word g ∉ player1Guesses g) ∧ (word g ∉ player2Guesses g))
  ∨ (status g = completed
     ∧ ∃ w, winner g = Some w ∧ word g ∈ guessesOf g w).

End WordleRuns.

(** ** Several tabs on one game document

    Every mounted [WordleGame] keeps its own copy of the document in React
    state: the listener of [onSnapshot] replaces it when a snapshot
    arrives, and [handleSubmitGuess] reads it when Enter is clicked.  The
    copy of a tab can be behind the stored document, for instance when the
    same user has the game open in two tabs. *)

Module WordleTabs.
Import Wordle WordleRuns.

(** The React state of one mounted component, with the user signed in in
    its tab. *)
Record Tab := mkTab {
  currentUser : string;
  gameState : option GameState;
  showGameOver : bool;
  loading : bool
}.

(** [useState(null)], [useState(false)] and [useState(true)]. *)
Definition mounted (uid : string) : Tab :=
  {| currentUser := uid; gameState := None; showGameOver := false;
     loading := true |}.

(** The listener of [onSnapshot], called with a document that exists. *)
Definition onSnapshot (data : GameState) (t : Tab) : Tab :=
  {| currentUser := currentUser t;
     gameState := Some data;
     showGameOver :=
       if bool_decide (status data = completed) && negb (showGameOver t)
       then true else showGameOver t;
     loading := false |}.

(** The stored document and the tabs that show it. *)
Record Table := mkTable {
  stored : GameState;
  tabs : list Tab
}.

(** What happens next: the listener of tab [i] is called with the stored
    document, or Enter is clicked in tab [i] with [currentGuess] typed.
    With [echo] the listener of the clicking tab is called at once with
    its own view of the write, the snapshot it holds with the written
    fields merged in; without it the tab waits for the next delivery. *)
Inductive Event :=
  | Deliver (i : nat)
  | Click (i : nat) (currentGuess : string) (echo : bool).

(** The Enter button of the tab is on screen and enabled. *)
Definition clickPasses (t : Tab) (guess : string) : bool :=
  keyboardRendered (loading t) (showGameOver t) (gameState t)
    (Some (currentUser t))
  && negb (enterDisabled (gameState t) (Some (currentUser t)) guess).

(** The document [doc] after a click on Enter in tab [t]. *)
Definition click (t : Tab) (doc : GameState) (guess : string) : GameState :=
  clickEnterFrom (loading t) (showGameOver t) (gameState t) doc
    (currentUser t) guess.

Definition localEcho (t : Tab) (guess : string) : Tab :=
  match gameState t with
  | Some snapshot =>
      if clickPasses t guess then onSnapshot (click t snapshot guess) t
      else t
  | None => t
  end.

Definition step (w : Table) (e : Event) : Table :=
  match e with
  | Deliver i =>
      {| stored := stored w;
         tabs := alter (onSnapshot (stored w)) i (tabs w) |}
  | Click i guess echo =>
      match tabs w !! i with
      | Some t =>
          {| stored := click t (stored w) guess;
             tabs := if echo then <[i := localEcho t guess]> (tabs w)
                     else tabs w |}
      | None => w
      end
  end.

Definition run (w : Table) (events : list Event) : Table :=
  foldl step w events.

(** The document [g] with a component just mounted for each of [uids]. *)
Definition opened (g : GameState) (uids : list string) : Table :=
  {| stored := g; tabs := mounted <$> uids |}.

(** The event is a click on an Enter button that is on screen and
    enabled. *)
Definition getsThrough (w : Table) (e : Event) : bool :=
  match e with
  | Deliver _ => false
  | Click i guess _ =>
      match tabs w !! i with
      | Some t => clickPasses t guess
      | None => false
      end
  end.

(** Every click that gets through comes from a tab whose snapshot is the
    stored document. *)
Definition clickIsCurrent (w : Table) (e : Event) : bool :=
  match e with
  | Deliver _ => true
  | Click i guess _ =>
      match tabs w !! i with
      | Some t =>
          negb (clickPasses t guess)
          || bool_decide (gameState t = Some (stored w))
      | None => true
      end
  end.

Fixpoint upToDate (w : Table) (events : list Event) : bool :=
  match events with
  | [] => true
  | e :: rest => clickIsCurrent w e && upToDate (step w e) rest
  end.

(** The word and the players are those of [g0]. *)
Definition sameGame (g0 g : GameState) : Prop :=
  word g = word g0 ∧ player1 g = player1 g0 ∧ player2 g = player2 g0.

(** The game is running, without a winner and without the word in a guess
    list, or it is over and has a winner. *)
Definition settled (g : GameState) : Prop :=
  (status g = active ∧ winner g = None
   ∧ (word g ∉ player1Guesses g) ∧ (word g ∉ player2Guesses g))
  ∨ (status g = completed ∧ is_Some (winner g)).

Definition sound (g0 g : GameState) : Prop :=
  sameGame g0 g ∧ fiveLetters g ∧ settled g.

(** Some stored guess is drawn green all over. *)
Definition hasGreenRow (g : GameState) : Prop :=
  Exists (λ guess, Forall (eq exact) (renderGuessResult (word g) guess))
    (player1Guesses g ++ player2Guesses g)%list.

(** *** Concrete inputs used in examples *)

(** ["alice"] has the game open in two tabs, ["bob"] in one. *)
Definition threeTabs : Table :=
  opened (newGameState clientA) ["alice"; "alice"; "bob"].

(** Both tabs of ["alice"] receive the new game and she finds the word in
    the first. *)
Definition aliceWins : list Event :=
  [Deliver 0; Deliver 1; Click 0 "FLUSH" true].

(** Then she submits another guess in the second, which has not received
    the completed document. *)
Definition lateClick : Event := Click 1 "WIPES" true.

(** A run in which every tab has received the document before its
    click. *)
Definition inTurn : list Event :=
  [Deliver 0; Click 0 "WIPES" true; Deliver 2; Click 2 "FLUSH" true].

(** A run in which the second tab of ["alice"] is two writes behind. *)
Definition behind : list Event :=
  [Deliver 0; Deliver 1; Click 0 "WIPES" true; Deliver 2;
   Click 2 "DRAIN" true; Click 1 "PIPES" true].

End WordleTabs.

(** ** components/GameInvite.tsx and OnlineUsers.tsx: the life of an invite *)

Module GameInvites.
Import GameCoordinator WordleClose.

(** [updateDoc(doc(firestore, 'gameInvites', id), fields)]: the fields of
    that document are replaced; the call fails when there is no such
    document. *)
Definition updateInvite (id : string)
    (fields : GameInviteData → GameInviteData) (invites : Invites)
    : option Invites :=
  if bool_decide (id ∈ invites.*1)
  then Some (map (λ d, if decide (d.1 = id) then (d.1, fields d.2) else d)
               invites)
  else None.

(** [`wordle_${Date.now()}_${Math.random().toString(36).substring(2, 9)}`],
    with the two renderings as given. *)
Definition newGameId (stamp suffix : string) : string :=
  "wordle_" ++ stamp ++ "_" ++ suffix.

Definition accept (gid : string) (d : GameInviteData) : GameInviteData :=
  {| senderId := senderId d; senderName := senderName d;
     receiverId := receiverId d; inviteStatus := accepted;
     createdAt := createdAt d; gameId := Some gid |}.

Definition reject (d : GameInviteData) : GameInviteData :=
  {| senderId := senderId d; senderName := senderName d;
     receiverId := receiverId d; inviteStatus := rejected;
     createdAt := createdAt d; gameId := gameId d |}.

(** The invite window: the collection, the provider state and the error
    line after a click. *)
Record AfterClick := mkAfterClick {
  ac_invites : Invites;
  ac_provider : Provider;
  ac_error : string
}.

(** [handleAccept]; [invite] is the snapshot the window holds, [None] when
    the document has gone. *)
Definition handleAccept (invite : option (string * GameInviteData))
    (currentUser : option string) (stamp suffix : string)
    (invites : Invites) (st : Provider) : AfterClick :=
  match invite, currentUser with
  | Some (id, d), Some _ =>
      let gid := newGameId stamp suffix in
      match updateInvite id (accept gid) invites with
      | Some invites' =>
          {| ac_invites := invites';
             ac_provider := handleAcceptInvite gid (senderId d) st;
             ac_error := "" |}
      | None =>
          {| ac_invites := invites; ac_provider := st;
             ac_error := "Error accepting the invite. Please try again." |}
      end
  | _, _ => {| ac_invites := invites; ac_provider := st; ac_error := "" |}
  end.

(** [handleReject] *)
Definition handleReject (invite : option (string * GameInviteData))
    (currentUser : option string) (invites : Invites) (st : Provider)
    : AfterClick :=
  match invite, currentUser with
  | Some (id, d), Some _ =>
      match updateInvite id reject invites with
      | Some invites' =>
          {| ac_invites := invites';
             ac_provider := handleCloseInvite st;
             ac_error := "" |}
      | None =>
          {| ac_invites := invites; ac_provider := st;
             ac_error := "Error rejecting the invite. Please try again." |}
      end
  | _, _ => {| ac_invites := invites; ac_provider := st; ac_error := "" |}
  end.

End GameInvites.

(** ** Who runs [initializeGame]

    The game window mounts [WordleGame], whose effect runs
    [initializeGame], once the state above it holds a game id and an
    opponent.  [handleAccept] puts a newly made id there, in the tab of the
    player who accepts; every other tab gets the id from [fetchGameState],
    which hands over a game only when its document exists.  No code deletes
    a document of [wordleGames]. *)

Module GameStart.
Import Wordle GameCoordinator WordleClose.

(** The collection [wordleGames] and the runs of [initializeGame] for the
    game id under study, each with the program counter it has reached. *)
Record Lobby := mkLobby {
  games : gmap string GameState;
  starts : list (Client * Pc)
}.

(** What happens next: [fetchGameState] runs for [uid] in a tab whose
    state is [st], with the invite collection as it then is, or the run
    numbered [k] makes its next store call.  [randomIndex] and [now] are
    what [Math.random] and [Date.now] give the component if the tick
    mounts it. *)
Inductive Event :=
  | Tick (uid : string) (invites : Invites) (st : Provider)
      (randomIndex : nat) (now : Z)
  | StoreCall (k : nat).

(** The effect of [WordleGame] runs for [gid] after a change of state from
    [st] to [st']: the window is shown for that game, and it was not shown
    before or one of the two ids the effect depends on has changed. *)
Definition effectRuns (gid : string) (st st' : Provider) : bool :=
  gameWindowShown st'
  && bool_decide (activeGameId st' = Some gid)
  && negb (bool_decide (activeGameId st = activeGameId st'
                        ∧ activeOpponentId st = activeOpponentId st')).

Definition step (gid : string) (w : Lobby) (e : Event) : Lobby :=
  match e with
  | Tick uid invites st randomIndex now =>
      let st' := (fetchGameState uid (games w) invites st).2 in
      if effectRuns gid st st' then
        {| games := games w;
           starts :=
             (starts w
              ++ [({| c_uid := uid;
                      c_opponentId := default "" (activeOpponentId st');
                      c_randomIndex := randomIndex;
                      c_now := now |}, BeforeGet)])%list |}
      else w
  | StoreCall k =>
      match starts w !! k with
      | Some (c, pc) =>
          let '(pc', games') := initializeGame gid c pc (games w) in
          {| games := games'; starts := <[k := (c, pc')]> (starts w) |}
      | None => w
      end
  end.

Definition run (gid : string) (w : Lobby) (events : list Event) : Lobby :=
  foldl (step gid) w events.

(** [handleAccept] has made the id and mounted the component for client
    [c]; nothing else has happened for this id yet. *)
Definition accepted (c : Client) (games0 : gmap string GameState) : Lobby :=
  {| games := games0; starts := [(c, BeforeGet)] |}.

(** *** Concrete inputs used in examples *)


(** The tick of ["alice"] comes before the document is written. *)
Definition aliceEarly : list Event :=
  [StoreCall 0; Tick "alice" twoAccepted noGame 0 1000; StoreCall 0;
   StoreCall 1; StoreCall 1].

End GameStart.

(** ** Concrete inputs for the examples of the second part *)

Module Samples.

(** A pending invite from ["alice"] to ["bob"]. *)
Definition pendingFromAlice : GameCoordinator.GameInviteData :=
  {| GameCoordinator.senderId := "alice";
     GameCoordinator.senderName := "Alice";
     GameCoordinator.receiverId := "bob";
     GameCoordinator.inviteStatus := GameCoordinator.pending;
     GameCoordinator.createdAt := 300;
     GameCoordinator.gameId := None |}.

Definition onePending : GameCoordinator.Invites :=
  [("invite3", pendingFromAlice)].

End Samples.

(** ** contexts/AuthContext.tsx: the tabs of one user over time *)

Module PresenceRuns.
Import Presence.

(** What the tabs of one user do: sign in (the effect of
    [onAuthStateChanged]), change the status flag, sign out, or lose the
    connection, which makes the server run the tab's hook. *)
Inductive TabEvent :=
  | SignIn (sessionId : string) (now : Z)
  | SetShitting (sessionId : string) (isShittingNow : bool) (now : Z)
  | SignOut (sessionId : string)
  | ConnectionLost (sessionId : string).

Definition tabStep (uid : string) (db : gmap string Status) (e : TabEvent)
    : gmap string Status :=
  match e with
  | SignIn sid now =>
      statusNodes
        (attach uid sid now {| statusNodes := db; onDisconnectRemove := [] |})
  | SetShitting sid b now =>
      statusNodes
        (updateUserStatus (Some uid) sid b now
           {| statusNodes := db; onDisconnectRemove := [] |})
  | SignOut sid =>
      statusNodes
        (logout (Some uid) sid
           {| statusNodes := db; onDisconnectRemove := [] |})
  | ConnectionLost sid =>
      statusNodes
        (disconnect
           {| statusNodes := db; onDisconnectRemove := [(uid, sid)] |})
  end.

Definition tabRun (uid : string) (db : gmap string Status)
    (events : list TabEvent) : gmap string Status :=
  foldl (tabStep uid) db events.

(** The tabs that are open after the events, as a map of its own. *)
Definition openTabs (before : gmap string bool) (events : list TabEvent)
    : gmap string bool :=
  foldl (λ m e,
           match e with
           | SignIn sid _ | SetShitting sid _ _ => <[sid := true]> m
           | SignOut sid | ConnectionLost sid => delete sid m
           end) before events.

(** *** The store calls of several tabs

    Both status writes are a [get] of the node followed by a [set] of the
    whole node, two store calls between which another tab can write. *)

(** The presence nodes and, for each tab that is between its [get] and its
    [set], the snapshot it read. *)
Record Shared := mkShared {
  nodes : gmap string Status;
  held : gmap string (option Status)
}.

(** The store calls of the tabs of one user: the [get] of either status
    write, the [set] of the sign-in effect, the [set] of
    [updateUserStatus], and the removal of a session key by [logout] or by
    the server for a lost connection. *)
Inductive Call :=
  | Get (sessionId : string)
  | SetSignIn (sessionId : string) (now : Z)
  | SetStatus (sessionId : string) (isShittingNow : bool) (now : Z)
  | RemoveKey (sessionId : string).

Definition callStep (uid : string) (w : Shared) (c : Call) : Shared :=
  match c with
  | Get sid =>
      {| nodes := nodes w; held := <[sid := nodes w !! uid]> (held w) |}
  | SetSignIn sid now =>
      match held w !! sid with
      | Some snapshot =>
          {| nodes :=
               statusNodes
                 (attachFrom uid sid now snapshot
                    {| statusNodes := nodes w; onDisconnectRemove := [] |});
             held := delete sid (held w) |}
      | None => w
      end
  | SetStatus sid b now =>
      match held w !! sid with
      | Some snapshot =>
          {| nodes :=
               statusNodes
                 (updateUserStatusFrom uid sid b now snapshot
                    {| statusNodes := nodes w; onDisconnectRemove := [] |});
             held := delete sid (held w) |}
      | None => w
      end
  | RemoveKey sid =>
      {| nodes := removeSessionKey uid sid (nodes w); held := held w |}
  end.

Definition callRun (uid : string) (w : Shared) (calls : list Call) : Shared :=
  foldl (callStep uid) w calls.

(** The store calls of one tab event, nothing coming between a [get] and
    its [set]. *)
Definition oneByOne (e : TabEvent) : list Call :=
  match e with
  | SignIn sid now => [Get sid; SetSignIn sid now]
  | SetShitting sid b now => [Get sid; SetStatus sid b now]
  | SignOut sid => [RemoveKey sid]
  | ConnectionLost sid => [RemoveKey sid]
  end.

(** The calls of a series of tab events that run one after another. *)
Definition serial (events : list TabEvent) : list Call :=
  mjoin (oneByOne <$> events).

(** The entry of [uid] is in the list of online friends that [viewer]
    sees at time [now]. *)
Definition listed (viewer : string) (friends : list string) (now : Z)
    (db : gmap string Status) (uid : string) : Prop :=
  ∃ status, db !! uid = Some status
            ∧ listedOnline viewer friends now uid status = true.

(** Two tabs of one user sign in at the same time: both read before
    either writes. *)
Definition twoSignIns : list Call :=
  [Get "tab1"; Get "tab2"; SetSignIn "tab1" 1000; SetSignIn "tab2" 1001].

Definition noCalls : Shared := {| nodes := ∅; held := ∅ |}.

End PresenceRuns.

(** ** pages/Friends.tsx: removing a friend *)

Module FriendRemoval.
Import Friends.

(** The [user] argument: [user.uid] and [user.displayName]. *)
Record User := mkUser {
  user_uid : string;
  user_displayName : string
}.

(** [arrayRemove(x)] on the [friends] field: every occurrence of [x] goes;
    a missing field becomes an empty array. *)
Definition arrayRemove (x : string) (u : UserDoc) : UserDoc :=
  {| displayName := displayName u;
     friends := Some (filter (λ y, y ≠ x) (default [] (friends u))) |}.

(** [updateDoc(userRef, { friends: arrayRemove(x) })] *)
Definition removeFromFriends (fault : option string) (target x : string)
    : Op unit :=
  λ fs,
  match fault, users fs !! target with
  | Some message, _ => (fs, Threw message)
  | None, None => (fs, Threw notFound)
  | None, Some _ =>
      ({| users := alter (arrayRemove x) target (users fs);
          friendRequests := friendRequests fs |},
       Returned ())
  end.

(** [updateDoc(userRef, { friends: newFriends })] *)
Definition setFriends (fault : option string) (target : string)
    (newFriends : list string) : Op unit :=
  λ fs,
  match fault, users fs !! target with
  | Some message, _ => (fs, Threw message)
  | None, None => (fs, Threw notFound)
  | None, Some u =>
      ({| users :=
            <[target := {| displayName := displayName u;
                           friends := Some newFriends |}]> (users fs);
          friendRequests := friendRequests fs |},
       Returned ())
  end.

(** The platform errors injected at the writes of [removeFriend]. *)
Record Faults := mkFaults {
  atOwnUpdate : option string;
  atOtherUpdate : option string;
  atAlternativeUpdate : option string;
  atFixOwn : option string;
  atFixOther : option string
}.

(** The inner [try]: the update of the other profile, then the
    "alternative approach" from the snapshot [otherUserDoc] read at the
    start of the call.  The result is [otherUserUpdateSuccessful]. *)
Definition updateOtherUser (faults : Faults) (currentUser : string)
    (user : User) (otherUserDoc : UserDoc) (fs : Firestore)
    : Firestore * bool :=
  match removeFromFriends (atOtherUpdate faults) (user_uid user) currentUser
          fs with
  | (fs', Returned _) => (fs', true)
  | (fs', Threw _) =>
      let currentFriends := default [] (friends otherUserDoc) in
      if bool_decide (currentUser ∈ currentFriends) then
        let newFriends := filter (λ friendId, friendId ≠ currentUser)
                            currentFriends in
        match setFriends (atAlternativeUpdate faults) (user_uid user)
                newFriends fs' with
        | (fs'', Returned _) => (fs'', true)
        | (fs'', Threw _) => (fs'', false)
        end
      else (fs', true)
  end.

(** The body of the outer [try]. *)
Definition removeFriendBody (faults : Faults) (currentUser : string)
    (user : User) : Op bool :=
  otherUserDoc ←
    getUserOrThrow (user_uid user)
      ("User document for " ++ user_displayName user ++ " not found");
  _ ← removeFromFriends (atOwnUpdate faults) currentUser (user_uid user);
  ((λ fs, let '(fs', otherUserUpdateSuccessful) :=
             updateOtherUser faults currentUser user otherUserDoc fs in
           (fs', Returned otherUserUpdateSuccessful)) : Op bool).

(** [data.friends && data.friends.includes(x)]: [None] is [undefined]. *)
Definition hasFriend (data : UserDoc) (x : string) : option bool :=
  (λ l, bool_decide (x ∈ l)) <$> friends data.

Definition truthyFlag (v : option bool) : bool := default false v.

(** The repair in the [catch] block; the result tells whether
    [setSuccess('Fixed inconsistent friendship state')] was reached. *)
Definition fixInconsistency (faults : Faults) (currentUser other : string)
    (fs : Firestore) : Firestore * bool :=
  match users fs !! currentUser, users fs !! other with
  | Some currentUserData, Some otherUserData =>
      let currentUserHasFriend := hasFriend currentUserData other in
      let otherUserHasFriend := hasFriend otherUserData currentUser in
      if bool_decide (currentUserHasFriend ≠ otherUserHasFriend) then
        let fix_ : Op unit :=
          _ ← (if truthyFlag currentUserHasFriend
               then removeFromFriends (atFixOwn faults) currentUser other
               else mret ());
          (if truthyFlag otherUserHasFriend
           then removeFromFriends (atFixOther faults) other currentUser
           else mret ()) in
        match fix_ fs with
        | (fs', Returned _) => (fs', true)
        | (fs', Threw _) => (fs', false)
        end
      else (fs, false)
  | _, _ => (fs, false)
  end.

(** How a call ends. *)
Inductive Outcome :=
  | Removed
  | RemovedOwnSideOnly
  | Failed (message : string) (fixed : bool).

Definition removeFriendOutcome (faults : Faults) (currentUser : string)
    (user : User) (fs : Firestore) : Firestore * Outcome :=
  match removeFriendBody faults currentUser user fs with
  | (fs', Returned true) => (fs', Removed)
  | (fs', Returned false) => (fs', RemovedOwnSideOnly)
  | (fs', Threw message) =>
      let '(fs'', fixed) :=
        fixInconsistency faults currentUser (user_uid user) fs' in
      (fs'', Failed message fixed)
  end.

(** The banners an outcome leaves. *)
Definition banner (user : User) (o : Outcome) : Banner :=
  match o with
  | Removed =>
      {| error := "";
         success := user_displayName user ++ " removed from your friends" |}
  | RemovedOwnSideOnly =>
      {| error := "";
         success :=
           user_displayName user
           ++ " removed from your friends, but there was an issue updating their friends list. They may still see you as a friend." |}
  | Failed message fixed =>
      {| error :=
           "Failed to remove friend: "
           ++ (if String.eqb message "" then "Unknown error" else message);
         success :=
           if fixed then "Fixed inconsistent friendship state" else "" |}
  end.

Definition removeFriend (faults : Faults) (currentUser : string)
    (user : User) (fs : Firestore) : Firestore * Banner :=
  let '(fs', o) := removeFriendOutcome faults currentUser user fs in
  (fs', banner user o).

(** Neither profile lists the other. *)
Definition neitherLists (us : gmap string UserDoc) (a b : string) : Prop :=
  ¬ lists us a b ∧ ¬ lists us b a.

(** Only the two ids can have gone, each from the other's array. *)
Definition onlyUnfriended (a b : string) (before after : Firestore) : Prop :=
  friendRequests after = friendRequests before
  ∧ (∀ w, is_Some (users after !! w) ↔ is_Some (users before !! w))
  ∧ (∀ owner y, lists (users after) owner y → lists (users before) owner y)
  ∧ (∀ owner y, ¬ (owner = a ∧ y = b) → ¬ (owner = b ∧ y = a) →
       lists (users before) owner y → lists (users after) owner y).

(** *** Concrete inputs used in examples *)

Definition noFaults : Faults :=
  {| atOwnUpdate := None; atOtherUpdate := None;
     atAlternativeUpdate := None; atFixOwn := None; atFixOther := None |}.

(** The rules refuse both writes to the other profile. *)
Definition otherProfileLocked : Faults :=
  {| atOwnUpdate := None; atOtherUpdate := Some "permission-denied";
     atAlternativeUpdate := Some "permission-denied";
     atFixOwn := None; atFixOther := None |}.

Definition ownUpdateFails : Faults :=
  {| atOwnUpdate := Some "unavailable"; atOtherUpdate := None;
     atAlternativeUpdate := None; atFixOwn := None; atFixOther := None |}.

Definition bob : User := {| user_uid := "bob"; user_displayName := "Bob" |}.

Definition friendsAliceBob : Firestore :=
  {| users :=
       {[ "alice" := {| displayName := "Alice";
                        friends := Some ["carol"; "bob"] |};
          "bob" := {| displayName := "Bob"; friends := Some ["alice"] |};
          "carol" := {| displayName := "Carol";
                        friends := Some ["alice"] |} ]};
     friendRequests := ∅ |}.

(** ["alice"] still lists ["bob"], whose profile lists nobody. *)
Definition oneSided : Firestore :=
  {| users :=
       {[ "alice" := {| displayName := "Alice"; friends := Some ["bob"] |};
          "bob" := {| displayName := "Bob"; friends := Some [] |} ]};
     friendRequests := ∅ |}.

(** Nobody lists anybody; ["bob"]'s profile has no [friends] field. *)
Definition strangers : Firestore :=
  {| users :=
       {[ "alice" := {| displayName := "Alice"; friends := Some [] |};
          "bob" := {| displayName := "Bob"; friends := None |} ]};
     friendRequests := ∅ |}.

End FriendRemoval.

(** ** pages/Friends.tsx: sending, rejecting and cancelling a request *)

Module FriendRequests.
Import Friends FriendRemoval.

(** An error of the platform: [err.code] and [err.message]. *)
Record WriteError := mkWriteError {
  code : string;
  message : string
}.

Record SendFaults := mkSendFaults {
  atCheck : option string;
  atWrite : option WriteError
}.

(** The query [where('senderId', '==', sender), where('receiverId', '==',
    receiver), where('status', '==', 'pending')] on [friendRequests]. *)
Definition pendingQuery (sender receiver : string) (fs : Firestore)
    : list (string * FriendRequestDoc) :=
  filter (λ d, senderId d.2 = sender ∧ receiverId d.2 = receiver
               ∧ status d.2 = pending)
         (map_to_list (friendRequests fs)).

(** What the [try] around the two queries leaves: the error it set before
    returning, if any.  A failing query is logged and the call goes on. *)
Definition existingRequestError (faults : SendFaults)
    (currentUser other : string) (fs : Firestore) : option string :=
  match atCheck faults with
  | Some _ => None
  | None =>
      if bool_decide (pendingQuery currentUser other fs ≠ []) then
        Some "You already sent a friend request to this user"
      else if bool_decide (pendingQuery other currentUser fs ≠ []) then
        Some "This user already sent you a friend request. Check your received requests."
      else None
  end.

(** [currentUserDoc.exists()] and [userData.friends &&
    userData.friends.includes(user.uid)]. *)
Definition alreadyFriends (currentUser other : string) (fs : Firestore)
    : bool :=
  match users fs !! currentUser with
  | Some userData => truthyFlag (hasFriend userData other)
  | None => false
  end.

Definition failedToSend (m : string) : Banner :=
  {| error :=
       "Failed to send friend request: "
       ++ (if String.eqb m "" then "Unknown error" else m);
     success := "" |}.

(** [sendFriendRequest]; [requestId] is the id of
    [doc(collection(firestore, 'friendRequests'))].  Of the new document
    the fields of [FriendRequestDoc] are kept. *)
Definition sendFriendRequest (faults : SendFaults) (currentUser : string)
    (user : User) (requestId : string) (fs : Firestore)
    : Firestore * Banner :=
  match users fs !! user_uid user with
  | None =>
      (fs, failedToSend ("User document for " ++ user_displayName user
                         ++ " not found"))
  | Some _ =>
      match existingRequestError faults currentUser (user_uid user) fs with
      | Some e => (fs, {| error := e; success := "" |})
      | None =>
          if alreadyFriends currentUser (user_uid user) fs then
            (fs, {| error := "You are already friends with this user";
                    success := "" |})
          else
            match atWrite faults with
            | Some writeErr =>
                if String.eqb (code writeErr) "permission-denied" then
                  (fs, {| error := "Failed to send friend request: Missing or insufficient permissions. Please make sure you have updated your Firebase security rules.";
                          success := "" |})
                else (fs, failedToSend (message writeErr))
            | None =>
                ({| users := users fs;
                    friendRequests :=
                      <[requestId := {| senderId := currentUser;
                                        receiverId := user_uid user;
                                        status := pending |}]>
                        (friendRequests fs) |},
                 {| error := "";
                    success := "Friend request sent to "
                               ++ user_displayName user ++ "!" |})
            end
      end
  end.

(** [updateDoc(requestRef, { status })] *)
Definition updateRequestStatus (fault : option string) (rid : string)
    (newStatus : RequestStatus) : Op unit :=
  λ fs,
  match fault, friendRequests fs !! rid with
  | Some m, _ => (fs, Threw m)
  | None, None => (fs, Threw notFound)
  | None, Some r =>
      ({| users := users fs;
          friendRequests :=
            <[rid := {| senderId := senderId r; receiverId := receiverId r;
                        status := newStatus |}]> (friendRequests fs) |},
       Returned ())
  end.

Definition rejectFriendRequest (fault : option string)
    (request : FriendRequest) (fs : Firestore) : Firestore * Banner :=
  match updateRequestStatus fault (id request) rejected fs with
  | (fs', Returned _) =>
      (fs', {| error := "";
               success := "Friend request from "
                          ++ sender_displayName request ++ " rejected" |})
  | (fs', Threw m) =>
      (fs', {| error := "Failed to reject friend request: "
                        ++ (if String.eqb m "" then "Unknown error" else m);
               success := "" |})
  end.

(** [receiverName] is [request.receiverName], which may be missing or
    empty. *)
Definition cancelFriendRequest (fault : option string)
    (request : FriendRequest) (receiverName : option string)
    (fs : Firestore) : Firestore * Banner :=
  match updateRequestStatus fault (id request) cancelled fs with
  | (fs', Returned _) =>
      (fs', {| error := "";
               success :=
                 "Friend request to "
                 ++ (match receiverName with
                     | Some n => if String.eqb n "" then "user" else n
                     | None => "user"
                     end)
                 ++ " cancelled" |})
  | (fs', Threw m) =>
      (fs', {| error := "Failed to cancel friend request: "
                        ++ (if String.eqb m "" then "Unknown error" else m);
               success := "" |})
  end.

(** What the users of the page do with requests, one call after another. *)
Inductive Action :=
  | Send (faults : SendFaults) (currentUser : string) (user : User)
         (requestId : string)
  | Accept (faults : Friends.Faults) (currentUser : string)
           (request : FriendRequest)
  | AcceptSequential (faults : Sequential.Faults) (currentUser : string)
                     (request : FriendRequest)
  | Reject (fault : option string) (request : FriendRequest)
  | Cancel (fault : option string) (request : FriendRequest)
           (receiverName : option string)
  | Remove (faults : FriendRemoval.Faults) (currentUser : string)
           (user : User).

Definition act (fs : Firestore) (a : Action) : Firestore :=
  match a with
  | Send faults currentUser user requestId =>
      (sendFriendRequest faults currentUser user requestId fs).1
  | Accept faults currentUser request =>
      (acceptFriendRequest faults currentUser request fs).1
  | AcceptSequential faults currentUser request =>
      (Sequential.acceptFriendRequest faults currentUser request fs).1
  | Reject fault request => (rejectFriendRequest fault request fs).1
  | Cancel fault request receiverName =>
      (cancelFriendRequest fault request receiverName fs).1
  | Remove faults currentUser user =>
      (removeFriend faults currentUser user fs).1
  end.

Definition run (fs : Firestore) (actions : list Action) : Firestore :=
  foldl act fs actions.

(** The two requests are between the same two users, in either
    direction. *)
Definition samePair (r1 r2 : FriendRequestDoc) : Prop :=
  (senderId r1 = senderId r2 ∧ receiverId r1 = receiverId r2)
  ∨ (senderId r1 = receiverId r2 ∧ receiverId r1 = senderId r2).

(** No two pending requests are between the same two users. *)
Definition onePendingPerPair (fs : Firestore) : Prop :=
  ∀ i j ri rj,
    friendRequests fs !! i = Some ri → friendRequests fs !! j = Some rj →
    status ri = pending → status rj = pending → samePair ri rj → i = j.

(** No [friends] array holds an id twice. *)
Definition friendsNoDup (fs : Firestore) : Prop :=
  ∀ w u, users fs !! w = Some u → NoDup (default [] (friends u)).

(** Every [friends] array of [after] is what is left of the array of the
    same profile in [before] when some entries are taken out. *)
Definition shrinks (before after : Firestore) : Prop :=
  ∀ w u', users after !! w = Some u' →
    ∃ u, users before !! w = Some u
         ∧ sublist (default [] (friends u')) (default [] (friends u)).

(** The queries of a [Send] were answered. *)
Definition checkAnswered (a : Action) : Prop :=
  match a with
  | Send faults _ _ _ => atCheck faults = None
  | _ => True
  end.

(** *** Concrete inputs used in examples *)

Definition sendOk : SendFaults := {| atCheck := None; atWrite := None |}.

Definition queriesFail : SendFaults :=
  {| atCheck := Some "unavailable"; atWrite := None |}.

Definition alice : User :=
  {| user_uid := "alice"; user_displayName := "Alice" |}.

Definition aliceAndBob : Firestore :=
  {| users :=
       {[ "alice" := {| displayName := "Alice"; friends := Some [] |};
          "bob" := {| displayName := "Bob"; friends := None |} ]};
     friendRequests := ∅ |}.

End FriendRequests.

(** ** services/friendService.ts: using the cache *)

Module CacheUse.
Import FriendService.

(** [s] contains the separator of [join('|')]. *)
Fixpoint hasBar (s : string) : bool :=
  match s with
  | EmptyString => false
  | String c s' => Ascii.eqb c "|" || hasBar s'
  end.

(** An id that is not empty and holds no ['|'], as the ids of the
    authentication service are. *)
Definition plainId (s : string) : Prop := s ≠ "" ∧ hasBar s = false.

#[global] Instance plainId_dec s : Decision (plainId s).
Proof. unfold plainId. apply _. Defined.

(** What follows an id in a joined string: nothing, or the separator and
    the rest. *)
Definition tailOfJoin (r : string) : Prop :=
  r = "" ∨ ∃ r', r = String "|" r'.

(** [ignoreRecommendation]; [cachedData] as in [getCachedRecommendations],
    the result is what local storage holds afterwards. *)
Definition ignoreRecommendation (recommendationId : string)
    (cachedData : option FriendRecommendationsCache)
    : option FriendRecommendationsCache :=
  match cachedData with
  | None => None
  | Some cache =>
      Some {| recommendations :=
                filter (λ rec, rf_uid rec ≠ recommendationId)
                  (recommendations cache);
              lastUpdated := lastUpdated cache;
              friendsHash := friendsHash cache;
              sampledFriends := sampledFriends cache |}
  end.

End CacheUse.

(** ** services/tweetService.ts: tweets, likes and the activity log *)

Module TweetService.

(** [interface Tweet]; [likedBy] may be missing in a stored document
    ([tweetData.likedBy || []]). *)
Record Tweet := mkTweet {
  authorId : string;
  authorName : string;
  content : string;
  createdAt : Z;
  likes : Z;
  likedBy : option (list string);
  media : option (list string);
  isPublic : bool
}.

(** [interface TweetActivity] *)
Record TweetActivity := mkTweetActivity {
  userId : string;
  tweetId : string;
  timestamp : Z
}.

(** The collections [tweets] and [tweetActivity], keyed by document id. *)
Record TweetStore := mkTweetStore {
  tweets : gmap string Tweet;
  tweetActivity : gmap string TweetActivity
}.

(** The argument of [createTweet]: a tweet without [id], [likes],
    [likedBy] and [createdAt]. *)
Record NewTweet := mkNewTweet {
  new_authorId : string;
  new_authorName : string;
  new_content : string;
  new_media : option (list string);
  new_isPublic : bool
}.

(** [createTweet] with the batch of two writes; [tweetRefId] and
    [activityRefId] are the ids of the two new document references, [now]
    is [Timestamp.now()], [fault] the error of [batch.commit()], if any.
    The result is the id of the tweet. *)
Definition createTweet (fault : option string) (tweet : NewTweet)
    (tweetRefId activityRefId : string) (now : Z) (st : TweetStore)
    : TweetStore * Friends.Result string :=
  let tweetData :=
    {| authorId := new_authorId tweet;
       authorName := new_authorName tweet;
       content := new_content tweet;
       createdAt := now;
       likes := 0;
       likedBy := Some [];
       media := new_media tweet;
       isPublic := new_isPublic tweet |} in
  let activityData :=
    {| userId := new_authorId tweet;
       tweetId := tweetRefId;
       timestamp := now |} in
  match fault with
  | Some m => (st, Friends.Threw m)
  | None =>
      ({| tweets := <[tweetRefId := tweetData]> (tweets st);
          tweetActivity :=
            <[activityRefId := activityData]> (tweetActivity st) |},
       Friends.Returned tweetRefId)
  end.

(** [toggleLikeTweet], computed from [tweetSnap], what [getDoc] returned
    before: [updateDoc] merges the two fields [likedBy] and [likes] into
    the document as it is stored at the time of the write, and fails when
    there is none; [fault] is any other error of [updateDoc]. *)
Definition toggleLikeTweetFrom (fault : option string)
    (tweetSnap : option Tweet) (id user : string) (st : TweetStore)
    : TweetStore * Friends.Result unit :=
  match tweetSnap with
  | None => (st, Friends.Threw "Tweet not found")
  | Some tweetData =>
      let liked := default [] (likedBy tweetData) in
      let fields :=
        if bool_decide (user ∈ liked)
        then (filter (λ i, i ≠ user) liked, (likes tweetData - 1)%Z)
        else ((liked ++ [user])%list, (likes tweetData + 1)%Z) in
      match fault, tweets st !! id with
      | Some m, _ => (st, Friends.Threw m)
      | None, None => (st, Friends.Threw "No document to update")
      | None, Some stored =>
          ({| tweets :=
                <[id := {| authorId := authorId stored;
                           authorName := authorName stored;
                           content := content stored;
                           createdAt := createdAt stored;
                           likes := fields.2;
                           likedBy := Some fields.1;
                           media := media stored;
                           isPublic := isPublic stored |}]> (tweets st);
              tweetActivity := tweetActivity st |},
           Friends.Returned ())
      end
  end.

(** [toggleLikeTweet] when nothing is written to the tweet between its
    [getDoc] and its [updateDoc]. *)
Definition toggleLikeTweet (fault : option string) (id user : string)
    (st : TweetStore) : TweetStore * Friends.Result unit :=
  toggleLikeTweetFrom fault (tweets st !! id) id user st.

(** [deleteTweet] with the batch that also deletes the activity entries of
    the tweet; [fault] is the error of [batch.commit()], if any. *)
Definition deleteTweet (fault : option string) (id user : string)
    (st : TweetStore) : TweetStore * Friends.Result unit :=
  match tweets st !! id with
  | None => (st, Friends.Threw "Tweet not found")
  | Some tweetData =>
      if bool_decide (authorId tweetData ≠ user) then
        (st, Friends.Threw "Not authorized to delete this tweet")
      else
        match fault with
        | Some m => (st, Friends.Threw m)
        | None =>
            ({| tweets := delete id (tweets st);
                tweetActivity :=
                  filter (λ e, tweetId e.2 ≠ id) (tweetActivity st) |},
             Friends.Returned ())
        end
  end.

(** Calls of the service, one after another. *)
Inductive Call :=
  | Create (fault : option string) (tweet : NewTweet)
           (tweetRefId activityRefId : string) (now : Z)
  | ToggleLike (fault : option string) (id user : string)
  | Delete (fault : option string) (id user : string).

Definition call (st : TweetStore) (c : Call) : TweetStore :=
  match c with
  | Create fault tweet tweetRefId activityRefId now =>
      (createTweet fault tweet tweetRefId activityRefId now st).1
  | ToggleLike fault id user => (toggleLikeTweet fault id user st).1
  | Delete fault id user => (deleteTweet fault id user st).1
  end.

Definition calls (st : TweetStore) (cs : list Call) : TweetStore :=
  foldl call st cs.

(** The counter of a tweet is the number of entries of its [likedBy],
    none of which is there twice. *)
Definition likesCounted (t : Tweet) : Prop :=
  NoDup (default [] (likedBy t))
  ∧ likes t = Z.of_nat (length (default [] (likedBy t))).

Definition allLikesCounted (st : TweetStore) : Prop :=
  ∀ id t, tweets st !! id = Some t → likesCounted t.

(** [user] is in [likedBy] of the tweet [id]. *)
Definition likedByUser (st : TweetStore) (id user : string) : Prop :=
  ∃ t, tweets st !! id = Some t ∧ user ∈ default [] (likedBy t).

(** *** Concrete inputs used in examples *)

Definition emptyStore : TweetStore := {| tweets := ∅; tweetActivity := ∅ |}.

Definition hello : NewTweet :=
  {| new_authorId := "alice"; new_authorName := "Alice";
     new_content := "hello"; new_media := None; new_isPublic := true |}.

(** The tweet of ["alice"] with no like, and the store after ["carol"]
    has liked it. *)
Definition helloStored : TweetStore :=
  (createTweet None hello "tweet1" "activity1" 1000 emptyStore).1.

Definition carolLikes : TweetStore :=
  (toggleLikeTweet None "tweet1" "carol" helloStored).1.

(** A stored tweet whose [likedBy] holds an id twice. *)
Definition likedTwice : TweetStore :=
  {| tweets :=
       {[ "tweet1" := {| authorId := "alice"; authorName := "Alice";
                         content := "hello"; createdAt := 1000; likes := 2;
                         likedBy := Some ["bob"; "bob"]; media := None;
                         isPublic := true |} ]};
     tweetActivity := ∅ |}.

End TweetService.

(** ** pages/Tweets.tsx: the timeline on screen *)

Module TweetsPage.
Import TweetService.

(** A tweet object of the [tweets] state: its [id], the data of the
    document, and what its [createdAt] is.  In an object made from a
    Firestore document it is a [Timestamp], with [toMillis]; in an object
    that was read back from the JSON of the timeline cache it is the plain
    object [JSON.parse] returns for it, without [toMillis]. *)
Record LocalTweet := mkLocalTweet {
  tweet_id : string;
  tweet_data : Tweet;
  createdAtIsTimestamp : bool
}.

#[global] Instance LocalTweet_inhabited : Inhabited LocalTweet :=
  populate {| tweet_id := "";
              tweet_data :=
                {| authorId := ""; authorName := ""; content := "";
                   createdAt := 0; likes := 0; likedBy := None;
                   media := None; isPublic := false |};
              createdAtIsTimestamp := false |}.

(** The function mapped over the state by [handleToggleLike].  For a tweet
    without [likedBy], [tweet.likedBy.includes] throws: [None]. *)
Definition localToggle (tweetId user : string) (tweet : LocalTweet)
    : option LocalTweet :=
  if String.eqb (tweet_id tweet) tweetId then
    match likedBy (tweet_data tweet) with
    | None => None
    | Some liked =>
        let isLiked := bool_decide (user ∈ liked) in
        Some {| tweet_id := tweet_id tweet;
                tweet_data :=
                  {| authorId := authorId (tweet_data tweet);
                     authorName := authorName (tweet_data tweet);
                     content := content (tweet_data tweet);
                     createdAt := createdAt (tweet_data tweet);
                     likes := if isLiked then likes (tweet_data tweet) - 1
                              else likes (tweet_data tweet) + 1;
                     likedBy := Some (if isLiked
                                      then filter (λ i, i ≠ user) liked
                                      else (liked ++ [user])%list);
                     media := media (tweet_data tweet);
                     isPublic := isPublic (tweet_data tweet) |};
                createdAtIsTimestamp := createdAtIsTimestamp tweet |}
    end
  else Some tweet.

(** [handleToggleLike] for a signed-in user: the store and the [tweets]
    state afterwards, [None] when the state update throws. *)
Definition handleToggleLike (fault : option string) (tweetId user : string)
    (st : TweetStore) (local : list LocalTweet)
    : TweetStore * option (list LocalTweet) :=
  match toggleLikeTweet fault tweetId user st with
  | (st', Friends.Returned _) => (st', mapM (localToggle tweetId user) local)
  | (st', Friends.Threw _) => (st', Some local)
  end.

(** [handleDeleteTweet]: the store, the [tweets] state and the error
    banner afterwards. *)
Definition handleDeleteTweet (fault : option string) (tweetId user : string)
    (st : TweetStore) (local : list LocalTweet)
    : TweetStore * list LocalTweet * option string :=
  match deleteTweet fault tweetId user st with
  | (st', Friends.Returned _) =>
      (st', filter (λ tweet, tweet_id tweet ≠ tweetId) local, None)
  | (st', Friends.Threw m) =>
      (st', local,
       Some (if String.eqb m "" then "Failed to delete tweet" else m))
  end.

(** Every tweet of the list is a stored tweet with the stored data. *)
Definition inStep (st : TweetStore) (local : list LocalTweet) : Prop :=
  ∀ tweet, tweet ∈ local →
    tweets st !! tweet_id tweet = Some (tweet_data tweet).

(** *** Concrete inputs used in examples *)

Definition oneTweet : TweetStore :=
  (createTweet None hello "tweet1" "activity1" 1000 emptyStore).1.

Definition onScreen : list LocalTweet :=
  [{| tweet_id := "tweet1";
      tweet_data :=
        {| authorId := "alice"; authorName := "Alice"; content := "hello";
           createdAt := 1000; likes := 0; likedBy := Some [];
           media := None; isPublic := true |};
      createdAtIsTimestamp := true |}].

Definition onScreenLiked : list LocalTweet :=
  [{| tweet_id := "tweet1";
      tweet_data :=
        {| authorId := "alice"; authorName := "Alice"; content := "hello";
           createdAt := 1000; likes := 1; likedBy := Some ["bob"];
           media := None; isPublic := true |};
      createdAtIsTimestamp := true |}].

End TweetsPage.

(** ** services/tweetService.ts: the recent activity of friends *)

Module TweetActivityLog.
Import TweetService.

(** A document of [tweetActivity]: its id and its data. *)
Definition ActivityDoc : Type := string * TweetActivity.

Definition timeOf (a : ActivityDoc) : Z := timestamp a.2.

(** The comparator of the sort: [timeB - timeA]. *)
Definition newestFirst (a b : ActivityDoc) : Z := (timeOf b - timeOf a)%Z.

(** [if (lastTimestamp)]: a missing timestamp and [0] ask for everything. *)
Definition since (lastTimestamp : option Z) : option Z :=
  match lastTimestamp with
  | Some t => if (t =? 0)%Z then None else Some t
  | None => None
  end.

(** [where('userId', 'in', batchFriendIds)] and, with a timestamp,
    [where('timestamp', '>', ...)]. *)
Definition matches (batchFriendIds : list string) (after : option Z)
    (d : ActivityDoc) : Prop :=
  userId d.2 ∈ batchFriendIds
  ∧ match after with
    | Some t => (t < timeOf d)%Z
    | None => True
    end.

#[global] Instance matches_dec b after d : Decision (matches b after d).
Proof. unfold matches. destruct after; apply _. Defined.

(** One query: the matching documents by [orderBy('timestamp', 'desc')],
    cut by [limit(50)].  Documents with the same timestamp come in the
    order of the sort below. *)
Definition activityQuery (st : TweetStore) (batchFriendIds : list string)
    (lastTimestamp : option Z) : list ActivityDoc :=
  take 50
    (FriendService.sortBy newestFirst
       (filter (matches batchFriendIds (since lastTimestamp))
          (map_to_list (tweetActivity st)))).

(** [friendIds.slice(i, i + 10)] for [i = 0, 10, 20, ...] below the
    length. *)
Fixpoint slices (fuel : nat) (friendIds : list string)
    : list (list string) :=
  match fuel, friendIds with
  | S fuel', _ :: _ => take 10 friendIds :: slices fuel' (drop 10 friendIds)
  | _, _ => []
  end.

Definition batches (friendIds : list string) : list (list string) :=
  slices (length friendIds) friendIds.

(** [getRecentTweetActivity], every query answering. *)
Definition getRecentTweetActivity (st : TweetStore)
    (friendIds : list string) (lastTimestamp : option Z)
    : list ActivityDoc :=
  match friendIds with
  | [] => []
  | _ =>
      let allActivityDocs :=
        mjoin ((λ batchFriendIds,
                  activityQuery st batchFriendIds lastTimestamp)
               <$> batches friendIds) in
      take 50 (FriendService.sortBy newestFirst allActivityDocs)
  end.

(** Orders by a key, as the comparator [keyB - keyA] does. *)
Definition byKey {A} (key : A → Z) (a b : A) : Z := (key b - key a)%Z.

Definition weakly {A} (key : A → Z) (a b : A) : Prop := (key b ≤ key a)%Z.

Definition strictly {A} (key : A → Z) (a b : A) : Prop :=
  (key b < key a)%Z.

(** How many elements of [l] have a larger key than [x]. *)
Definition rank {A} (key : A → Z) (l : list A) (x : A) : nat :=
  length (filter (λ y, (key x < key y)%Z) l).

(** *** Concrete inputs used in examples *)

(** Twelve friends, each with one entry at a time of its own. *)
Definition twelveFriends : list string :=
  ["f01"; "f02"; "f03"; "f04"; "f05"; "f06"; "f07"; "f08"; "f09"; "f10";
   "f11"; "f12"].

Definition twelveEntries : TweetStore :=
  {| tweets := ∅;
     tweetActivity :=
       list_to_map
         (imap (λ i f, ("activity_" ++ f,
                        {| userId := f; tweetId := "tweet_" ++ f;
                           timestamp := 1000 + Z.of_nat i |}))
            twelveFriends) |}.

End TweetActivityLog.

(** ** services/tweetService.ts: loading the timeline *)

Module Timeline.
Import TweetService TweetsPage TweetActivityLog.

(** The time the comparators of the service read from a tweet:
    [createdAt.toMillis()] when [createdAt] has [toMillis], and 0 when it
    has not.  ([createTweet] stores a [Timestamp], so [createdAt] is never
    a number.) *)
Definition millisOf (t : LocalTweet) : Z :=
  if createdAtIsTimestamp t then createdAt (tweet_data t) else 0.

(** [{ id: doc.id, ...doc.data() }] *)
Definition fromDoc (d : string * Tweet) : LocalTweet :=
  {| tweet_id := d.1; tweet_data := d.2; createdAtIsTimestamp := true |}.

(** A tweet object after [JSON.stringify] and [JSON.parse]. *)
Definition throughJson (t : LocalTweet) : LocalTweet :=
  {| tweet_id := tweet_id t; tweet_data := tweet_data t;
     createdAtIsTimestamp := false |}.

(** The item of local storage as [JSON.parse] returns it. *)
Definition parseCache (cache : TweetCache.TimelineCache LocalTweet)
    : TweetCache.TimelineCache LocalTweet :=
  {| TweetCache.tweets := throughJson <$> TweetCache.tweets cache;
     TweetCache.lastUpdated := TweetCache.lastUpdated cache;
     TweetCache.friendsHash := TweetCache.friendsHash cache;
     TweetCache.lastLoadedActivity := TweetCache.lastLoadedActivity cache |}.

(** Documents come by ascending id from a query without [orderBy]. *)
Definition byId (a b : string * Tweet) : Prop := String.le a.1 b.1.

#[global] Instance byId_dec a b : Decision (byId a b).
Proof. unfold byId. apply _. Defined.

(** [where('__name__', 'in', batchIds)] on [tweets]. *)
Definition tweetsQuery (st : TweetStore) (batchIds : list string)
    : list LocalTweet :=
  fromDoc
    <$> filter (λ d, d.1 ∈ batchIds)
          (merge_sort byId (map_to_list (tweets st))).

(** [getTweetsByIds], every query answering. *)
Definition getTweetsByIds (st : TweetStore) (tweetIds : list string)
    : list LocalTweet :=
  match tweetIds with
  | [] => []
  | _ =>
      FriendService.sortBy (byKey millisOf)
        (mjoin (tweetsQuery st <$> batches tweetIds))
  end.

(** [self.findIndex(t => t.id === tweet.id)] *)
Definition findIndex (id : string) (self : list LocalTweet) : option nat :=
  fst <$> list_find (λ t : LocalTweet, tweet_id t = id) self.

(** [allTweets.filter((tweet, index, self) =>
    index === self.findIndex(t => t.id === tweet.id))], the callback being
    run on the elements from [index] on. *)
Fixpoint keepFirst (self : list LocalTweet) (index : nat)
    (rest : list LocalTweet) : list LocalTweet :=
  match rest with
  | [] => []
  | tweet :: rest' =>
      if bool_decide (findIndex (tweet_id tweet) self = Some index)
      then tweet :: keepFirst self (S index) rest'
      else keepFirst self (S index) rest'
  end.

Definition uniqueById (allTweets : list LocalTweet) : list LocalTweet :=
  keepFirst allTweets 0 allTweets.

(** The tweets of a list, each id once, as its first occurrence has it. *)
Fixpoint firstById (l : list LocalTweet) : list LocalTweet :=
  match l with
  | [] => []
  | t :: l' =>
      t :: filter (λ t' : LocalTweet, tweet_id t' ≠ tweet_id t) (firstById l')
  end.

(** [generateFriendsHash] sorts the array it is given in place: after a
    call that found an item in local storage the caller's [friends] is
    sorted. *)
Definition friendsAfterLookup {T} (cacheJson : option T)
    (friends : list string) : list string :=
  match cacheJson with
  | Some _ => merge_sort String.le friends
  | None => friends
  end.

(** What a call returns and what is written to local storage, as the
    value handed to [JSON.stringify]. *)
Record Loaded := mkLoaded {
  shown : list LocalTweet;
  cacheAfter : option (TweetCache.TimelineCache LocalTweet)
}.

Definition TWEETS_PER_PAGE : nat := 5.

(** [getTimelineTweets] without [lastDoc], every query answering. *)
Definition getTimelineTweets (st : TweetStore)
    (cacheJson : option (TweetCache.TimelineCache LocalTweet))
    (currentUserId : string) (friends : list string) (now : Z) : Loaded :=
  let friends' := friendsAfterLookup cacheJson friends in
  match TweetCache.getCachedTimeline (parseCache <$> cacheJson) friends now
          TweetCache.defaultMaxAge with
  | Some cachedTimeline =>
      let lastLoadedActivity :=
        TweetCache.lastLoadedActivity cachedTimeline in
      let latestActivity :=
        getRecentTweetActivity st (friends' ++ [currentUserId])%list
          (Some lastLoadedActivity) in
      match latestActivity with
      | [] =>
          {| shown := TweetCache.tweets cachedTimeline;
             cacheAfter := cacheJson |}
      | newest :: _ =>
          let newTweetIds := (λ activity : ActivityDoc, tweetId activity.2)
                             <$> latestActivity in
          let newTweets := getTweetsByIds st newTweetIds in
          let allTweets :=
            (newTweets ++ TweetCache.tweets cachedTimeline)%list in
          let uniqueTweets :=
            FriendService.sortBy (byKey millisOf) (uniqueById allTweets) in
          {| shown := take TWEETS_PER_PAGE uniqueTweets;
             cacheAfter :=
               Some (TweetCache.cacheTimeline uniqueTweets friends'
                       (Some (timeOf newest)) now) |}
      end
  | None =>
      let recentActivity :=
        getRecentTweetActivity st (friends' ++ [currentUserId])%list None in
      match recentActivity with
      | [] => {| shown := []; cacheAfter := cacheJson |}
      | newest :: _ =>
          let tweetIds := (λ activity : ActivityDoc, tweetId activity.2)
                          <$> recentActivity in
          let tweets := getTweetsByIds st tweetIds in
          {| shown := take TWEETS_PER_PAGE tweets;
             cacheAfter :=
               Some (TweetCache.cacheTimeline tweets friends'
                       (Some (timeOf newest)) now) |}
      end
  end.

(** pages/Tweets.tsx, [loadTweets()] without [forceRefresh] for a
    signed-in user: the list handed to [setTweets] and what is written to
    local storage.  A served cache with tweets goes on screen as it is;
    otherwise [getTimelineTweets] is asked. *)
Definition loadTweets (st : TweetStore)
    (cacheJson : option (TweetCache.TimelineCache LocalTweet))
    (currentUserId : string) (friends : list string) (now : Z) : Loaded :=
  let viaService :=
    getTimelineTweets st cacheJson currentUserId
      (friendsAfterLookup cacheJson friends) now in
  match TweetCache.getCachedTimeline (parseCache <$> cacheJson) friends now
          TweetCache.defaultMaxAge with
  | Some cachedData =>
      if bool_decide (0 < length (TweetCache.tweets cachedData))%nat
      then {| shown := TweetCache.tweets cachedData;
              cacheAfter := cacheJson |}
      else viaService
  | None => viaService
  end.

(** [loadTweets] is made anew when [tweets.length] changes, and the effect
    of the initial load, which depends on it, then calls it again. *)
Definition loadRunsAgain (before after : list LocalTweet) : bool :=
  negb (length after =? length before)%nat.

(** *** Concrete inputs used in examples *)

Definition tweetOf (author text : string) (at_ likes_ : Z)
    (likers : list string) : Tweet :=
  {| authorId := author; authorName := author; content := text;
     createdAt := at_; likes := likes_; likedBy := Some likers;
     media := None; isPublic := false |}.

(** ["alice"] follows ["bob"]; her tweet got a like and ["bob"] tweeted
    since her timeline was cached. *)
Definition twoTweets : TweetStore :=
  {| tweets :=
       {[ "t1" := tweetOf "alice" "first" 1000 1 ["bob"];
          "t2" := tweetOf "bob" "second" 2000 0 [] ]};
     tweetActivity :=
       {[ "a1" := {| userId := "alice"; tweetId := "t1";
                     timestamp := 1000 |};
          "a2" := {| userId := "bob"; tweetId := "t2";
                     timestamp := 2000 |} ]} |}.

Definition cachedEarlier : TweetCache.TimelineCache LocalTweet :=
  TweetCache.cacheTimeline
    [fromDoc ("t1", tweetOf "alice" "first" 1000 0 [])]
    ["bob"] (Some 1000%Z) 1500.

(** The cache holds a tweet that is newer than the one the log names
    after the cursor. *)
Definition olderIsNew : TweetStore :=
  {| tweets :=
       {[ "t0" := tweetOf "bob" "older" 1000 0 [];
          "t2" := tweetOf "alice" "newer" 2000 0 [] ]};
     tweetActivity :=
       {[ "a0" := {| userId := "bob"; tweetId := "t0";
                     timestamp := 2500 |} ]} |}.

Definition cachedNewer : TweetCache.TimelineCache LocalTweet :=
  TweetCache.cacheTimeline
    [fromDoc ("t2", tweetOf "alice" "newer" 2000 0 [])]
    ["bob"] (Some 2000%Z) 2600.

(** ["alice"] deletes her tweet while the cache of the sample is
    served. *)
Definition aliceOnScreen : list LocalTweet :=
  [throughJson (fromDoc ("t1", tweetOf "alice" "first" 1000 0 []))].

End Timeline.

(** * Statements *)

(** ** The word game *)

Section WordleFacts.
Import Wordle.

Lemma handleSubmitGuess_sent g uid guess :
  accepted g uid guess = true ↔
  currentPlayer g = uid ∧ String.length guess = 5.
Proof.
  unfold accepted, handleSubmitGuess.
  destruct (String.eqb_spec (currentPlayer g) uid) as [Hcp|Hcp]; simpl.
  - destruct (Nat.eqb_spec (String.length guess) 5) as [Hl|Hl]; simpl;
      intuition congruence.
  - intuition congruence.
Qed.

Lemma submitGuess_refused g uid guess :
  accepted g uid guess = false → submitGuess g uid guess = g.
Proof.
  unfold accepted, submitGuess, submitFrom.
  destruct (handleSubmitGuess (Some g) (Some uid) guess); congruence.
Qed.

Lemma submitGuess_currentPlayer g uid guess :
  accepted g uid guess = true →
  currentPlayer (submitGuess g uid guess) =
    if String.eqb uid (player1 g) then player2 g else player1 g.
Proof.
  intros Hacc. pose proof Hacc as Hacc'.
  apply handleSubmitGuess_sent in Hacc' as [Hcp Hlen].
  unfold submitGuess, submitFrom, handleSubmitGuess.
  rewrite Hcp, String.eqb_refl, Hlen. simpl. reflexivity.
Qed.

Lemma submitGuess_status g uid guess :
  accepted g uid guess = true →
  status (submitGuess g uid guess) =
    if String.eqb guess (word g) then completed else status g.
Proof.
  intros Hacc. pose proof Hacc as Hacc'.
  apply handleSubmitGuess_sent in Hacc' as [Hcp Hlen].
  unfold submitGuess, submitFrom, handleSubmitGuess.
  rewrite Hcp, String.eqb_refl, Hlen. simpl.
  destruct (String.eqb guess (word g)); reflexivity.
Qed.

Lemma submitGuess_winner g uid guess :
  accepted g uid guess = true →
  winner (submitGuess g uid guess) =
    if String.eqb guess (word g) then Some uid else winner g.
Proof.
  intros Hacc. pose proof Hacc as Hacc'.
  apply handleSubmitGuess_sent in Hacc' as [Hcp Hlen].
  unfold submitGuess, submitFrom, handleSubmitGuess.
  rewrite Hcp, String.eqb_refl, Hlen. simpl.
  destruct (String.eqb guess (word g)); reflexivity.
Qed.

(** The status of a document never leaves ['completed']. *)
Lemma submitGuess_completed_stays g uid guess :
  status g = completed → status (submitGuess g uid guess) = completed.
Proof.
  intros Hc. destruct (accepted g uid guess) eqn:Hacc.
  - rewrite submitGuess_status by done.
    destruct (String.eqb guess (word g)); done.
  - by rewrite submitGuess_refused.
Qed.

Lemma play_completed g moves :
  status g = completed → completions (play g moves) = 0.
Proof.
  revert g. induction moves as [|[uid guess] moves IH]; intros g Hc; [done|].
  simpl. pose proof (submitGuess_completed_stays g uid guess Hc) as Hc'.
  destruct moves as [|[uid' guess'] moves'].
  - simpl. rewrite bool_decide_eq_false_2; [done|]. intros [? _]. congruence.
  - specialize (IH _ Hc'). simpl in *.
    rewrite bool_decide_eq_false_2; [exact IH|]. intros [? _]. congruence.
Qed.

Lemma play_head g moves : ∃ rest, play g moves = g :: rest.
Proof. destruct moves as [|[??] ?]; simpl; eauto. Qed.

Lemma completions_cons g g' rest :
  completions (g :: g' :: rest) =
    (if bool_decide (status g = active ∧ status g' = completed) then 1 else 0)
    + completions (g' :: rest).
Proof. reflexivity. Qed.


Lemma finish_completed g moves :
  status g = completed → status (finish g moves) = completed.
Proof.
  revert g. induction moves as [|[uid guess] moves IH]; intros g Hc; [done|].
  simpl. apply IH. by apply submitGuess_completed_stays.
Qed.

Lemma submitGuess_active_cases g uid guess :
  status g = active →
  status (submitGuess g uid guess) = active
  ∨ status (submitGuess g uid guess) = completed.
Proof.
  intros Ha. destruct (accepted g uid guess) eqn:Hacc.
  - rewrite submitGuess_status by done.
    destruct (String.eqb guess (word g)); auto.
  - rewrite submitGuess_refused by done. auto.
Qed.

Lemma completions_play g moves :
  status g = active →
  completions (play g moves) =
    if bool_decide (status (finish g moves) = completed) then 1 else 0.
Proof.
  revert g. induction moves as [|[uid guess] moves IH]; intros g Ha.
  - simpl. rewrite bool_decide_eq_false_2; [done|]. congruence.
  - change (play g ((uid, guess) :: moves))
      with (g :: play (submitGuess g uid guess) moves).
    change (finish g ((uid, guess) :: moves))
      with (finish (submitGuess g uid guess) moves).
    destruct (play_head (submitGuess g uid guess) moves) as [rest Hrest].
    rewrite Hrest, completions_cons, <- Hrest.
    destruct (submitGuess_active_cases g uid guess Ha) as [Ha'|Hc'].
    + rewrite (bool_decide_eq_false_2 (_ ∧ _)) by (intros [_ ?]; congruence).
      simpl. by apply IH.
    + rewrite (bool_decide_eq_true_2 (_ ∧ _)) by done.
      rewrite play_completed by done.
      rewrite bool_decide_eq_true_2; [done|]. by apply finish_completed.
Qed.

(** C2.  From an ['active'] game a submission makes the status
    ['completed'] exactly when it is accepted and the guess is the secret
    word, and the winner is then the submitting player; in every run of
    submissions the step from ['active'] to ['completed'] occurs at most
    once, and once exactly when the run ends completed.  Nothing else in
    the handler touches [status]. *)
Theorem guess_completes_game_iff_correct (g : GameState)
    (uid guess : string) (moves : list (string * string)) :
  status g = active →
  (status (submitGuess g uid guess) = completed
     ↔ accepted g uid guess = true ∧ guess = word g)
  ∧ (accepted g uid guess = true → guess = word g →
       winner (submitGuess g uid guess) = Some uid)
  ∧ (completions (play g moves) ≤ 1)%nat
  ∧ (completions (play g moves) = 1 ↔ status (finish g moves) = completed).
Proof.
  intros Ha. split; [|split; [|split]].
  - destruct (accepted g uid guess) eqn:Hacc.
    + rewrite submitGuess_status by done.
      destruct (String.eqb_spec guess (word g)) as [He|He].
      * tauto.
      * rewrite Ha. split; [discriminate|]. intros [_ ?]. contradiction.
    + rewrite submitGuess_refused by done. rewrite Ha.
      split; [discriminate|]. intros [? _]. discriminate.
  - intros Hacc He. rewrite submitGuess_winner by done.
    by rewrite He, String.eqb_refl.
  - rewrite completions_play by done. case_bool_decide; lia.
  - rewrite completions_play by done. case_bool_decide; split; try done.
Qed.

Lemma guess_completes_game_iff_correct_witness :
  status (submitGuess sampleGame "alice" "FLUSH") = completed
  ∧ winner (submitGuess sampleGame "alice" "FLUSH") = Some "alice"
  ∧ completions (play sampleGame [("alice", "WIPES"); ("bob", "FLUSH")]) = 1.
Proof.
  destruct (guess_completes_game_iff_correct sampleGame "alice" "FLUSH"
              [("alice", "WIPES"); ("bob", "FLUSH")] eq_refl)
    as (Hiff & Hwin & _ & Hrun).
  split; [|split].
  - apply Hiff. split; reflexivity.
  - apply Hwin; reflexivity.
  - apply Hrun. reflexivity.
Defined.

(** [handleSubmitGuess] itself does not look at [status]: on a completed
    snapshot in which it is the caller's turn it appends the guess and hands
    the turn over.  The view renders no Enter button for such a snapshot. *)
Example handleSubmitGuess_does_not_check_status :
  status wonGame = completed
  ∧ accepted wonGame "bob" "WIPES" = true
  ∧ currentPlayer (submitGuess wonGame "bob" "WIPES") = "alice"
  ∧ player2Guesses (submitGuess wonGame "bob" "WIPES") = ["WIPES"]
  ∧ keyboardRendered false true (Some wonGame) (Some "bob") = false.
Proof. vm_compute. done. Qed.

Example late_correct_guess_replaces_winner :
  winner (submitGuess wonGame "bob" "FLUSH") = Some "bob".
Proof. vm_compute. done. Qed.

Lemma get_list_ascii_of_string (w : string) (i : nat) :
  list_ascii_of_string w !! i = String.get i w.
Proof.
  revert i. induction w as [|a w IH]; intros [|i]; simpl; auto.
Qed.

Lemma renderGuessResult_lookup (w guess : string) (i : nat) :
  renderGuessResult w guess !! i = letterClass w i <$> String.get i guess.
Proof.
  unfold renderGuessResult.
  by rewrite list_lookup_imap, get_list_ascii_of_string.
Qed.

(** C3, as the code has it.  Each letter of the guess is classed on its
    own: exact when the secret has that letter at the same index, present
    when it has it anywhere else, absent when it does not have it; letters
    are not used up by other positions.  Hence FLUSH / SLUSH gives
    present, exact, exact, exact, exact and ROUND / RURAL gives exact,
    present, present, absent, absent. *)
Theorem renderGuessResult_classes_letters_independently (w guess : string)
    (i : nat) (letter : ascii) :
  (String.get i guess = Some letter →
     ∃ c, renderGuessResult w guess !! i = Some c
       ∧ (c = exact ↔ String.get i w = Some letter)
       ∧ (c = present ↔
            String.get i w ≠ Some letter ∧ letter ∈ list_ascii_of_string w)
       ∧ (c = absent ↔ letter ∉ list_ascii_of_string w))
  ∧ renderGuessResult "FLUSH" "SLUSH" = [present; exact; exact; exact; exact]
  ∧ renderGuessResult "ROUND" "RURAL"
      = [exact; present; present; absent; absent].
Proof.
  split; [|by vm_compute].
  intros Hget. exists (letterClass w i letter).
  split; [by rewrite renderGuessResult_lookup, Hget|].
  unfold letterClass, includes.
  assert (String.get i w = Some letter → letter ∈ list_ascii_of_string w)
    as Hin.
  { rewrite <- get_list_ascii_of_string. apply list_elem_of_lookup_2. }
  repeat case_bool_decide; intuition (try discriminate; try contradiction).
Qed.

Lemma renderGuessResult_classes_letters_independently_witness :
  ∃ c, renderGuessResult "ROUND" "RURAL" !! 2 = Some c
    ∧ (c = exact ↔ String.get 2 "ROUND" = Some "R"%char)
    ∧ (c = present ↔
         String.get 2 "ROUND" ≠ Some "R"%char
         ∧ "R"%char ∈ list_ascii_of_string "ROUND")
    ∧ (c = absent ↔ "R"%char ∉ list_ascii_of_string "ROUND").
Proof.
  apply (renderGuessResult_classes_letters_independently
           "ROUND" "RURAL" 2 "R"%char).
  reflexivity.
Defined.

(** C3, counterexample to the specified behaviour: the first letter of SLUSH
    is not classed absent for FLUSH (and the second is exact), and the
    repeated R of RURAL is classed present for ROUND although the exact
    match at the first position is the only R of the secret. *)
Lemma feedback_is_not_duplicate_aware :
  renderGuessResult "FLUSH" "SLUSH" ≠ [absent; absent; exact; exact; exact]
  ∧ renderGuessResult "ROUND" "RURAL" !! 2 = Some present.
Proof. split; [by vm_compute|by vm_compute]. Qed.

(** A client that finds the document does not write. *)
Lemma initializeGame_existing_document gameId c g (games : gmap string GameState) :
  games !! gameId = Some g →
  ∃ pc, initializeGame gameId c BeforeGet games = (pc, games)
      ∧ initializeGame gameId c pc games = (Finished, games).
Proof.
  intros Hg. exists (AfterGet true). simpl.
  rewrite bool_decide_eq_true_2 by (rewrite Hg; eauto). done.
Qed.

(** The two store calls of [initializeGame] are not one step: were two
    runs both to read before either writes, the second [setDoc] would
    replace the document of the first.  The application does not start runs
    in that way; how it starts them is followed further below. *)
Example initializeGame_two_reads_before_a_write :
  let afterFirstWrite :=
    runSchedule "game1" clientA clientB [true; false; true] initialWorld in
  let afterSecondWrite :=
    runSchedule "game1" clientA clientB [true; false; true; false]
      initialWorld in
  word <$> wordleGames afterFirstWrite !! "game1" = Some "FLUSH"
  ∧ word <$> wordleGames afterSecondWrite !! "game1" = Some "WIPES"
  ∧ player1 <$> wordleGames afterSecondWrite !! "game1" = Some "bob"
  ∧ pcA afterSecondWrite = Finished
  ∧ pcB afterSecondWrite = Finished.
Proof. vm_compute. done. Qed.

Example initializeGame_one_after_the_other :
  word <$> wordleGames
             (runSchedule "game1" clientA clientB [true; true; false; false]
                initialWorld) !! "game1" = Some "FLUSH".
Proof. vm_compute. done. Qed.

Example play_to_completion :
  map status (play sampleGame [("alice", "WIPES"); ("bob", "FLUSH")])
    = [active; active; completed]
  ∧ winner (finish sampleGame [("alice", "WIPES"); ("bob", "FLUSH")])
    = Some "bob".
Proof. vm_compute. done. Qed.

End WordleFacts.

(** ** Creation of the game document *)

Section StartFacts.
Import Wordle GameCoordinator WordleClose GameStart.






(** A tick that comes before the document is written does not mount the
    component, so no second run starts. *)
Example early_tick_starts_no_run :
  starts (run "game1" (accepted clientB ∅) aliceEarly)
    = [(clientB, Finished)]
  ∧ word <$> games (run "game1" (accepted clientB ∅) aliceEarly) !! "game1"
    = Some "WIPES".
Proof. by vm_compute. Qed.

End StartFacts.

(** ** Presence *)

Section PresenceFacts.
Import Presence.

Lemma pruneSessions_lookup (m : gmap string bool) (k : string) :
  pruneSessions m ≫= (λ m', m' !! k) = m !! k.
Proof.
  unfold pruneSessions. case_bool_decide as He; simpl; [|done].
  by rewrite He, lookup_empty.
Qed.

(** What a whole-node write leaves at [uid]: the value without an empty
    session map. *)
Lemma nodeAt_setStatus uid value (db : gmap string Status) :
  nodeAt (setStatus uid value db) uid =
    {| isOnline := isOnline value; isShitting := isShitting value;
       lastActive := lastActive value;
       sessions := sessions value ≫= pruneSessions |}.
Proof.
  unfold nodeAt, setStatus. case_bool_decide as He.
  - by rewrite lookup_delete_eq, He.
  - by rewrite lookup_insert_eq.
Qed.

Lemma lookup_setStatus_ne uid uid' value (db : gmap string Status) :
  uid' ≠ uid → setStatus uid value db !! uid' = db !! uid'.
Proof.
  intros Hne. unfold setStatus. case_bool_decide.
  - by rewrite lookup_delete_ne.
  - by rewrite lookup_insert_ne.
Qed.

Lemma lookup_removeSessionKey_ne uid uid' sid (db : gmap string Status) :
  uid' ≠ uid → removeSessionKey uid sid db !! uid' = db !! uid'.
Proof.
  intros Hne. unfold removeSessionKey.
  destruct (db !! uid); [|done]. by apply lookup_setStatus_ne.
Qed.

Lemma nodeAt_removeSessionKey uid sid (db : gmap string Status) :
  isOnline (nodeAt (removeSessionKey uid sid db) uid)
    = isOnline (nodeAt db uid)
  ∧ isShitting (nodeAt (removeSessionKey uid sid db) uid)
    = isShitting (nodeAt db uid)
  ∧ lastActive (nodeAt (removeSessionKey uid sid db) uid)
    = lastActive (nodeAt db uid)
  ∧ ∀ k, sessionAt (removeSessionKey uid sid db) uid k
         = if decide (k = sid) then None else sessionAt db uid k.
Proof.
  unfold sessionAt, removeSessionKey.
  destruct (db !! uid) as [st|] eqn:Hst.
  - rewrite nodeAt_setStatus. unfold nodeAt. rewrite Hst. simpl.
    repeat split. intros k.
    destruct (sessions st) as [m|]; simpl.
    + rewrite pruneSessions_lookup.
      case_decide; subst; [apply lookup_delete_eq|by apply lookup_delete_ne].
    + by case_decide.
  - unfold nodeAt. rewrite Hst. simpl. repeat split.
    intros k. by case_decide.
Qed.

Lemma hasActiveSessions_sessionAt (db : gmap string Status) uid k now :
  is_Some (sessionAt db uid k) →
  ud_isOnline (onStatusValue (db !! uid) now) = true.
Proof.
  unfold sessionAt, nodeAt, onStatusValue, hasActiveSessions.
  intros [b Hb]. destruct (db !! uid) as [st|]; simpl in *; [|done].
  destruct (sessions st) as [m|]; simpl in *; [|done].
  apply bool_decide_eq_true_2.
  destruct (decide (size m = 0)) as [Hz|Hz]; [|lia].
  apply map_size_empty_inv in Hz. subst. by rewrite lookup_empty in Hb.
Qed.

(** C7.  [logout] and the remove-on-disconnect hook of a connection that
    registered it for its own session take away the key
    [status/uid/sessions/sessionId] and nothing else: the other session
    keys, the other fields of the node and the nodes of other users are as
    before, and while another session key is left the derived [isOnline]
    is [true]. *)
Theorem logout_and_disconnect_remove_only_own_session (rt : Realtime)
    (uid sessionId other : string) (now : Z) (db' : gmap string Status) :
  onDisconnectRemove rt = [(uid, sessionId)] →
  other ≠ sessionId →
  db' = statusNodes (logout (Some uid) sessionId rt)
  ∨ db' = statusNodes (disconnect rt) →
  sessionAt db' uid sessionId = None
  ∧ sessionAt db' uid other = sessionAt (statusNodes rt) uid other
  ∧ isOnline (nodeAt db' uid) = isOnline (nodeAt (statusNodes rt) uid)
  ∧ isShitting (nodeAt db' uid) = isShitting (nodeAt (statusNodes rt) uid)
  ∧ lastActive (nodeAt db' uid) = lastActive (nodeAt (statusNodes rt) uid)
  ∧ (∀ uid', uid' ≠ uid → db' !! uid' = statusNodes rt !! uid')
  ∧ (is_Some (sessionAt (statusNodes rt) uid other) →
       ud_isOnline (onStatusValue (db' !! uid) now) = true).
Proof.
  intros Hhook Hother Hdb'.
  assert (db' = removeSessionKey uid sessionId (statusNodes rt)) as ->.
  { destruct Hdb' as [->| ->]; [done|].
    unfold disconnect. by rewrite Hhook. }
  destruct (nodeAt_removeSessionKey uid sessionId (statusNodes rt))
    as (Ho & Hs & Hl & Hk).
  pose proof (Hk sessionId) as Hown. pose proof (Hk other) as Hoth.
  rewrite decide_True in Hown by done.
  rewrite decide_False in Hoth by done.
  repeat split; try done.
  - intros uid' Hne. by apply lookup_removeSessionKey_ne.
  - intros Hsome. apply (hasActiveSessions_sessionAt _ _ other).
    by rewrite Hoth.
Qed.

Lemma logout_and_disconnect_remove_only_own_session_witness :
  sessionAt (removeSessionKey "alice" "tab2" twoTabs) "alice" "tab2" = None
  ∧ sessionAt (removeSessionKey "alice" "tab2" twoTabs) "alice" "tab1"
    = Some true
  ∧ ud_isOnline
      (onStatusValue (removeSessionKey "alice" "tab2" twoTabs !! "alice") 3000)
    = true.
Proof.
  destruct (logout_and_disconnect_remove_only_own_session
              {| statusNodes := twoTabs;
                 onDisconnectRemove := [("alice", "tab2")] |}
              "alice" "tab2" "tab1" 3000
              (removeSessionKey "alice" "tab2" twoTabs)
              eq_refl ltac:(discriminate) (or_introl eq_refl))
    as (Hgone & Hkept & _ & _ & _ & _ & Honline).
  split; [exact Hgone|]. split.
  - rewrite Hkept. reflexivity.
  - apply Honline. exists true. reflexivity.
Defined.

(** The hook a client registers is the path of its own session key. *)
Lemma registered_hook_is_own_session_key uid sessionId b now rt :
  onDisconnectRemove (attach uid sessionId now rt)
    = (onDisconnectRemove rt ++ [(uid, sessionId)])%list
  ∧ onDisconnectRemove (updateUserStatus (Some uid) sessionId b now rt)
    = (onDisconnectRemove rt ++ [(uid, sessionId)])%list.
Proof. done. Qed.

Lemma withSession_nonempty sessionId s : withSession sessionId s ≠ ∅.
Proof. unfold withSession. apply insert_non_empty. Qed.

Lemma isOnline_stored_by_attach uid sessionId now rt :
  isOnline (nodeAt (statusNodes (attach uid sessionId now rt)) uid)
    = Some true.
Proof. unfold attach. simpl. by rewrite nodeAt_setStatus. Qed.

Lemma isOnline_stored_by_updateUserStatus uid sessionId b now rt :
  isOnline
    (nodeAt (statusNodes (updateUserStatus (Some uid) sessionId b now rt)) uid)
    = Some true.
Proof.
  unfold updateUserStatus. simpl. rewrite nodeAt_setStatus.
  by destruct (statusNodes rt !! uid).
Qed.

(** C6, as the code has it.  The [isOnline] the application sees is
    derived: the status listener sets it to "the snapshot has a session
    map with at least one key", and a stored [isOnline] has no influence
    on it, nor on the list of online friends.  The presence record does carry an [isOnline] field all the
    same: the write of the sign-in effect and [updateUserStatus] both
    store [isOnline: true] next to the sessions. *)
Theorem isOnline_is_derived_from_sessions_and_also_stored
    (snapshot : option Status) (stored : option bool) (now : Z)
    (uid sessionId : string) (b : bool) (rt : Realtime) :
  (ud_isOnline (onStatusValue snapshot now) = true
     ↔ 0 < size (sessionsOf snapshot))
  ∧ (∀ st, snapshot = Some st →
       ud_isOnline
         (onStatusValue
            (Some {| isOnline := stored; isShitting := isShitting st;
                     lastActive := lastActive st;
                     sessions := sessions st |}) now)
       = ud_isOnline (onStatusValue snapshot now))
  ∧ (∀ st viewer friends, snapshot = Some st →
       listedOnline viewer friends now uid
         {| isOnline := stored; isShitting := isShitting st;
            lastActive := lastActive st; sessions := sessions st |}
       = listedOnline viewer friends now uid st)
  ∧ isOnline (nodeAt (statusNodes (attach uid sessionId now rt)) uid)
    = Some true
  ∧ isOnline
      (nodeAt (statusNodes (updateUserStatus (Some uid) sessionId b now rt))
         uid)
    = Some true.
Proof.
  split; [|split; [|split; [|split]]]; [| |done| |].
  - unfold onStatusValue, hasActiveSessions, sessionsOf.
    destruct snapshot as [st|]; simpl.
    + destruct (sessions st) as [m|]; simpl.
      * by rewrite bool_decide_eq_true.
      * rewrite map_size_empty. split; [discriminate|lia].
    + rewrite map_size_empty, bool_decide_eq_true. done.
  - by intros st ->.
  - apply isOnline_stored_by_attach.
  - apply isOnline_stored_by_updateUserStatus.
Qed.

Lemma isOnline_is_derived_from_sessions_and_also_stored_witness :
  ud_isOnline
    (onStatusValue
       (Some {| isOnline := Some false; isShitting := Some false;
                lastActive := Some 2000%Z;
                sessions := Some {[ "tab1" := true; "tab2" := true ]} |})
       3000)
  = ud_isOnline (onStatusValue (twoTabs !! "alice") 3000).
Proof.
  destruct (isOnline_is_derived_from_sessions_and_also_stored
              (twoTabs !! "alice") (Some false) 3000 "alice" "tab1" false
              emptyRealtime) as (_ & Hignored & _ & _).
  apply (Hignored {| isOnline := Some true; isShitting := Some false;
                     lastActive := Some 2000%Z;
                     sessions := Some {[ "tab1" := true; "tab2" := true ]} |}).
  reflexivity.
Defined.

(** C6, counterexample to the specified behaviour: the persisted record has
    an [isOnline] field, and it stays [true] after the last session of the
    user has gone, when the derived value is [false]. *)
Lemma isOnline_is_stored_in_presence_record :
  let db := statusNodes (attach "alice" "tab1" 1000 emptyRealtime) in
  let db' := statusNodes (logout (Some "alice") "tab1"
                            (attach "alice" "tab1" 1000 emptyRealtime)) in
  isOnline <$> db !! "alice" = Some (Some true)
  ∧ isOnline <$> db' !! "alice" = Some (Some true)
  ∧ sessions <$> db' !! "alice" = Some None
  ∧ ud_isOnline (onStatusValue (db' !! "alice") 2000) = false.
Proof. vm_compute. done. Qed.

End PresenceFacts.

(** ** The invite and game coordinator *)

Section CoordinatorFacts.
Import GameCoordinator.

Lemma deleteDoc_not_elem id (invites : Invites) :
  id ∉ (deleteDoc id invites).*1.
Proof.
  unfold deleteDoc. intros Hin.
  apply list_elem_of_fmap in Hin as ([id' d] & -> & Hd).
  apply list_elem_of_filter in Hd as [Hne _]. by apply Hne.
Qed.

Lemma deleteDoc_subseteq id (invites : Invites) :
  deleteDoc id invites ⊆ invites.
Proof. intros d Hd. by apply list_elem_of_filter in Hd as [_ ?]. Qed.

Lemma scanAccepted_continue games opponentOf docs (invites invites' : Invites) :
  scanAccepted games opponentOf docs invites = Continue invites' →
  invites' ⊆ invites.
Proof.
  unfold scanAccepted. destruct docs as [|[id invite] docs]; intros Hs.
  - by inversion Hs.
  - destruct (truthy (gameId invite)); [|by inversion Hs].
    destruct (stillActive games _); [done|].
    inversion Hs. apply deleteDoc_subseteq.
Qed.

Lemma scanAsReceiver_subseteq uid games (invites : Invites) st :
  (scanAsReceiver uid games invites st).1 ⊆ invites.
Proof.
  unfold scanAsReceiver.
  destruct (scanAccepted _ _ _ _) as [gid opp|invites'] eqn:Hs; simpl.
  - done.
  - by apply scanAccepted_continue in Hs.
Qed.

Lemma not_elem_fst_subseteq id (small big : Invites) :
  small ⊆ big → id ∉ big.*1 → id ∉ small.*1.
Proof.
  intros Hsub Hnot Hin. apply Hnot.
  apply list_elem_of_fmap in Hin as (d & -> & Hd).
  apply list_elem_of_fmap. exists d. split; [done|]. by apply Hsub.
Qed.

(** What the scan of one side does with the first document of its query
    when that invite names a game whose document exists. *)
Lemma scanAccepted_first games opponentOf id invite docs (invites : Invites)
    gid g :
  gameId invite = Some gid → gid ≠ "" → games !! gid = Some g →
  scanAccepted games opponentOf ((id, invite) :: docs) invites =
    if bool_decide (Wordle.status g = Wordle.completed)
    then Continue (deleteDoc id invites)
    else Surface gid (opponentOf invite).
Proof.
  intros Hgid Hne Hg. unfold scanAccepted, truthy, stillActive.
  rewrite Hgid. simpl. rewrite Hg.
  destruct (String.eqb_spec gid ""); [done|]. simpl.
  by case_bool_decide.
Qed.

(** C8, as the code has it.  A poll tick looks at the first accepted
    invite its query returns for the caller as sender and, when that scan
    surfaces nothing, at the first one for the caller as receiver.  When
    the game of that invite is ['completed'] the invite is deleted and the
    scan goes on with the next part on the collection without it; when the
    game is not completed it becomes the current game, with the other
    party as opponent, and nothing is deleted. *)
Theorem fetchGameState_handles_first_accepted_invite (uid : string)
    (games : gmap string Wordle.GameState) (invites : Invites)
    (st : Provider) (id : string) (invite : GameInviteData) (docs : Invites)
    (gid : string) (g : Wordle.GameState) :
  gameId invite = Some gid → gid ≠ "" → games !! gid = Some g →
  (senderInvitesQuery uid invites = (id, invite) :: docs →
     (Wordle.status g = Wordle.completed →
        fetchGameState uid games invites st
          = scanAsReceiver uid games (deleteDoc id invites) st
        ∧ id ∉ (fetchGameState uid games invites st).1.*1)
     ∧ (Wordle.status g ≠ Wordle.completed →
          fetchGameState uid games invites st
            = (invites, surface gid (receiverId invite) st)))
  ∧ (senderInvitesQuery uid invites = [] →
     receiverInvitesQuery uid invites = (id, invite) :: docs →
       (Wordle.status g = Wordle.completed →
          fetchGameState uid games invites st
            = scanPending uid (deleteDoc id invites) st
          ∧ id ∉ (fetchGameState uid games invites st).1.*1)
       ∧ (Wordle.status g ≠ Wordle.completed →
            fetchGameState uid games invites st
              = (invites, surface gid (senderId invite) st))).
Proof.
  intros Hgid Hne Hg. split.
  - intros Hq. unfold fetchGameState.
    rewrite Hq, (scanAccepted_first _ _ _ _ _ _ gid g) by done.
    split; intros Hst.
    + rewrite bool_decide_eq_true_2 by done. split; [done|].
      eapply not_elem_fst_subseteq;
        [apply scanAsReceiver_subseteq|apply deleteDoc_not_elem].
    + by rewrite bool_decide_eq_false_2.
  - intros Hs Hq. unfold fetchGameState. rewrite Hs. simpl.
    unfold scanAsReceiver.
    rewrite Hq, (scanAccepted_first _ _ _ _ _ _ gid g) by done.
    split; intros Hst.
    + rewrite bool_decide_eq_true_2 by done. split; [done|].
      apply deleteDoc_not_elem.
    + by rewrite bool_decide_eq_false_2.
Qed.

Lemma fetchGameState_handles_first_accepted_invite_witness :
  (fetchGameState "alice" twoGames oneStale noGame).1 = []
  ∧ (fetchGameState "carol" twoGames oneStale noGame).1 = []
  ∧ activeGameId (fetchGameState "alice" twoGames twoAccepted noGame).2
    = Some "game1".
Proof.
  pose (stale :=
    {| senderId := "alice"; senderName := "Alice"; receiverId := "carol";
       inviteStatus := accepted; createdAt := 200;
       gameId := Some "game2" |}).
  pose (running :=
    {| senderId := "alice"; senderName := "Alice"; receiverId := "bob";
       inviteStatus := accepted; createdAt := 100;
       gameId := Some "game1" |}).
  split; [|split].
  - destruct (fetchGameState_handles_first_accepted_invite
                "alice" twoGames oneStale noGame "invite2" stale []
                "game2" Wordle.wonGame eq_refl ltac:(discriminate) eq_refl)
      as [Hsender _].
    destruct (Hsender eq_refl) as [Hdone _].
    destruct (Hdone eq_refl) as [-> _]. reflexivity.
  - destruct (fetchGameState_handles_first_accepted_invite
                "carol" twoGames oneStale noGame "invite2" stale []
                "game2" Wordle.wonGame eq_refl ltac:(discriminate) eq_refl)
      as [_ Hreceiver].
    destruct (Hreceiver eq_refl eq_refl) as [Hdone _].
    destruct (Hdone eq_refl) as [-> _]. reflexivity.
  - destruct (fetchGameState_handles_first_accepted_invite
                "alice" twoGames twoAccepted noGame "invite1" running
                [("invite2", stale)]
                "game1" Wordle.sampleGame eq_refl ltac:(discriminate) eq_refl)
      as [Hsender _].
    destruct (Hsender eq_refl) as [_ Hrun].
    rewrite Hrun by discriminate. reflexivity.
Defined.

(** C8, counterexample to the specified behaviour: an accepted invite whose
    game is completed stays in the collection after a tick of its sender
    when another accepted invite of the same sender comes first in the
    query; here the first one is surfaced and the scan returns. *)
Lemma stale_invite_behind_another_survives_tick :
  (Wordle.status <$> twoGames !! "game2") = Some Wordle.completed
  ∧ "invite2" ∈ (senderInvitesQuery "alice" twoAccepted).*1
  ∧ "invite2" ∈ (fetchGameState "alice" twoGames twoAccepted noGame).1.*1.
Proof.
  split; [by vm_compute|]. split.
  - apply (bool_decide_unpack _). by vm_compute.
  - apply (bool_decide_unpack _). by vm_compute.
Qed.

End CoordinatorFacts.

(** ** The caches keyed by the friends hash *)

Section CacheFacts.

(** Sorting forgets the order the ids came in. *)
Lemma sorted_ids_permutation (l1 l2 : list string) :
  l1 ≡ₚ l2 → merge_sort String.le l1 = merge_sort String.le l2.
Proof.
  intros Hp. apply (StronglySorted_unique String.le).
  - apply StronglySorted_merge_sort; apply _.
  - apply StronglySorted_merge_sort; apply _.
  - by rewrite !merge_sort_Permutation.
Qed.

(** C10.  Both copies of [generateFriendsHash] give the same hash for a
    friend list and any reordering of it, so the validity checks of the
    recommendation cache and of the timeline cache give the same answer
    for both, and an entry written for one order is served for the other
    while it is fresh. *)
Theorem generateFriendsHash_ignores_order (l1 l2 : list string)
    (Tweet : Type) (timeline : option (TweetCache.TimelineCache Tweet))
    (cached : option FriendService.FriendRecommendationsCache)
    (recs : list FriendService.RecommendedFriend) (sampled : list string)
    (written now maxAge : Z) :
  l1 ≡ₚ l2 →
  (now - written ≤ maxAge)%Z →
  TweetCache.generateFriendsHash l1 = TweetCache.generateFriendsHash l2
  ∧ FriendService.generateFriendsHash l1 = FriendService.generateFriendsHash l2
  ∧ TweetCache.getCachedTimeline timeline l1 now maxAge
    = TweetCache.getCachedTimeline timeline l2 now maxAge
  ∧ FriendService.getCachedRecommendations cached l1 now maxAge
    = FriendService.getCachedRecommendations cached l2 now maxAge
  ∧ FriendService.getCachedRecommendations
      (Some (FriendService.cacheRecommendations recs l1 sampled written))
      l2 now maxAge
    = Some recs.
Proof.
  intros Hp Hfresh.
  assert (TweetCache.generateFriendsHash l1 = TweetCache.generateFriendsHash l2)
    as Ht.
  { unfold TweetCache.generateFriendsHash.
    by rewrite (sorted_ids_permutation l1 l2). }
  assert (FriendService.generateFriendsHash l1
          = FriendService.generateFriendsHash l2) as Hf.
  { unfold FriendService.generateFriendsHash.
    by rewrite (sorted_ids_permutation l1 l2). }
  repeat split; try done.
  - unfold TweetCache.getCachedTimeline. by rewrite Ht.
  - unfold FriendService.getCachedRecommendations. by rewrite Hf.
  - unfold FriendService.getCachedRecommendations,
      FriendService.cacheRecommendations. simpl.
    rewrite Hf, String.eqb_refl.
    rewrite bool_decide_eq_false_2 by lia. done.
Qed.

Lemma generateFriendsHash_ignores_order_witness :
  TweetCache.generateFriendsHash ["bob"; "alice"; "carol"]
    = TweetCache.generateFriendsHash ["carol"; "bob"; "alice"]
  ∧ FriendService.getCachedRecommendations
      (Some (FriendService.cacheRecommendations []
               ["bob"; "alice"; "carol"] ["bob"] 1000))
      ["carol"; "bob"; "alice"] 2000 FriendService.defaultMaxAge
    = Some [].
Proof.
  assert (["bob"; "alice"; "carol"] ≡ₚ ["carol"; "bob"; "alice"]) as Hp.
  { symmetry. apply (Permutation_cons_append ["bob"; "alice"] "carol"). }
  destruct (generateFriendsHash_ignores_order
              ["bob"; "alice"; "carol"] ["carol"; "bob"; "alice"]
              unit None None [] ["bob"] 1000 2000
              FriendService.defaultMaxAge Hp ltac:(vm_compute; discriminate))
    as (Hhash & _ & _ & _ & Hserved).
  split; [exact Hhash|exact Hserved].
Defined.

Example generateFriendsHash_sorts_and_joins :
  TweetCache.generateFriendsHash ["bob"; "alice"; "carol"]
    = "alice|bob|carol".
Proof. by vm_compute. Qed.

End CacheFacts.

(** ** The recommendation ranking *)

Section RankingFacts.
Import FriendService.

(** *** The stable sort *)

Lemma insertBy_Permutation {A} (compare : A → A → Z) (x : A) (l : list A) :
  insertBy compare x l ≡ₚ x :: l.
Proof.
  induction l as [|y l IH]; simpl; [done|].
  destruct (0 <? compare x y)%Z; [|done].
  rewrite IH. apply perm_swap.
Qed.

Lemma sortBy_Permutation {A} (compare : A → A → Z) (l : list A) :
  sortBy compare l ≡ₚ l.
Proof.
  induction l as [|x l IH]; simpl; [done|].
  unfold sortBy in *. by rewrite insertBy_Permutation, IH.
Qed.

Lemma insertBy_descending (x : Recommendation) (l : list Recommendation) :
  StronglySorted descending l →
  StronglySorted descending (insertBy byMutualFriendsDesc x l).
Proof.
  induction 1 as [|y l Hs IH Hy]; simpl.
  - repeat constructor.
  - destruct (Z.ltb_spec 0 (byMutualFriendsDesc x y)) as [Hlt|Hge];
      unfold byMutualFriendsDesc in *.
    + constructor; [done|]. rewrite insertBy_Permutation.
      constructor; [unfold descending; lia|done].
    + constructor; [by constructor|].
      constructor; [unfold descending; lia|].
      eapply Forall_impl; [exact Hy|]. unfold descending. intros z. lia.
Qed.

Lemma sortBy_descending (l : list Recommendation) :
  StronglySorted descending (sortBy byMutualFriendsDesc l).
Proof.
  induction l as [|x l IH]; simpl; [constructor|].
  by apply insertBy_descending.
Qed.

Lemma insertBy_stable (k : nat) (x : Recommendation)
    (l : list Recommendation) :
  filter (λ r, mutualFriends r = k) (insertBy byMutualFriendsDesc x l)
  = filter (λ r, mutualFriends r = k) (x :: l).
Proof.
  induction l as [|y l IH]; simpl; [done|].
  destruct (Z.ltb_spec 0 (byMutualFriendsDesc x y)) as [Hlt|Hge]; [|done].
  unfold byMutualFriendsDesc in Hlt.
  rewrite (filter_cons _ y), IH, !(filter_cons _ x), (filter_cons _ y).
  repeat case_decide; try done. lia.
Qed.

Lemma sortBy_stable (k : nat) (l : list Recommendation) :
  filter (λ r, mutualFriends r = k) (sortBy byMutualFriendsDesc l)
  = filter (λ r, mutualFriends r = k) l.
Proof.
  induction l as [|x l IH]; simpl; [done|].
  change (foldr (insertBy byMutualFriendsDesc) [] l)
    with (sortBy byMutualFriendsDesc l).
  by rewrite insertBy_stable, !filter_cons, IH.
Qed.

(** *** The counting loops *)

Lemma firstSeen_elem_of (l : list string) (c : string) :
  c ∈ firstSeen l ↔ c ∈ l.
Proof.
  induction l as [|x l IH]; simpl; [done|].
  rewrite !elem_of_cons, list_elem_of_filter, IH.
  destruct (decide (c = x)) as [->|Hne]; [tauto|]. tauto.
Qed.

Lemma firstSeen_NoDup (l : list string) : NoDup (firstSeen l).
Proof.
  induction l as [|x l IH]; simpl; constructor.
  - rewrite list_elem_of_filter. intros [Hne _]. by apply Hne.
  - by apply NoDup_filter.
Qed.

Lemma firstSeen_snoc (l : list string) (c : string) :
  firstSeen (l ++ [c]) =
    if decide (c ∈ l) then firstSeen l else (firstSeen l ++ [c])%list.
Proof.
  induction l as [|x l IH]; simpl; [done|].
  rewrite IH.
  destruct (decide (c ∈ x :: l)) as [Hin'|Hin'];
    destruct (decide (c ∈ l)) as [Hin|Hin].
  - done.
  - apply elem_of_cons in Hin' as [->|?]; [|done].
    rewrite filter_app, (filter_cons_False _ x) by (intros ?; done).
    by rewrite filter_nil, app_nil_r.
  - exfalso. apply Hin'. by right.
  - assert (c ≠ x) as Hne by (intros ->; apply Hin'; left).
    by rewrite filter_app, (filter_cons_True _ c) by done.
Qed.

Lemma occurrencesIn_snoc (x c : string) (l : list string) :
  occurrencesIn x (l ++ [c]) =
    occurrencesIn x l + (if decide (c = x) then 1 else 0).
Proof.
  unfold occurrencesIn. rewrite filter_app, length_app, filter_cons.
  by case_decide.
Qed.

Lemma occurrencesIn_not_elem (c : string) (l : list string) :
  c ∉ l → occurrencesIn c l = 0.
Proof.
  intros Hc. unfold occurrencesIn.
  induction l as [|x l IH]; [done|].
  rewrite filter_cons_False; [apply IH|]; set_solver.
Qed.

Lemma occurrencesIn_NoDup (c : string) (l : list string) :
  NoDup l → occurrencesIn c l = if decide (c ∈ l) then 1 else 0.
Proof.
  unfold occurrencesIn. induction 1 as [|x l Hx Hl IH]; [done|].
  rewrite filter_cons. destruct (decide (x = c)) as [->|Hne]; simpl.
  - rewrite decide_False in IH by done. rewrite IH.
    by rewrite decide_True by left.
  - rewrite IH. destruct (decide (c ∈ l)) as [Hin|Hin].
    + by rewrite decide_True by (by right).
    + rewrite decide_False; [done|].
      rewrite elem_of_cons. intros [?|?]; congruence.
Qed.

Lemma map_get_keys {V} (f : string → V) (keys : list string) (c : string) :
  map_get c (map (λ x, (x, f x)) keys) =
    if decide (c ∈ keys) then Some (f c) else None.
Proof.
  induction keys as [|k keys IH]; simpl; [done|].
  destruct (String.eqb_spec k c) as [->|Hne].
  - by rewrite decide_True by left.
  - rewrite IH. destruct (decide (c ∈ keys)) as [Hin|Hin].
    + by rewrite decide_True by (by right).
    + rewrite decide_False; [done|].
      rewrite elem_of_cons. intros [?|?]; congruence.
Qed.

Lemma map_set_new {V} (g : string → string * V) (keys : list string)
    (c : string) (v : V) :
  (∀ x, (g x).1 = x) → c ∉ keys →
  map_set c v (map g keys) = (map g keys ++ [(c, v)])%list.
Proof.
  intros Hg. induction keys as [|k keys IH]; intros Hc; simpl; [done|].
  specialize (Hg k) as Hk. destruct (g k) as [k' v'] eqn:Egk.
  simpl in Hk. subst k'.
  destruct (String.eqb_spec k c) as [->|Hne].
  - exfalso. apply Hc. left.
  - rewrite IH; [done|]. intros Hin. apply Hc. by right.
Qed.

Lemma map_set_present {V} (f : string → V) (keys : list string)
    (c : string) (v : V) :
  NoDup keys → c ∈ keys →
  map_set c v (map (λ x, (x, f x)) keys)
  = map (λ x, (x, if decide (x = c) then v else f x)) keys.
Proof.
  induction 1 as [|k keys Hk Hnd IH]; intros Hc; simpl.
  - by apply elem_of_nil in Hc.
  - destruct (String.eqb_spec k c) as [->|Hne].
    + rewrite decide_True by done. f_equal.
      apply map_ext_in. intros x Hx. apply list_elem_of_In in Hx.
      rewrite decide_False; [done|]. intros ->. done.
    + rewrite decide_False by done. f_equal. apply IH.
      apply elem_of_cons in Hc as [?|?]; [congruence|done].
Qed.

(** One more occurrence of [c] after the ids of [l]. *)
Lemma increment_tally (l : list string) (c : string) :
  increment (tally l) c = tally (l ++ [c]).
Proof.
  unfold increment, tally. rewrite map_get_keys, firstSeen_snoc.
  destruct (decide (c ∈ l)) as [Hin|Hin].
  - rewrite decide_True by (by apply firstSeen_elem_of). simpl.
    rewrite map_set_present
      by (apply firstSeen_NoDup || by apply firstSeen_elem_of).
    apply map_ext. intros x. rewrite occurrencesIn_snoc.
    destruct (decide (x = c)) as [->|Hne].
    + by rewrite decide_True.
    + rewrite decide_False by congruence. f_equal. lia.
  - rewrite decide_False by (by rewrite firstSeen_elem_of). simpl.
    rewrite (map_set_new (λ x, (x, occurrencesIn x l)))
      by (done || by rewrite firstSeen_elem_of).
    rewrite map_app. simpl. f_equal.
    + apply map_ext_in. intros x Hx.
      apply list_elem_of_In in Hx. rewrite firstSeen_elem_of in Hx.
      assert (c ≠ x) as Hne by (intros ->; contradiction).
      rewrite occurrencesIn_snoc, decide_False by done.
      f_equal. lia.
    + rewrite occurrencesIn_snoc, decide_True by done.
      by rewrite occurrencesIn_not_elem.
Qed.

Lemma foldl_increment (seen l : list string) :
  foldl increment (tally seen) l = tally (seen ++ l).
Proof.
  revert seen. induction l as [|c l IH]; intros seen; simpl.
  - by rewrite app_nil_r.
  - rewrite increment_tally, IH. by rewrite <- app_assoc.
Qed.

Lemma foldl_countCandidate (u : string) (friends : list string)
    (m : JsMap nat) (l : list string) :
  foldl (countCandidate u (list_to_set friends)) m l
  = foldl increment m (filter (eligible u friends) l).
Proof.
  revert m. induction l as [|c l IH]; intros m; simpl; [done|].
  rewrite IH, filter_cons. unfold countCandidate.
  destruct (decide (eligible u friends c)) as [[Hu Hf]|Hn].
  - destruct (String.eqb_spec c u); [done|].
    rewrite bool_decide_eq_false_2; [done|].
    by rewrite elem_of_list_to_set.
  - destruct (String.eqb_spec c u) as [->|Hne]; [done|]. simpl.
    rewrite bool_decide_eq_true_2; [done|].
    rewrite elem_of_list_to_set.
    destruct (decide (c ∈ friends)); [done|]. exfalso. by apply Hn.
Qed.

Lemma foldl_nested {A B} (f : A → B → A) (m : A)
    (entries : list (string * list B)) :
  foldl (λ acc e, foldl f acc e.2) m entries = foldl f m (mjoin entries.*2).
Proof.
  revert m. induction entries as [|e entries IH]; intros m; simpl; [done|].
  by rewrite IH, foldl_app.
Qed.

Lemma countCandidates_tally (u : string) (friends : list string)
    (friendsOfFriends : JsMap (list string)) :
  countCandidates u friends friendsOfFriends
  = tally (filter (eligible u friends) (potentialFriends friendsOfFriends)).
Proof.
  unfold countCandidates.
  rewrite (foldl_nested (countCandidate u (list_to_set friends))).
  rewrite foldl_countCandidate.
  apply (foldl_increment []).
Qed.

Lemma occurrencesIn_filter (P : string → Prop) `{∀ x, Decision (P x)}
    (c : string) (l : list string) :
  P c → occurrencesIn c (filter P l) = occurrencesIn c l.
Proof.
  intros Hc. unfold occurrencesIn. rewrite list_filter_filter.
  f_equal. apply list_filter_iff. intros x. split; [tauto|].
  intros ->. done.
Qed.

Lemma candidatesInOrder_elem_of u friends friendsOfFriends c :
  c ∈ candidatesInOrder u friends friendsOfFriends
  ↔ eligible u friends c ∧ c ∈ potentialFriends friendsOfFriends.
Proof.
  unfold candidatesInOrder.
  by rewrite firstSeen_elem_of, list_elem_of_filter.
Qed.

(** Before the sort the entries are the candidates in first-seen order,
    each with its number of occurrences. *)
Lemma countCandidates_scored u friends friendsOfFriends :
  map (λ e, {| uid := e.1; mutualFriends := e.2 |})
    (countCandidates u friends friendsOfFriends)
  = scoredCandidates u friends friendsOfFriends.
Proof.
  rewrite countCandidates_tally. unfold tally, scoredCandidates.
  rewrite map_map. apply map_ext_in. intros c Hc. simpl.
  apply list_elem_of_In, candidatesInOrder_elem_of in Hc as [He _].
  unfold occurrences. by rewrite occurrencesIn_filter.
Qed.

Lemma occurrences_distinct_friends (c : string)
    (friendsOfFriends : JsMap (list string)) :
  Forall (λ e, NoDup e.2) friendsOfFriends →
  occurrences c friendsOfFriends = sampledFriendsListing c friendsOfFriends.
Proof.
  unfold occurrences, sampledFriendsListing, potentialFriends, JsMap.
  induction 1 as [|e entries He Hes IH]; [done|].
  rewrite fmap_cons. change (mjoin (e.2 :: entries.*2))
    with (e.2 ++ mjoin entries.*2)%list.
  unfold occurrencesIn in *.
  rewrite filter_app, length_app, IH, filter_cons.
  pose proof (occurrencesIn_NoDup c e.2 He) as Hone.
  unfold occurrencesIn in Hone. rewrite Hone.
  by destruct (decide (c ∈ e.2)).
Qed.

(** C9, as the code has it.  The result is a rearrangement of the
    candidates met by the loops (neither the requester nor a friend), each
    with the number of its occurrences in the sampled friends' lists; the
    scores never go up along it; and candidates with the same score stand in
    the order in which the loops first reached them, the sort being stable
    and comparing scores only.  When no friend list repeats an id the score
    is the number of sampled friends that list the candidate.  The ids kept
    by [getFriendRecommendations] are the first [limit] of the result. *)
Theorem calculateRecommendations_ranks_by_occurrences (currentUserId : string)
    (allCurrentUserFriends : list string)
    (friendsOfFriends : JsMap (list string)) (limit : nat) :
  let result :=
    calculateRecommendations currentUserId allCurrentUserFriends
      friendsOfFriends in
  let scored :=
    scoredCandidates currentUserId allCurrentUserFriends friendsOfFriends in
  result ≡ₚ scored
  ∧ StronglySorted descending result
  ∧ (∀ k, filter (λ r, mutualFriends r = k) result
          = filter (λ r, mutualFriends r = k) scored)
  ∧ (∀ c, c ∈ map uid scored
          ↔ eligible currentUserId allCurrentUserFriends c
            ∧ c ∈ potentialFriends friendsOfFriends)
  ∧ NoDup (map uid scored)
  ∧ (Forall (λ e, NoDup e.2) friendsOfFriends →
       ∀ c, occurrences c friendsOfFriends
            = sampledFriendsListing c friendsOfFriends)
  ∧ topRecommendationIds limit result `prefix_of` map uid result
  ∧ (length (topRecommendationIds limit result) ≤ limit)%nat.
Proof.
  intros result scored. subst result scored.
  unfold calculateRecommendations. rewrite countCandidates_scored.
  assert (map uid (scoredCandidates currentUserId allCurrentUserFriends
                     friendsOfFriends)
          = candidatesInOrder currentUserId allCurrentUserFriends
              friendsOfFriends) as Hids.
  { unfold scoredCandidates. rewrite map_map. simpl. apply map_id. }
  split; [apply sortBy_Permutation|].
  split; [apply sortBy_descending|].
  split; [intros k; apply sortBy_stable|].
  split; [intros c; rewrite Hids; apply candidatesInOrder_elem_of|].
  split; [rewrite Hids; apply firstSeen_NoDup|].
  split; [intros Hnd c; by apply occurrences_distinct_friends|].
  unfold topRecommendationIds. split.
  - exists (map uid (drop limit
                       (sortBy byMutualFriendsDesc
                          (scoredCandidates currentUserId
                             allCurrentUserFriends friendsOfFriends)))).
    by rewrite <- map_app, take_drop.
  - rewrite length_map, length_take. lia.
Qed.

Lemma calculateRecommendations_ranks_by_occurrences_witness :
  occurrences "zoe" sampleGraph = sampledFriendsListing "zoe" sampleGraph
  ∧ StronglySorted descending
      (calculateRecommendations "me" sampleFriends sampleGraph).
Proof.
  destruct (calculateRecommendations_ranks_by_occurrences
              "me" sampleFriends sampleGraph defaultLimit)
    as (_ & Hsorted & _ & _ & _ & Hdistinct & _).
  split; [|exact Hsorted].
  apply Hdistinct. apply (bool_decide_unpack _). by vm_compute.
Defined.

Example ranking_of_sample_graph :
  calculateRecommendations "me" sampleFriends sampleGraph
  = [ {| uid := "zoe"; mutualFriends := 3 |};
      {| uid := "amy"; mutualFriends := 3 |};
      {| uid := "bea"; mutualFriends := 2 |};
      {| uid := "cat"; mutualFriends := 1 |};
      {| uid := "dan"; mutualFriends := 1 |};
      {| uid := "eve"; mutualFriends := 1 |};
      {| uid := "fay"; mutualFriends := 1 |};
      {| uid := "gus"; mutualFriends := 1 |} ]
  ∧ topRecommendationIds defaultLimit
      (calculateRecommendations "me" sampleFriends sampleGraph)
    = ["zoe"; "amy"; "bea"; "cat"; "dan"].
Proof. by vm_compute. Qed.

(** C9, counterexample to the specified behaviour: two candidates with the
    same score are not ordered by their id ("amy" is before "zed" as a
    string, yet "zed" is ranked first because it is met first), and the same
    sampled friends with the same counts give another ranking when the map
    lists them in another order. *)
Lemma ties_follow_first_seen_order_not_candidate_id :
  calculateRecommendations "me" [] [("f1", ["zed"; "amy"])]
    = [ {| uid := "zed"; mutualFriends := 1 |};
        {| uid := "amy"; mutualFriends := 1 |} ]
  ∧ String.ltb "amy" "zed" = true
  ∧ calculateRecommendations "me" [] [("f1", ["zed"]); ("f2", ["amy"])]
    ≠ calculateRecommendations "me" [] [("f2", ["amy"]); ("f1", ["zed"])].
Proof. split; [by vm_compute|]. split; [by vm_compute|]. by vm_compute. Qed.

End RankingFacts.

(** ** Accepting a friend request *)

Section FriendsFacts.
Import Friends.

Lemma arrayUnion_elem (x : string) (u : UserDoc) :
  x ∈ default [] (friends (arrayUnion x u)).
Proof.
  unfold arrayUnion. simpl. case_bool_decide; [done|].
  apply elem_of_app. right. left.
Qed.

Lemma arrayUnion_mono (x y : string) (u : UserDoc) :
  y ∈ default [] (friends u) → y ∈ default [] (friends (arrayUnion x u)).
Proof.
  intros Hy. unfold arrayUnion. simpl. case_bool_decide; [done|].
  apply elem_of_app. by left.
Qed.

Lemma lists_alter_keep us k y owner x :
  lists us owner x → lists (alter (arrayUnion y) k us) owner x.
Proof.
  intros (u & Hu & Hx). unfold lists. rewrite lookup_alter.
  case_decide; subst; rewrite Hu; simpl; eauto using arrayUnion_mono.
Qed.

Lemma lists_alter_add us k y :
  is_Some (us !! k) → lists (alter (arrayUnion y) k us) k y.
Proof.
  intros [u Hu]. unfold lists. rewrite lookup_alter, decide_True by done.
  rewrite Hu. simpl. eauto using arrayUnion_elem.
Qed.

Lemma lists_insert_keep us k u y owner x :
  us !! k = Some u →
  lists us owner x → lists (<[k := arrayUnion y u]> us) owner x.
Proof.
  intros Hk (u' & Hu & Hx). unfold lists.
  destruct (decide (k = owner)) as [->|Hne].
  - rewrite lookup_insert_eq. exists (arrayUnion y u).
    split; [done|]. apply arrayUnion_mono. congruence.
  - rewrite lookup_insert_ne by done. eauto.
Qed.

Lemma lists_insert_add us k u y :
  lists (<[k := arrayUnion y u]> us) k y.
Proof.
  unfold lists. rewrite lookup_insert_eq. eauto using arrayUnion_elem.
Qed.

Lemma report_cases (request : FriendRequest) (r : Result unit) :
  (∃ u, r = Returned u
        ∧ report request r
          = {| error := "";
               success := "You are now friends with "
                          ++ sender_displayName request ++ "!" |})
  ∨ (∃ message m, r = Threw message ∧ m ≠ ""
        ∧ report request r
          = {| error := "Failed to accept friend request: " ++ m;
               success := "" |}).
Proof.
  destruct r as [u|message]; [left; eauto|right].
  exists message. simpl. destruct (String.eqb_spec message "").
  - exists "Unknown error". done.
  - exists message. done.
Qed.

Lemma report_success (request : FriendRequest) (r : Result unit) :
  success (report request r) ≠ "" → r = Returned ().
Proof. destruct r as [[]|message]; simpl; [done|]. intros H. by destruct H. Qed.

(** The sequential version returns only after both [updateDoc] calls went
    through. *)
Lemma sequential_returned faults me request fs fs' :
  Sequential.acceptFriendRequestBody faults me request fs = (fs', Returned ()) →
  mutualFriends fs' me (sender_uid request).
Proof.
  unfold Sequential.acceptFriendRequestBody, mbind, Op_bind,
    acceptRequestDoc, addFriend.
  destruct (Sequential.atRequestUpdate faults); [done|].
  destruct (friendRequests fs !! id request); [|done].
  destruct (Sequential.atCurrentUserUpdate faults); [done|]. simpl.
  destruct (users fs !! me) as [u|] eqn:Hme; [|done].
  destruct (Sequential.atSenderUpdate faults); [done|]. simpl.
  destruct (<[me:=arrayUnion (sender_uid request) u]> (users fs)
              !! sender_uid request) as [u'|] eqn:Hsender; [|done].
  intros [= <-]. unfold mutualFriends, isFriendOf. simpl. split.
  - apply lists_insert_keep; [done|]. apply lists_insert_add.
  - apply lists_insert_add.
Qed.

Lemma commit_returned fault batch fs fs' r :
  commit fault batch fs = (fs', r) →
  (r = Returned ()
   ∧ users fs' = foldl (λ us w, alter (arrayUnion w.2) w.1 us) (users fs) batch)
  ∨ (fs' = fs ∧ ∃ message, r = Threw message).
Proof.
  unfold commit. destruct fault as [message|].
  - intros [= <- <-]. right. eauto.
  - destruct (forallb _ batch).
    + intros [= <- <-]. left. done.
    + intros [= <- <-]. right. eauto.
Qed.

(** The batched version: whatever happens, the profiles are as before or
    both list each other. *)
Lemma batched_all_or_nothing faults me request fs fs' r :
  acceptFriendRequestBody faults me request fs = (fs', r) →
  (r = Returned () ∧ mutualFriends fs' me (sender_uid request))
  ∨ (users fs' = users fs ∧ ∃ message, r = Threw message).
Proof.
  unfold acceptFriendRequestBody, mbind, Op_bind, acceptRequestDoc,
    getUserOrThrow.
  destruct (atRequestUpdate faults);
    [intros [= <- <-]; right; eauto|].
  destruct (friendRequests fs !! id request);
    [|intros [= <- <-]; right; eauto].
  simpl. destruct (users fs !! me) as [u|] eqn:Hme;
    [|intros [= <- <-]; right; eauto].
  simpl. destruct (users fs !! sender_uid request) as [u'|] eqn:Hsender;
    [|intros [= <- <-]; right; eauto].
  intros Hc. apply commit_returned in Hc as [[-> Hus]|[-> [message ->]]];
    [left|right; eauto].
  split; [done|]. unfold mutualFriends, isFriendOf. rewrite Hus. simpl.
  assert (is_Some (users fs !! me)) as Sme by eauto.
  assert (is_Some (users fs !! sender_uid request)) as Ssender by eauto.
  do 2 case_bool_decide; simpl; split;
    first [ by apply lists_alter_add
          | apply lists_alter_keep; by apply lists_alter_add
          | by apply lists_alter_add; rewrite lookup_alter; case_decide;
              [rewrite Hme|rewrite Hsender]
          | apply lists_alter_keep; unfold lists; eauto
          | unfold lists; eauto ].
Qed.

(** C5, as the code has it.  In both versions of the page the success
    banner is shown only when each of the two profiles lists the other.
    The version with [writeBatch] changes the profiles all or nothing:
    after the call they are as before or both list each other.  Any other
    end of the call shows the one failure banner, "Failed to accept friend
    request: ..." with an empty success banner; there is no separate
    outcome for a partly applied accept. *)
Theorem acceptFriendRequest_success_means_mutual_friends (faults : Faults)
    (sequentialFaults : Sequential.Faults) (currentUser : string)
    (request : FriendRequest) (fs : Firestore) :
  let batched := acceptFriendRequest faults currentUser request fs in
  let sequential :=
    Sequential.acceptFriendRequest sequentialFaults currentUser request fs in
  (success batched.2 ≠ "" →
     mutualFriends batched.1 currentUser (sender_uid request))
  ∧ (success sequential.2 ≠ "" →
       mutualFriends sequential.1 currentUser (sender_uid request))
  ∧ (users batched.1 = users fs
     ∨ mutualFriends batched.1 currentUser (sender_uid request))
  ∧ (∀ banner, banner = batched.2 ∨ banner = sequential.2 →
       banner = {| error := "";
                   success := "You are now friends with "
                              ++ sender_displayName request ++ "!" |}
       ∨ ∃ m, m ≠ ""
           ∧ banner = {| error := "Failed to accept friend request: " ++ m;
                         success := "" |}).
Proof.
  intros batched sequential. subst batched sequential.
  unfold acceptFriendRequest, Sequential.acceptFriendRequest.
  destruct (acceptFriendRequestBody faults currentUser request fs)
    as [fsB rB] eqn:HB.
  destruct (Sequential.acceptFriendRequestBody sequentialFaults currentUser
              request fs) as [fsS rS] eqn:HS.
  simpl. split; [|split; [|split]].
  - intros Hs. apply report_success in Hs as ->.
    by destruct (batched_all_or_nothing _ _ _ _ _ _ HB)
      as [[_ ?]|[_ [? ?]]].
  - intros Hs. apply report_success in Hs as ->.
    by apply (sequential_returned _ _ _ _ _ HS).
  - destruct (batched_all_or_nothing _ _ _ _ _ _ HB) as [[_ ?]|[? _]]; auto.
  - intros banner [->| ->].
    + destruct (report_cases request rB)
        as [(u & _ & ->)|(message & m & _ & Hm & ->)]; eauto.
    + destruct (report_cases request rS)
        as [(u & _ & ->)|(message & m & _ & Hm & ->)]; eauto.
Qed.

Lemma acceptFriendRequest_success_means_mutual_friends_witness :
  mutualFriends (acceptFriendRequest noFaults "alice" fromBob twoUsers).1
    "alice" "bob".
Proof.
  destruct (acceptFriendRequest_success_means_mutual_friends
              noFaults senderUpdateFails "alice" fromBob twoUsers)
    as [Hbatched _].
  apply Hbatched. by vm_compute.
Defined.

(** C5, counterexample to the specified behaviour: in the sequential version
    the two profile updates are separate writes, so a failure of the second
    leaves the receiver listing the sender and not the other way round, and
    the banners shown are those of a call in which no profile was updated:
    nothing reports the partial application. *)
Lemma sequential_accept_reports_partial_like_total_failure :
  let partial :=
    Sequential.acceptFriendRequest senderUpdateFails "alice" fromBob
      twoUsers in
  let nothing :=
    Sequential.acceptFriendRequest currentUserUpdateFails "alice" fromBob
      twoUsers in
  isFriendOf partial.1 "alice" "bob"
  ∧ ¬ isFriendOf partial.1 "bob" "alice"
  ∧ users nothing.1 = users twoUsers
  ∧ partial.2 = nothing.2
  ∧ partial.2
    = {| error := "Failed to accept friend request: permission-denied";
         success := "" |}.
Proof.
  split; [apply (bool_decide_unpack _); by vm_compute|].
  split; [apply (bool_decide_unpack _); by vm_compute|].
  split; [by vm_compute|]. split; by vm_compute.
Qed.

Example batched_accept_with_failed_commit_changes_no_profile :
  users (acceptFriendRequest
           {| atRequestUpdate := None; atCommit := Some "unavailable" |}
           "alice" fromBob twoUsers).1
  = users twoUsers.
Proof. by vm_compute. Qed.

End FriendsFacts.

(** * Further properties of the code *)

(** ** Typing and submitting a guess *)

Section KeyboardFacts.
Import Wordle WordleKeyboard.

Lemma toUpperCase_letter (a : ascii) :
  isLetter a = true → isUpperLetter (toUpperCase a) = true.
Proof.
  destruct a as [[] [] [] [] [] [] [] []]; vm_compute; congruence.
Qed.

Lemma length_dropLast (s : string) :
  (String.length (dropLast s) ≤ String.length s)%nat.
Proof.
  induction s as [|a s IH]; simpl; [lia|].
  destruct s; simpl in *; lia.
Qed.

Lemma dropLast_letters (P : ascii → Prop) (s : string) :
  Forall P (list_ascii_of_string s) →
  Forall P (list_ascii_of_string (dropLast s)).
Proof.
  induction s as [|a s IH]; simpl; [done|].
  intros H. apply Forall_cons in H as [Ha Hs].
  destruct s as [|b s]; [constructor|].
  change (Forall P (a :: list_ascii_of_string (dropLast (String b s)))).
  constructor; [done|]. by apply IH.
Qed.

Lemma length_append_char (s : string) (a : ascii) :
  String.length (s ++ String a EmptyString) = S (String.length s).
Proof. induction s; simpl; congruence. Qed.

Lemma list_ascii_append_char (s : string) (a : ascii) :
  list_ascii_of_string (s ++ String a EmptyString)
  = (list_ascii_of_string s ++ [a])%list.
Proof. induction s; simpl; congruence. Qed.

Lemma input_keeps_guess_shape (s : string) (i : Input) :
  (String.length s ≤ 5)%nat
  ∧ Forall (λ a, isUpperLetter a = true) (list_ascii_of_string s) →
  (String.length (input s i) ≤ 5)%nat
  ∧ Forall (λ a, isUpperLetter a = true) (list_ascii_of_string (input s i)).
Proof.
  intros [Hlen Hup]. destruct i as [key|]; simpl.
  - unfold handleKeyPress. destruct key as [|a [|b rest]]; [done| |done].
    destruct (Nat.ltb_spec (String.length s) 5) as [Hlt|Hge]; [|done].
    destruct (isLetter a) eqn:Hl; [|done]. simpl.
    rewrite length_append_char, list_ascii_append_char. split; [lia|].
    apply Forall_app. split; [done|].
    constructor; [by apply toUpperCase_letter|constructor].
  - unfold handleBackspace. split.
    + pose proof (length_dropLast s). lia.
    + by apply dropLast_letters.
Qed.

(** X1.  Whatever keys and backspaces the player enters, the guess being
    typed never has more than five characters and consists of the capital
    letters A to Z only; keys that are not a single letter are ignored. *)
Theorem typed_guess_is_at_most_five_capital_letters (inputs : list Input) :
  (String.length (typed inputs) ≤ 5)%nat
  ∧ Forall (λ a, isUpperLetter a = true) (list_ascii_of_string (typed inputs)).
Proof.
  unfold typed.
  assert (∀ s, (String.length s ≤ 5)%nat
               ∧ Forall (λ a, isUpperLetter a = true) (list_ascii_of_string s) →
               (String.length (foldl input s inputs) ≤ 5)%nat
               ∧ Forall (λ a, isUpperLetter a = true)
                   (list_ascii_of_string (foldl input s inputs))) as Hrun.
  { induction inputs as [|i inputs IH]; intros s Hs; simpl; [done|].
    by apply IH, input_keeps_guess_shape. }
  apply Hrun. simpl. split; [lia|constructor].
Qed.

Example typing_a_guess :
  typed [Key "f"; Key "1"; Key "lu"; Key "L"; Backspace; Key "l"; Key "u";
         Key "s"; Key "h"; Key "x"] = "FLUSH".
Proof. by vm_compute. Qed.

(** X2.  When the Enter button is on screen and enabled, the click is an
    accepted submission: the two refusals of the handler cannot be reached
    through the button. *)
Theorem enabled_enter_is_an_accepted_submission (loading showGameOver : bool)
    (g : GameState) (uid guess : string) :
  keyboardRendered loading showGameOver (Some g) (Some uid) = true →
  enterDisabled (Some g) (Some uid) guess = false →
  accepted g uid guess = true
  ∧ clickEnter loading showGameOver g uid guess = submitGuess g uid guess
  ∧ status g ≠ completed.
Proof.
  intros Hk Hd. unfold clickEnter, clickEnterFrom. rewrite Hk, Hd. simpl.
  unfold keyboardRendered in Hk. unfold enterDisabled in Hd.
  destruct (screen loading showGameOver (Some g)); try done.
  apply andb_true_iff in Hk as [Hst Hcp].
  apply orb_false_iff in Hd as [Hlen Hcp'].
  apply negb_false_iff, Nat.eqb_eq in Hlen.
  apply String.eqb_eq in Hcp.
  split; [by apply handleSubmitGuess_sent|]. split; [done|].
  apply negb_true_iff in Hst. by apply bool_decide_eq_false in Hst.
Qed.

Lemma enabled_enter_is_an_accepted_submission_witness :
  accepted sampleGame "alice" "WIPES" = true
  ∧ clickEnter false false sampleGame "alice" "WIPES"
    = submitGuess sampleGame "alice" "WIPES"
  ∧ status sampleGame ≠ completed.
Proof.
  apply (enabled_enter_is_an_accepted_submission false false sampleGame
           "alice" "WIPES"); reflexivity.
Defined.

End KeyboardFacts.

(** ** What a submission does to the fields of the document *)

Section RunFacts.
Import Wordle WordleRuns.

(** The fields after an accepted submission. *)
Lemma submitGuess_fields g uid guess :
  accepted g uid guess = true →
  let g' := submitGuess g uid guess in
  word g' = word g ∧ player1 g' = player1 g ∧ player2 g' = player2 g
  ∧ player1Guesses g'
    = (if String.eqb uid (player1 g)
       then (player1Guesses g ++ [guess])%list else player1Guesses g)
  ∧ player2Guesses g'
    = (if String.eqb uid (player1 g)
       then player2Guesses g else (player2Guesses g ++ [guess])%list).
Proof.
  intros Hacc. pose proof Hacc as Hacc'.
  apply handleSubmitGuess_sent in Hacc' as [Hcp Hlen].
  unfold submitGuess, submitFrom, handleSubmitGuess.
  rewrite Hcp, String.eqb_refl, Hlen. simpl.
  by destruct (String.eqb uid (player1 g)).
Qed.

Lemma submitGuess_keeps_turnsAgree g uid guess :
  player1 g ≠ player2 g →
  turnsAgree g → turnsAgree (submitGuess g uid guess).
Proof.
  intros Hne Hinv. destruct (accepted g uid guess) eqn:Hacc;
    [|by rewrite submitGuess_refused].
  destruct (submitGuess_fields g uid guess Hacc) as (_ & Hp1 & Hp2 & Hg1 & Hg2).
  pose proof (submitGuess_currentPlayer g uid guess Hacc) as Hcp'.
  apply handleSubmitGuess_sent in Hacc as [Hcp _].
  unfold turnsAgree. rewrite Hp1, Hp2, Hg1, Hg2, Hcp'.
  destruct (String.eqb_spec uid (player1 g)) as [He|He].
  - right. split; [done|]. rewrite length_app. simpl.
    destruct Hinv as [[_ Hl]|[Hc _]]; [lia|]. congruence.
  - left. split; [done|]. rewrite length_app. simpl.
    destruct Hinv as [[Hc _]|[_ Hl]]; [congruence|lia].
Qed.

Lemma submitGuess_keeps_fiveLetters g uid guess :
  fiveLetters g → fiveLetters (submitGuess g uid guess).
Proof.
  intros Hinv. destruct (accepted g uid guess) eqn:Hacc;
    [|by rewrite submitGuess_refused].
  destruct (submitGuess_fields g uid guess Hacc) as (_ & _ & _ & Hg1 & Hg2).
  apply handleSubmitGuess_sent in Hacc as [_ Hlen].
  unfold fiveLetters in *. rewrite Hg1, Hg2.
  apply Forall_app in Hinv as [H1 H2].
  destruct (String.eqb uid (player1 g)); rewrite !Forall_app;
    repeat split; try done; by repeat constructor.
Qed.

Lemma submitGuess_keeps_outcomeAgrees g uid guess :
  outcomeAgrees g → outcomeAgrees (submitGuess g uid guess).
Proof.
  intros Hinv. destruct (accepted g uid guess) eqn:Hacc;
    [|by rewrite submitGuess_refused].
  destruct (submitGuess_fields g uid guess Hacc) as (Hw & Hp1 & _ & Hg1 & Hg2).
  pose proof (submitGuess_status g uid guess Hacc) as Hst.
  pose proof (submitGuess_winner g uid guess Hacc) as Hwin.
  unfold outcomeAgrees, guessesOf. rewrite Hw, Hp1, Hg1, Hg2, Hst, Hwin.
  destruct (String.eqb_spec guess (word g)) as [->|Hwrong].
  - right. split; [done|]. exists uid. split; [done|].
    destruct (String.eqb uid (player1 g)); apply elem_of_app; right; left.
  - destruct Hinv as [(Ha & Hn & H1 & H2)|(Hc & w & Hw' & Hin)].
    + left. repeat split; try done;
        destruct (String.eqb uid (player1 g)); try done;
        rewrite elem_of_app, list_elem_of_singleton; intros [?|?]; congruence.
    + right. split; [done|]. exists w. split; [done|].
      unfold guessesOf in Hin.
      destruct (String.eqb w (player1 g)), (String.eqb uid (player1 g));
        try done; apply elem_of_app; by left.
Qed.

End RunFacts.

(** ** Closing the game window *)

Section CloseFacts.
Import GameCoordinator WordleClose.

Lemma unique_id (invites : Invites) id d1 d2 :
  NoDup invites.*1 → (id, d1) ∈ invites → (id, d2) ∈ invites → d1 = d2.
Proof.
  unfold Invites in *.
  induction invites as [|[k x] l IH]; intros Hnd H1 H2.
  - by apply elem_of_nil in H1.
  - apply NoDup_cons in Hnd as [Hk Hnd].
    apply elem_of_cons in H1 as [H1|H1]; apply elem_of_cons in H2 as [H2|H2].
    + congruence.
    + inversion H1; subst. exfalso. apply Hk.
      apply list_elem_of_fmap. by exists (k, d2).
    + inversion H2; subst. exfalso. apply Hk.
      apply list_elem_of_fmap. by exists (k, d1).
    + by apply IH.
Qed.

Lemma deleteDoc_absent (invites : Invites) id :
  id ∉ invites.*1 → deleteDoc id invites = invites.
Proof.
  unfold deleteDoc, Invites in *.
  induction invites as [|[k x] l IH]; intros Hid; [done|].
  rewrite filter_cons_True.
  - f_equal. apply IH. intros Hin. apply Hid. by right.
  - simpl. intros ->. apply Hid. left.
Qed.

Lemma deleteDoc_length (invites : Invites) id d :
  NoDup invites.*1 → (id, d) ∈ invites →
  length invites = S (length (deleteDoc id invites)).
Proof.
  unfold Invites in *.
  induction invites as [|[k x] l IH]; intros Hnd Hin.
  - by apply elem_of_nil in Hin.
  - apply NoDup_cons in Hnd as [Hk Hnd].
    specialize (IH Hnd). unfold deleteDoc in *. unfold Invites in *.
    destruct (decide (k = id)) as [->|Hne].
    + rewrite filter_cons_False by (simpl; intros H; by apply H).
      simpl. f_equal. f_equal. symmetry. by apply (deleteDoc_absent l id).
    + rewrite filter_cons_True by done. simpl. f_equal. apply IH.
      apply elem_of_cons in Hin as [Hin|Hin]; [congruence|done].
Qed.

Lemma deleteDoc_elem_of (invites : Invites) id x :
  x ∈ deleteDoc id invites ↔ x.1 ≠ id ∧ x ∈ invites.
Proof. unfold deleteDoc. by rewrite list_elem_of_filter. Qed.

(** The head of a query is in the collection and satisfies the filter. *)
Lemma query_head (P : string * GameInviteData → Prop)
    `{∀ x, Decision (P x)} (invites : Invites) x rest :
  filter P invites = x :: rest → P x ∧ x ∈ invites.
Proof.
  unfold Invites in *. intros Hq.
  apply (list_elem_of_filter P invites x). rewrite Hq. left.
Qed.

Lemma query_empty (P : string * GameInviteData → Prop)
    `{∀ x, Decision (P x)} (invites : Invites) x :
  filter P invites = [] → x ∈ invites → ¬ P x.
Proof.
  unfold Invites in *. intros Hq Hin HP.
  assert (x ∈ filter P invites) as Hx by (by apply list_elem_of_filter).
  rewrite Hq in Hx. by apply elem_of_nil in Hx.
Qed.

(** X5.  Closing the game window removes at most one invite document, and
    only one that carries this game id and has the caller as sender or
    receiver; if there is such an invite one is removed, and every other
    document stays. *)
Theorem handleClose_removes_one_invite_of_this_game (uid gid : string)
    (invites : Invites) :
  NoDup invites.*1 →
  handleClose uid gid invites `sublist_of` invites
  ∧ (length invites ≤ S (length (handleClose uid gid invites)))%nat
  ∧ (∀ x, x ∈ invites → x ∉ handleClose uid gid invites →
       gameId x.2 = Some gid
       ∧ (senderId x.2 = uid ∨ receiverId x.2 = uid))
  ∧ (∀ x, x ∈ invites → gameId x.2 = Some gid →
       senderId x.2 = uid ∨ receiverId x.2 = uid →
       length invites = S (length (handleClose uid gid invites))).
Proof.
  intros Hnd. unfold handleClose.
  assert (∀ id d (P : string * GameInviteData → Prop),
            (id, d) ∈ invites → P (id, d) →
            ∀ x, x ∈ invites → x ∉ deleteDoc id invites → P x) as Hgone.
  { intros id d P Hin HP [k x] Hx Hnot.
    destruct (decide (k = id)) as [->|Hne].
    - by rewrite (unique_id invites id x d).
    - exfalso. apply Hnot. by apply deleteDoc_elem_of. }
  destruct (senderQuery uid gid invites) as [|[id d] rest] eqn:Hs.
  - destruct (receiverQuery uid gid invites) as [|[id d] rest] eqn:Hr.
    + split; [done|]. split; [lia|]. split; [done|].
      intros x Hx Hg [Hu|Hu]; exfalso.
      * by apply (query_empty _ _ x Hs Hx).
      * by apply (query_empty _ _ x Hr Hx).
    + apply query_head in Hr as [[Hu Hg] Hin]. simpl in *.
      split; [apply sublist_filter|].
      rewrite (deleteDoc_length invites id d) by done.
      split; [lia|]. split; [|done].
      apply (Hgone id d (λ x, gameId x.2 = Some gid
                              ∧ (senderId x.2 = uid ∨ receiverId x.2 = uid)));
        [done|by auto].
  - apply query_head in Hs as [[Hu Hg] Hin]. simpl in *.
    split; [apply sublist_filter|].
    rewrite (deleteDoc_length invites id d) by done.
    split; [lia|]. split; [|done].
    apply (Hgone id d (λ x, gameId x.2 = Some gid
                            ∧ (senderId x.2 = uid ∨ receiverId x.2 = uid)));
      [done|by auto].
Qed.

Lemma handleClose_removes_one_invite_of_this_game_witness :
  (length twoAccepted ≤ S (length (handleClose "bob" "game1" twoAccepted)))%nat
  ∧ length twoAccepted = S (length (handleClose "bob" "game1" twoAccepted)).
Proof.
  assert (NoDup twoAccepted.*1) as Hnd.
  { apply (bool_decide_unpack _). by vm_compute. }
  destruct (handleClose_removes_one_invite_of_this_game "bob" "game1"
              twoAccepted Hnd) as (_ & Hle & _ & Hone).
  split; [exact Hle|].
  apply (Hone ("invite1",
               {| senderId := "alice"; senderName := "Alice";
                  receiverId := "bob"; inviteStatus := accepted;
                  createdAt := 100; gameId := Some "game1" |})).
  - left.
  - reflexivity.
  - right. reflexivity.
Defined.

End CloseFacts.

(** ** Invites, ticks and windows *)

Section LifecycleFacts.
Import GameCoordinator WordleClose GameInvites.

Lemma filter_none (P : string * GameInviteData → Prop)
    `{∀ x, Decision (P x)} (invites : Invites) :
  (∀ x, x ∈ invites → ¬ P x) → filter P invites = [].
Proof.
  unfold Invites in *. induction invites as [|x l IH]; intros Hno; [done|].
  rewrite filter_cons_False by (apply Hno; left).
  apply IH. intros y Hy. apply Hno. by right.
Qed.

Lemma filter_only (P : string * GameInviteData → Prop)
    `{∀ x, Decision (P x)} (invites : Invites) id0 d0 :
  NoDup invites.*1 → (id0, d0) ∈ invites → P (id0, d0) →
  (∀ x, x ∈ invites → P x → x.1 = id0) →
  filter P invites = [(id0, d0)].
Proof.
  unfold Invites in *.
  induction invites as [|[k x] l IH]; intros Hnd Hin HP Honly.
  - by apply elem_of_nil in Hin.
  - pose proof Hnd as Hnd'. apply NoDup_cons in Hnd as [Hk Hnd].
    destruct (decide (k = id0)) as [->|Hne].
    + assert (x = d0) as ->.
      { apply (unique_id ((id0, x) :: l) id0); [done|left|done]. }
      rewrite filter_cons_True by done. f_equal.
      apply filter_none. intros y Hy HPy.
      apply Hk. apply list_elem_of_fmap. exists y. split; [|done].
      symmetry. apply Honly; [by right|done].
    + rewrite filter_cons_False.
      * apply IH; try done.
        -- apply elem_of_cons in Hin as [Hin|Hin]; [congruence|done].
        -- intros y Hy. apply Honly. by right.
      * intros HPk. apply Hne. apply (Honly (k, x)); [left|done].
Qed.

(** X6.  When the invite of the game being closed is the caller's only
    accepted invite, closing the window removes it, and the next tick
    leaves the game window closed; had the invite stayed, the same tick
    would open the window again while the game is not completed. *)
Theorem closing_the_game_keeps_its_window_closed (uid gid : string)
    (games : gmap string Wordle.GameState) (invites : Invites)
    (st : Provider) (id0 : string) (inv0 : GameInviteData) :
  NoDup invites.*1 → gid ≠ "" →
  (id0, inv0) ∈ invites →
  inviteStatus inv0 = accepted → gameId inv0 = Some gid →
  senderId inv0 = uid ∨ receiverId inv0 = uid →
  (∀ x, x ∈ invites → x.1 ≠ id0 →
     gameId x.2 ≠ Some gid
     ∧ ¬ (inviteStatus x.2 = accepted
          ∧ (senderId x.2 = uid ∨ receiverId x.2 = uid))) →
  (id0 ∉ (handleClose uid gid invites).*1)
  ∧ activeGameId
      (fetchGameState uid games (handleClose uid gid invites)
         (handleCloseGame st)).2 = None
  ∧ (∀ g, games !! gid = Some g → Wordle.status g ≠ Wordle.completed →
       activeGameId (fetchGameState uid games invites (handleCloseGame st)).2
       = Some gid).
Proof.
  intros Hnd Hgid Hin Hacc Hg Hparty Hothers.
  assert (∀ x, x ∈ invites → gameId x.2 = Some gid → x.1 = id0) as Hgame.
  { intros x Hx Hxg. destruct (decide (x.1 = id0)); [done|].
    by destruct (Hothers x Hx) as [? _]. }
  assert (∀ x, x ∈ invites → inviteStatus x.2 = accepted →
               senderId x.2 = uid ∨ receiverId x.2 = uid → x.1 = id0)
    as Haccepted.
  { intros x Hx Hxa Hxp. destruct (decide (x.1 = id0)); [done|].
    destruct (Hothers x Hx) as [_ Hno]; [done|]. exfalso. by apply Hno. }
  assert (handleClose uid gid invites = deleteDoc id0 invites) as Hclose.
  { unfold handleClose. destruct (decide (senderId inv0 = uid)) as [Hs|Hs].
    - unfold senderQuery.
      rewrite (filter_only _ invites id0 inv0); try done.
      intros x Hx [_ Hxg]. by apply Hgame.
    - destruct Hparty as [?|Hr]; [done|].
      unfold senderQuery. rewrite filter_none.
      + unfold receiverQuery.
        rewrite (filter_only _ invites id0 inv0); try done.
        intros x Hx [_ Hxg]. by apply Hgame.
      + intros [k x] Hx [Hxs Hxg]. simpl in *.
        assert (k = id0) as -> by (by apply (Hgame (k, x))).
        by rewrite (unique_id invites id0 x inv0) in Hxs. }
  split; [rewrite Hclose; apply deleteDoc_not_elem|]. split.
  - rewrite Hclose. unfold fetchGameState, senderInvitesQuery.
    rewrite filter_none.
    + simpl. unfold scanAsReceiver, receiverInvitesQuery.
      rewrite filter_none; [done|].
      intros x Hx [Hxr Hxa]. apply deleteDoc_elem_of in Hx as [Hne Hx].
      apply Hne. apply Haccepted; auto.
    + intros x Hx [Hxs Hxa]. apply deleteDoc_elem_of in Hx as [Hne Hx].
      apply Hne. apply Haccepted; auto.
  - intros g Hgame' Hrun. unfold fetchGameState.
    destruct (decide (senderId inv0 = uid)) as [Hs|Hs].
    + unfold senderInvitesQuery.
      rewrite (filter_only _ invites id0 inv0); try done.
      * rewrite (scanAccepted_first _ _ _ _ _ _ gid g) by done.
        by rewrite bool_decide_eq_false_2.
      * intros x Hx [Hxs Hxa]. apply Haccepted; auto.
    + destruct Hparty as [?|Hr]; [done|].
      unfold senderInvitesQuery. rewrite filter_none.
      * simpl. unfold scanAsReceiver, receiverInvitesQuery.
        rewrite (filter_only _ invites id0 inv0); try done.
        -- rewrite (scanAccepted_first _ _ _ _ _ _ gid g) by done.
           by rewrite bool_decide_eq_false_2.
        -- intros x Hx [Hxr Hxa]. apply Haccepted; auto.
      * intros [k x] Hx [Hxs Hxa]. simpl in *.
        assert (k = id0) as -> by (apply (Haccepted (k, x)); auto).
        by rewrite (unique_id invites id0 x inv0) in Hxs.
Qed.

Lemma closing_the_game_keeps_its_window_closed_witness :
  activeGameId
    (fetchGameState "carol" twoGames (handleClose "carol" "game2" oneStale)
       (handleCloseGame noGame)).2 = None.
Proof.
  assert (NoDup oneStale.*1) as Hnd.
  { apply (bool_decide_unpack _). by vm_compute. }
  pose (stale :=
    {| senderId := "alice"; senderName := "Alice"; receiverId := "carol";
       inviteStatus := accepted; createdAt := 200;
       gameId := Some "game2" |}).
  destruct (closing_the_game_keeps_its_window_closed "carol" "game2" twoGames
              oneStale noGame "invite2" stale Hnd ltac:(discriminate)) as
    (_ & Hclosed & _).
  - left.
  - reflexivity.
  - reflexivity.
  - right. reflexivity.
  - intros x Hx Hne. apply list_elem_of_singleton in Hx. subst x.
    by destruct Hne.
  - exact Hclosed.
Defined.

(** What one side's scan can do to the collection. *)
Lemma scanAccepted_cases games opponentOf (docs invites : Invites) :
  (∃ gid opponent, scanAccepted games opponentOf docs invites
                   = Surface gid opponent
      ∧ stillActive games gid = true
      ∧ ∃ id d rest, docs = (id, d) :: rest ∧ gameId d = Some gid
                     ∧ opponent = opponentOf d)
  ∨ scanAccepted games opponentOf docs invites = Continue invites
  ∨ (∃ id d rest gid, docs = (id, d) :: rest
      ∧ gameId d = Some gid ∧ stillActive games gid = false
      ∧ scanAccepted games opponentOf docs invites
        = Continue (deleteDoc id invites)).
Proof.
  unfold scanAccepted. destruct docs as [|[id d] rest]; [by right; left|].
  destruct (gameId d) as [gid|] eqn:Hg; simpl; [|by right; left].
  destruct (negb (String.eqb gid "")); [|by right; left].
  destruct (stillActive games gid) eqn:Ha.
  - left. exists gid, (opponentOf d). split; [done|]. split; [done|].
    by exists id, d, rest.
  - right. right. by exists id, d, rest, gid.
Qed.

(** A document a scan removed is the head of its query. *)
Lemma removed_by_deleteDoc (invites : Invites) id d x :
  NoDup invites.*1 → (id, d) ∈ invites →
  x ∈ invites → x ∉ deleteDoc id invites → x = (id, d).
Proof.
  intros Hnd Hin Hx Hnot. destruct x as [k y].
  destruct (decide (k = id)) as [->|Hne].
  - by rewrite (unique_id invites id y d).
  - exfalso. apply Hnot. by apply deleteDoc_elem_of.
Qed.

Lemma NoDup_deleteDoc (invites : Invites) id :
  NoDup invites.*1 → NoDup (deleteDoc id invites).*1.
Proof.
  intros Hnd. eapply sublist_NoDup; [exact Hnd|].
  unfold deleteDoc. apply fmap_sublist, sublist_filter.
Qed.

(** X7.  A tick never removes a pending, rejected or cancelled invite, an
    invite between other users, or the invite of a game that is still
    running: every document it removes is an accepted invite with the
    caller as sender or receiver whose game is completed or has no
    document.  It removes at most two documents. *)
Theorem fetchGameState_removes_only_own_finished_invites (uid : string)
    (games : gmap string Wordle.GameState) (invites : Invites)
    (st : Provider) :
  NoDup invites.*1 →
  let after := (fetchGameState uid games invites st).1 in
  after `sublist_of` invites
  ∧ (length invites ≤ 2 + length after)%nat
  ∧ (∀ x, x ∈ invites → x ∉ after →
       inviteStatus x.2 = accepted
       ∧ (senderId x.2 = uid ∨ receiverId x.2 = uid)
       ∧ ∃ gid, gameId x.2 = Some gid ∧ stillActive games gid = false).
Proof.
  intros Hnd after. subst after. unfold fetchGameState.
  assert (∀ (inv1 : Invites), NoDup inv1.*1 →
            let r := (scanAsReceiver uid games inv1 st).1 in
            r `sublist_of` inv1 ∧ (length inv1 ≤ 1 + length r)%nat
            ∧ (∀ x, x ∈ inv1 → x ∉ r →
                 inviteStatus x.2 = accepted ∧ receiverId x.2 = uid
                 ∧ ∃ gid, gameId x.2 = Some gid
                          ∧ stillActive games gid = false)) as Hreceiver.
  { intros inv1 Hnd1. unfold scanAsReceiver.
    destruct (scanAccepted_cases games senderId
                (receiverInvitesQuery uid inv1) inv1)
      as [(gid & opp & -> & _)|[->|(id & d & rest & gid & Hq & Hg & Ha & ->)]];
      simpl.
    - split; [done|]. split; [lia|]. done.
    - split; [done|]. split; [lia|]. done.
    - apply query_head in Hq as [[Hr Hacc] Hin]. simpl in *.
      split; [apply sublist_filter|].
      rewrite (deleteDoc_length inv1 id d) by done. split; [lia|].
      intros x Hx Hnot.
      rewrite (removed_by_deleteDoc inv1 id d x) by done. simpl. eauto. }
  destruct (scanAccepted_cases games receiverId
              (senderInvitesQuery uid invites) invites)
    as [(gid & opp & -> & _)|[->|(id & d & rest & gid & Hq & Hg & Ha & ->)]];
    simpl.
  - split; [done|]. split; [lia|]. done.
  - destruct (Hreceiver invites Hnd) as (Hsub & Hlen & Hrem).
    split; [done|]. split; [simpl in *; lia|].
    intros x Hx Hnot. destruct (Hrem x Hx Hnot) as (? & ? & ?). eauto.
  - apply query_head in Hq as [[Hs Hacc] Hin]. simpl in *.
    destruct (Hreceiver (deleteDoc id invites) (NoDup_deleteDoc _ _ Hnd))
      as (Hsub & Hlen & Hrem).
    split; [etrans; [exact Hsub|apply sublist_filter]|].
    rewrite (deleteDoc_length invites id d) by done.
    split; [simpl in *; lia|].
    intros x Hx Hnot.
    destruct (decide (x ∈ deleteDoc id invites)) as [Hkept|Hgone].
    + destruct (Hrem x Hkept Hnot) as (? & ? & ?). eauto.
    + rewrite (removed_by_deleteDoc invites id d x) by done. simpl.
      split; [done|]. split; [by left|]. eauto.
Qed.

Lemma fetchGameState_removes_only_own_finished_invites_witness :
  (length twoAccepted
   ≤ 2 + length (fetchGameState "alice" twoGames twoAccepted noGame).1)%nat.
Proof.
  assert (NoDup twoAccepted.*1) as Hnd.
  { apply (bool_decide_unpack _). by vm_compute. }
  destruct (fetchGameState_removes_only_own_finished_invites "alice" twoGames
              twoAccepted noGame Hnd) as (_ & Hlen & _).
  exact Hlen.
Defined.

(** X8.  A tick never closes a window.  The active game stays as it is
    unless the tick surfaces a game, and a surfaced game has a document
    that is not completed and is named by an accepted invite of the caller;
    the active invite changes only when neither an invite nor a game was
    active, and then to a pending invite addressed to the caller. *)
Theorem fetchGameState_never_closes_a_window (uid : string)
    (games : gmap string Wordle.GameState) (invites : Invites)
    (st : Provider) :
  let st' := (fetchGameState uid games invites st).2 in
  (activeGameId st' = activeGameId st
   ∨ ∃ gid, activeGameId st' = Some gid ∧ stillActive games gid = true
       ∧ ∃ x, x ∈ invites ∧ gameId x.2 = Some gid
              ∧ inviteStatus x.2 = accepted
              ∧ (senderId x.2 = uid ∨ receiverId x.2 = uid))
  ∧ (activeInviteId st' = activeInviteId st
     ∨ truthy (activeInviteId st) = false ∧ truthy (activeGameId st) = false
       ∧ ∃ x, x ∈ invites ∧ activeInviteId st' = Some x.1
              ∧ inviteStatus x.2 = pending ∧ receiverId x.2 = uid).
Proof.
  intros st'. subst st'. unfold fetchGameState.
  assert (∀ (inv1 : Invites), inv1 ⊆ invites →
    let st' := (scanAsReceiver uid games inv1 st).2 in
    (activeGameId st' = activeGameId st
     ∨ ∃ gid, activeGameId st' = Some gid ∧ stillActive games gid = true
         ∧ ∃ x, x ∈ invites ∧ gameId x.2 = Some gid
                ∧ inviteStatus x.2 = accepted
                ∧ (senderId x.2 = uid ∨ receiverId x.2 = uid))
    ∧ (activeInviteId st' = activeInviteId st
       ∨ truthy (activeInviteId st) = false ∧ truthy (activeGameId st) = false
         ∧ ∃ x, x ∈ invites ∧ activeInviteId st' = Some x.1
                ∧ inviteStatus x.2 = pending ∧ receiverId x.2 = uid))
    as Hreceiver.
  { intros inv1 Hsub. unfold scanAsReceiver.
    assert (∀ (inv2 : Invites), inv2 ⊆ invites →
      let st' := (scanPending uid inv2 st).2 in
      activeGameId st' = activeGameId st
      ∧ (activeInviteId st' = activeInviteId st
         ∨ truthy (activeInviteId st) = false
           ∧ truthy (activeGameId st) = false
           ∧ ∃ x, x ∈ invites ∧ activeInviteId st' = Some x.1
                  ∧ inviteStatus x.2 = pending ∧ receiverId x.2 = uid))
      as Hpending.
    { intros inv2 Hsub2. unfold scanPending. simpl. split; [done|].
      destruct (invitesQuery uid inv2) as [|[id d] rest] eqn:Hq; [by left|].
      apply query_head in Hq as [[Hr Hp] Hin]. simpl in *.
      destruct (truthy (activeInviteId st)); [by left|].
      destruct (truthy (activeGameId st)); [by left|]. simpl.
      right. split; [done|]. split; [done|].
      exists (id, d). split; [by apply Hsub2|]. done. }
    destruct (scanAccepted_cases games senderId
                (receiverInvitesQuery uid inv1) inv1)
      as [(gid & opp & -> & Ha & id & d & rest & Hq & Hg & _)
         |[->|(id & d & rest & gid & Hq & Hg & Ha & ->)]]; simpl.
    - apply query_head in Hq as [[Hr Hacc] Hin]. simpl in *.
      split; [|by left]. right. exists gid. split; [done|]. split; [done|].
      exists (id, d). split; [by apply Hsub|]. auto.
    - destruct (Hpending inv1 Hsub) as [Hg' Hi'].
      split; [left; exact Hg'|exact Hi'].
    - destruct (Hpending (deleteDoc id inv1)) as [Hg' Hi'].
      + intros x Hx. apply Hsub. by apply deleteDoc_elem_of in Hx as [_ ?].
      + split; [left; exact Hg'|exact Hi']. }
  destruct (scanAccepted_cases games receiverId
              (senderInvitesQuery uid invites) invites)
    as [(gid & opp & -> & Ha & id & d & rest & Hq & Hg & _)
       |[->|(id & d & rest & gid & Hq & Hg & Ha & ->)]]; simpl.
  - apply query_head in Hq as [[Hs Hacc] Hin]. simpl in *.
    split; [|by left]. right. exists gid. split; [done|]. split; [done|].
    exists (id, d). auto.
  - by apply (Hreceiver invites).
  - apply (Hreceiver (deleteDoc id invites)). intros x Hx.
    by apply deleteDoc_elem_of in Hx as [_ ?].
Qed.

Lemma updateInvite_present id0 d0 fields (invites : Invites) :
  NoDup invites.*1 → (id0, d0) ∈ invites →
  ∃ invites', updateInvite id0 fields invites = Some invites'
    ∧ invites'.*1 = invites.*1
    ∧ (id0, fields d0) ∈ invites'
    ∧ (∀ x, x ∈ invites' → x.1 ≠ id0 → x ∈ invites).
Proof.
  intros Hnd Hin. unfold updateInvite.
  rewrite bool_decide_eq_true_2
    by (apply list_elem_of_fmap; by exists (id0, d0)).
  eexists. split; [done|]. unfold Invites in *. split; [|split].
  - clear. induction invites as [|[k x] l IH]; [done|].
    simpl. f_equal; [by case_decide|done].
  - apply list_elem_of_fmap. exists (id0, d0). split; [|done].
    by rewrite decide_True.
  - intros x Hx Hne. apply list_elem_of_In, in_map_iff in Hx as (y & <- & Hy).
    apply list_elem_of_In in Hy. case_decide; [|done].
    simpl in Hne. congruence.
Qed.

Lemma updateInvite_missing id fields (invites : Invites) :
  id ∉ invites.*1 → updateInvite id fields invites = None.
Proof. intros Hid. unfold updateInvite. by rewrite bool_decide_eq_false_2. Qed.

(** X9.  After the receiver accepts an invite, the receiver's provider
    holds the new game with the sender as opponent and no active invite.
    The sender, having no other accepted invite, is shown that game by the
    next tick once its document exists and is not completed; a tick that
    runs while the game document does not exist yet removes the accepted
    invite instead and shows nothing. *)
Theorem accepted_invite_reaches_the_sender_once_the_game_exists
    (receiver stamp suffix : string) (games : gmap string Wordle.GameState)
    (invites : Invites) (stReceiver stSender : Provider)
    (id0 : string) (inv0 : GameInviteData) :
  NoDup invites.*1 →
  (id0, inv0) ∈ invites →
  (∀ x, x ∈ invites → x.1 ≠ id0 →
     ¬ (inviteStatus x.2 = accepted
        ∧ (senderId x.2 = senderId inv0 ∨ receiverId x.2 = senderId inv0))) →
  let gid := newGameId stamp suffix in
  let after :=
    handleAccept (Some (id0, inv0)) (Some receiver) stamp suffix invites
      stReceiver in
  let tick := fetchGameState (senderId inv0) games (ac_invites after) stSender in
  ac_error after = ""
  ∧ activeGameId (ac_provider after) = Some gid
  ∧ activeOpponentId (ac_provider after) = Some (senderId inv0)
  ∧ activeInviteId (ac_provider after) = None
  ∧ (∀ g, games !! gid = Some g → Wordle.status g ≠ Wordle.completed →
       tick = (ac_invites after, surface gid (receiverId inv0) stSender))
  ∧ (games !! gid = None →
       (id0 ∉ tick.1.*1) ∧ activeGameId tick.2 = activeGameId stSender).
Proof.
  intros Hnd Hin Hothers. cbv zeta. unfold handleAccept.
  destruct (updateInvite_present id0 inv0 (accept (newGameId stamp suffix))
              invites Hnd Hin) as (invites' & Hup & Hids & Hin' & Hrest).
  rewrite Hup. simpl.
  set (gid := newGameId stamp suffix) in *.
  assert (gid ≠ "") as Hgid by discriminate.
  assert (NoDup invites'.*1) as Hnd' by (by rewrite Hids).
  assert (senderInvitesQuery (senderId inv0) invites'
          = [(id0, accept gid inv0)]) as Hq.
  { unfold senderInvitesQuery.
    apply (filter_only _ invites' id0 (accept gid inv0)); try done.
    intros x Hx [Hxs Hxa]. destruct (decide (x.1 = id0)); [done|].
    exfalso. apply (Hothers x); auto. }
  split; [done|]. split; [done|]. split; [done|]. split; [done|]. split.
  - intros g Hg Hrun. unfold fetchGameState. rewrite Hq.
    rewrite (scanAccepted_first _ _ _ _ _ _ gid g) by done.
    by rewrite bool_decide_eq_false_2.
  - intros Hnone. unfold fetchGameState.
    rewrite Hq. unfold scanAccepted, stillActive. simpl. rewrite Hnone.
    split.
    + eapply not_elem_fst_subseteq;
        [apply scanAsReceiver_subseteq|apply deleteDoc_not_elem].
    + unfold scanAsReceiver, receiverInvitesQuery.
      rewrite filter_none; [done|].
      intros x Hx [Hxr Hxa]. apply deleteDoc_elem_of in Hx as [Hne Hx].
      apply (Hothers x); auto.
Qed.

Lemma accepted_invite_reaches_the_sender_once_the_game_exists_witness :
  "invite3" ∉
    (fetchGameState "alice" ∅
       (ac_invites
          (handleAccept (Some ("invite3", Samples.pendingFromAlice))
             (Some "bob") "1700000000000" "k3j9x2a" Samples.onePending
             noGame))
       noGame).1.*1.
Proof.
  assert (NoDup Samples.onePending.*1) as Hnd.
  { apply (bool_decide_unpack _). by vm_compute. }
  destruct (accepted_invite_reaches_the_sender_once_the_game_exists
              "bob" "1700000000000" "k3j9x2a" ∅ Samples.onePending
              noGame noGame "invite3" Samples.pendingFromAlice Hnd)
    as (_ & _ & _ & _ & _ & Hearly).
  - left.
  - intros x Hx Hne. apply list_elem_of_singleton in Hx. subst x.
    by destruct Hne.
  - exact (proj1 (Hearly (lookup_empty _))).
Defined.

End LifecycleFacts.

(** ** The session map over time *)

Section PresenceRunFacts.
Import Presence PresenceRuns.

Lemma sessionsOf_nodeAt (db : gmap string Status) uid :
  default ∅ (sessions (nodeAt db uid)) = sessionsOf (db !! uid).
Proof. unfold nodeAt, sessionsOf. by destruct (db !! uid). Qed.

Lemma default_pruneSessions (m : gmap string bool) :
  default ∅ (pruneSessions m) = m.
Proof. unfold pruneSessions. by case_bool_decide. Qed.

Lemma sessionsOf_setStatus uid value (db : gmap string Status) :
  sessionsOf (setStatus uid value db !! uid)
  = default ∅ (sessions value).
Proof.
  rewrite <- sessionsOf_nodeAt, nodeAt_setStatus. simpl.
  destruct (sessions value) as [m|]; simpl; [|done].
  apply default_pruneSessions.
Qed.

Lemma sessionsOf_removeSessionKey uid sid (db : gmap string Status) :
  sessionsOf (removeSessionKey uid sid db !! uid)
  = delete sid (sessionsOf (db !! uid)).
Proof.
  unfold removeSessionKey. destruct (db !! uid) as [st|] eqn:Hst.
  - rewrite sessionsOf_setStatus. unfold sessionsOf. simpl.
    destruct (sessions st); simpl; [done|]. by rewrite delete_empty.
  - rewrite Hst. unfold sessionsOf. simpl. by rewrite delete_empty.
Qed.

Lemma sessionsOf_attach uid sid now rt :
  sessionsOf (statusNodes (attach uid sid now rt) !! uid)
  = <[sid := true]> (sessionsOf (statusNodes rt !! uid)).
Proof.
  unfold attach. simpl. rewrite sessionsOf_setStatus. simpl.
  unfold withSession, sessionsOf. by destruct (statusNodes rt !! uid).
Qed.

Lemma sessionsOf_updateUserStatus uid sid b now rt :
  sessionsOf (statusNodes (updateUserStatus (Some uid) sid b now rt) !! uid)
  = <[sid := true]> (sessionsOf (statusNodes rt !! uid)).
Proof.
  unfold updateUserStatus. simpl. rewrite sessionsOf_setStatus.
  unfold withSession, sessionsOf.
  destruct (statusNodes rt !! uid); simpl; [done|].
  by rewrite insert_empty.
Qed.

Lemma online_iff_sessions (snapshot : option Status) (now : Z) :
  ud_isOnline (onStatusValue snapshot now) = true
  ↔ sessionsOf snapshot ≠ ∅.
Proof.
  unfold onStatusValue, hasActiveSessions, sessionsOf.
  destruct snapshot as [st|]; simpl.
  - destruct (sessions st) as [m|]; simpl; [|done].
    rewrite bool_decide_eq_true. split.
    + intros Hs ->. rewrite map_size_empty in Hs. lia.
    + intros Hne. destruct (decide (size m = 0)) as [Hz|]; [|lia].
      by apply map_size_empty_inv in Hz.
  - rewrite bool_decide_eq_true, map_size_empty. split; [lia|done].
Qed.

Lemma sessionsOf_attachFrom uid sid now snapshot rt :
  sessionsOf (statusNodes (attachFrom uid sid now snapshot rt) !! uid)
  = <[sid := true]> (sessionsOf snapshot).
Proof.
  unfold attachFrom. simpl. rewrite sessionsOf_setStatus. simpl.
  unfold withSession, sessionsOf. by destruct snapshot.
Qed.

Lemma sessionsOf_updateUserStatusFrom uid sid b now snapshot rt :
  sessionsOf
    (statusNodes (updateUserStatusFrom uid sid b now snapshot rt) !! uid)
  = <[sid := true]> (sessionsOf snapshot).
Proof.
  unfold updateUserStatusFrom. simpl. rewrite sessionsOf_setStatus.
  unfold withSession, sessionsOf.
  destruct snapshot; simpl; [done|].
  by rewrite insert_empty.
Qed.

Lemma hasActiveSessions_iff (db : gmap string Status) (uid : string) :
  hasActiveSessions (nodeAt db uid) = true ↔ sessionsOf (db !! uid) ≠ ∅.
Proof.
  rewrite <- sessionsOf_nodeAt. unfold hasActiveSessions.
  destruct (sessions (nodeAt db uid)) as [m|]; simpl; [|done].
  rewrite bool_decide_eq_true. split.
  - intros Hs ->. rewrite map_size_empty in Hs. lia.
  - intros Hne. destruct (decide (size m = 0)) as [Hz|]; [|lia].
    by apply map_size_empty_inv in Hz.
Qed.

(** X10.  Both status writes, the one of the sign-in effect and
    [updateUserStatus], read the node and then write it whole: the session
    map they store is the map of the snapshot they read with the tab's own
    key added.  So the own key is there afterwards, every key of the
    snapshot is kept, and a key that another tab added after the read is
    dropped; when nothing was written to the node between the read and
    the write, every other key of the user is kept.  The nodes of other
    users are untouched.  The sign-in write keeps the [isShitting] of the
    snapshot, [updateUserStatus] stores the flag it is given. *)
Theorem status_writes_store_the_sessions_they_read_and_their_own
    (uid sessionId : string) (b : bool) (now : Z)
    (snapshot : option Status) (rt : Realtime) :
  let signedIn := statusNodes (attachFrom uid sessionId now snapshot rt) in
  let updated :=
    statusNodes (updateUserStatusFrom uid sessionId b now snapshot rt) in
  sessionsOf (signedIn !! uid) = <[sessionId := true]> (sessionsOf snapshot)
  ∧ sessionsOf (updated !! uid)
    = <[sessionId := true]> (sessionsOf snapshot)
  ∧ (∀ k, k ≠ sessionId → sessionsOf snapshot !! k = None →
       sessionsOf (signedIn !! uid) !! k = None
       ∧ sessionsOf (updated !! uid) !! k = None)
  ∧ sessionsOf (statusNodes (attach uid sessionId now rt) !! uid)
    = <[sessionId := true]> (sessionsOf (statusNodes rt !! uid))
  ∧ sessionsOf
      (statusNodes (updateUserStatus (Some uid) sessionId b now rt) !! uid)
    = <[sessionId := true]> (sessionsOf (statusNodes rt !! uid))
  ∧ hasActiveSessions (nodeAt signedIn uid) = true
  ∧ hasActiveSessions (nodeAt updated uid) = true
  ∧ (∀ uid', uid' ≠ uid →
       signedIn !! uid' = statusNodes rt !! uid'
       ∧ updated !! uid' = statusNodes rt !! uid')
  ∧ isShitting (nodeAt updated uid) = Some b
  ∧ (∀ st, snapshot = Some st →
       isShitting (nodeAt signedIn uid) = isShitting st).
Proof.
  intros signedIn updated. subst signedIn updated.
  split; [apply sessionsOf_attachFrom|].
  split; [apply sessionsOf_updateUserStatusFrom|].
  split.
  { intros k Hk Hnone.
    rewrite sessionsOf_attachFrom, sessionsOf_updateUserStatusFrom.
    by rewrite !lookup_insert_ne. }
  split; [apply sessionsOf_attach|].
  split; [apply sessionsOf_updateUserStatus|].
  split; [apply hasActiveSessions_iff; rewrite sessionsOf_attachFrom;
          apply insert_non_empty|].
  split; [apply hasActiveSessions_iff;
          rewrite sessionsOf_updateUserStatusFrom; apply insert_non_empty|].
  split; [|split].
  - intros uid' Hne. unfold attachFrom, updateUserStatusFrom. simpl.
    by rewrite !lookup_setStatus_ne.
  - unfold updateUserStatusFrom. simpl. rewrite nodeAt_setStatus.
    by destruct snapshot.
  - intros st ->. unfold attachFrom. simpl. by rewrite nodeAt_setStatus.
Qed.

(** Two tabs that sign in at the same time: the second write stores the
    map the second tab read, so the key of the first is lost although its
    tab is open. *)
Example two_sign_ins_at_once_lose_a_session :
  sessionsOf (nodes (callRun "alice" noCalls twoSignIns) !! "alice")
    = {[ "tab2" := true ]}
  ∧ sessionsOf (nodes (callRun "alice" noCalls
                         (serial [SignIn "tab1" 1000; SignIn "tab2" 1001]))
                !! "alice")
    = {[ "tab1" := true; "tab2" := true ]}.
Proof. by vm_compute. Qed.

Lemma tabStep_sessions uid db e :
  sessionsOf (tabStep uid db e !! uid)
  = openTabs (sessionsOf (db !! uid)) [e].
Proof.
  destruct e as [sid now|sid b now|sid|sid]; simpl.
  - apply (sessionsOf_attach uid sid now
             {| statusNodes := db; onDisconnectRemove := [] |}).
  - apply (sessionsOf_updateUserStatus uid sid b now
             {| statusNodes := db; onDisconnectRemove := [] |}).
  - apply sessionsOf_removeSessionKey.
  - apply sessionsOf_removeSessionKey.
Qed.

Lemma tabStep_other uid uid' db e :
  uid' ≠ uid → tabStep uid db e !! uid' = db !! uid'.
Proof.
  intros Hne. destruct e as [sid now|sid b now|sid|sid]; simpl.
  - by apply lookup_setStatus_ne.
  - by apply lookup_setStatus_ne.
  - by apply lookup_removeSessionKey_ne.
  - by apply lookup_removeSessionKey_ne.
Qed.

Lemma serial_is_tabRun (uid : string) (events : list TabEvent)
    (w : Shared) :
  nodes (callRun uid w (serial events)) = tabRun uid (nodes w) events.
Proof.
  revert w. induction events as [|e events IH]; intros w; [done|].
  change (serial (e :: events)) with (oneByOne e ++ serial events)%list.
  change (tabRun uid (nodes w) (e :: events))
    with (tabRun uid (tabStep uid (nodes w) e) events).
  rewrite (foldl_app (callStep uid) (oneByOne e) (serial events) w
           : callRun uid w (oneByOne e ++ serial events)
             = callRun uid (callRun uid w (oneByOne e)) (serial events)).
  rewrite IH. f_equal.
  destruct e as [sid now|sid b now|sid|sid]; simpl.
  - by rewrite lookup_insert_eq.
  - by rewrite lookup_insert_eq.
  - done.
  - done.
Qed.

Lemma tabRun_sessions (uid : string) (events : list TabEvent)
    (db : gmap string Status) :
  sessionsOf (tabRun uid db events !! uid)
  = openTabs (sessionsOf (db !! uid)) events.
Proof.
  revert db. induction events as [|e events IH]; intros db; [done|].
  change (tabRun uid db (e :: events))
    with (tabRun uid (tabStep uid db e) events).
  rewrite IH, tabStep_sessions. done.
Qed.

Lemma tabRun_other (uid uid' : string) (events : list TabEvent)
    (db : gmap string Status) :
  uid' ≠ uid → tabRun uid db events !! uid' = db !! uid'.
Proof.
  intros Hne. revert db.
  induction events as [|e events IH]; intros db; [done|].
  change (tabRun uid db (e :: events))
    with (tabRun uid (tabStep uid db e) events).
  by rewrite IH, tabStep_other.
Qed.

(** X11.  The tabs of a user sign in, change the status flag, sign out
    and lose their connection one after another, nothing being written to
    the node between the read and the write of a sign-in or status
    change.  Then the stored session map is exactly the map of the tabs
    that are open: a tab is in it from its sign-in or status change until
    its sign-out or lost connection.  So a friend sees the user in the
    list of online friends exactly when some tab is open and the stored
    [lastActive] is less than five minutes old, and nothing a user's tabs
    do changes the node of another user. *)
Theorem session_map_tracks_tabs_that_write_one_after_another
    (uid viewer : string) (friends : list string) (w : Shared)
    (events : list TabEvent) (now : Z) :
  let after := nodes (callRun uid w (serial events)) in
  sessionsOf (after !! uid) = openTabs (sessionsOf (nodes w !! uid)) events
  ∧ (listed viewer friends now after uid
     ↔ uid ≠ viewer ∧ uid ∈ friends
       ∧ openTabs (sessionsOf (nodes w !! uid)) events ≠ ∅
       ∧ (now - default 0 (lastActive (nodeAt after uid)) < 300000)%Z)
  ∧ (∀ uid', uid' ≠ uid → after !! uid' = nodes w !! uid').
Proof.
  intros after. subst after. rewrite serial_is_tabRun.
  split; [apply tabRun_sessions|].
  split; [|intros uid' Hne; by apply tabRun_other].
  rewrite <- tabRun_sessions, <- hasActiveSessions_iff.
  unfold listed, listedOnline, nodeAt.
  destruct (tabRun uid (nodes w) events !! uid) as [status|]; simpl.
  - split.
    + intros (st & [= <-] & Hl).
      apply andb_true_iff in Hl as [Hl Hrecent].
      apply andb_true_iff in Hl as [Hl Hfriend].
      apply andb_true_iff in Hl as [Hself Hact].
      apply bool_decide_eq_true in Hrecent, Hfriend.
      apply negb_true_iff, String.eqb_neq in Hself. done.
    + intros (Hself & Hfriend & Hact & Hrecent). exists status.
      split; [done|].
      apply String.eqb_neq in Hself. rewrite Hself, Hact. simpl.
      by rewrite !bool_decide_eq_true_2.
  - split; [by intros (? & ? & _)|]. by intros (_ & _ & ? & _).
Qed.

Example two_tabs_one_closes :
  ud_isOnline
    (onStatusValue
       (tabRun "alice" ∅
          [SignIn "tab1" 1000; SignIn "tab2" 2000; ConnectionLost "tab1"]
        !! "alice") 3000) = true
  ∧ ud_isOnline
      (onStatusValue
         (tabRun "alice" ∅
            [SignIn "tab1" 1000; SignIn "tab2" 2000; ConnectionLost "tab1";
             SignOut "tab2"]
          !! "alice") 3000) = false.
Proof. by vm_compute. Qed.

End PresenceRunFacts.

(** ** Removing a friend *)

Section RemovalFacts.
Import Friends FriendRemoval.

Lemma lists_arrayRemove us t x owner y :
  lists (alter (arrayRemove x) t us) owner y
  ↔ lists us owner y ∧ ¬ (owner = t ∧ y = x).
Proof.
  unfold lists. rewrite lookup_alter. case_decide as Heq.
  - subst owner. destruct (us !! t) as [u|] eqn:Hu; simpl.
    + split.
      * intros (u' & [= <-] & Hy). simpl in Hy.
        apply list_elem_of_filter in Hy as [Hne Hy].
        split; [eauto|]. by intros [_ ?].
      * intros ((u' & [= <-] & Hy) & Hne). eexists. split; [done|]. simpl.
        apply list_elem_of_filter. split; [|done]. intros ->. by apply Hne.
    + split; [by intros (? & ? & _)|by intros ((? & ? & _) & _)].
  - split; [|by intros [? _]]. intros H. split; [done|].
    intros [-> _]. done.
Qed.

Lemma lists_setFriends us t (u : UserDoc) l owner y :
  lists (<[t := {| displayName := displayName u; friends := Some l |}]> us)
    owner y
  ↔ (owner = t ∧ y ∈ l) ∨ (owner ≠ t ∧ lists us owner y).
Proof.
  unfold lists. destruct (decide (owner = t)) as [->|Hne].
  - rewrite lookup_insert_eq. split.
    + intros (u' & [= <-] & Hy). by left.
    + intros [[_ Hy]|[? _]]; [|done]. eauto.
  - rewrite lookup_insert_ne by done. split; [by right|].
    by intros [[? _]|[_ ?]].
Qed.

Lemma removeFromFriends_cases fault t x fs :
  (is_Some (users fs !! t)
   ∧ removeFromFriends fault t x fs
     = ({| users := alter (arrayRemove x) t (users fs);
           friendRequests := friendRequests fs |}, Returned ()))
  ∨ ∃ message, removeFromFriends fault t x fs = (fs, Threw message).
Proof.
  unfold removeFromFriends. destruct fault; [eauto|].
  destruct (users fs !! t); eauto.
Qed.

Lemma setFriends_cases fault t l fs :
  (∃ u, users fs !! t = Some u
        ∧ setFriends fault t l fs
          = ({| users := <[t := {| displayName := displayName u;
                                   friends := Some l |}]> (users fs);
                friendRequests := friendRequests fs |}, Returned ()))
  ∨ ∃ message, setFriends fault t l fs = (fs, Threw message).
Proof.
  unfold setFriends. destruct fault; [eauto|].
  destruct (users fs !! t); eauto.
Qed.

Lemma onlyUnfriended_refl a b fs : onlyUnfriended a b fs fs.
Proof. by repeat split. Qed.

Lemma is_Some_alter {A} (f : A → A) (m : gmap string A) k w :
  is_Some (alter f k m !! w) ↔ is_Some (m !! w).
Proof.
  rewrite lookup_alter. case_decide; [subst|done].
  by rewrite fmap_is_Some.
Qed.

Lemma onlyUnfriended_own a b fs :
  onlyUnfriended a b fs
    {| users := alter (arrayRemove b) a (users fs);
       friendRequests := friendRequests fs |}.
Proof.
  split; [done|]. split; [intros w; apply is_Some_alter|]. simpl. split.
  - intros owner y H. by apply lists_arrayRemove in H as [? _].
  - intros owner y H1 H2 H. by apply lists_arrayRemove.
Qed.

Lemma onlyUnfriended_other a b fs :
  onlyUnfriended a b fs
    {| users := alter (arrayRemove a) b (users fs);
       friendRequests := friendRequests fs |}.
Proof.
  split; [done|]. split; [intros w; apply is_Some_alter|]. simpl. split.
  - intros owner y H. by apply lists_arrayRemove in H as [? _].
  - intros owner y H1 H2 H. by apply lists_arrayRemove.
Qed.

Lemma onlyUnfriended_trans a b fs1 fs2 fs3 :
  onlyUnfriended a b fs1 fs2 → onlyUnfriended a b fs2 fs3 →
  onlyUnfriended a b fs1 fs3.
Proof.
  intros (R1 & D1 & S1 & K1) (R2 & D2 & S2 & K2).
  split; [congruence|]. split; [intros w; by rewrite D2|]. split.
  - eauto.
  - eauto.
Qed.

(** The four ways the update of the other profile ends. *)
Lemma updateOtherUser_cases faults currentUser user otherUserDoc fs fs' ok :
  users fs !! user_uid user = Some otherUserDoc
  ∨ (currentUser = user_uid user
     ∧ ∃ u, users fs !! user_uid user
            = Some (arrayRemove (user_uid user) u)
          ∧ friends otherUserDoc = friends u) →
  updateOtherUser faults currentUser user otherUserDoc fs = (fs', ok) →
  onlyUnfriended currentUser (user_uid user) fs fs'
  ∧ (if ok then ¬ lists (users fs') (user_uid user) currentUser
     else fs' = fs
          ∧ currentUser ∈ default [] (friends otherUserDoc)).
Proof.
  intros Hsnap. unfold updateOtherUser.
  destruct (removeFromFriends_cases (atOtherUpdate faults) (user_uid user)
              currentUser fs) as [[Hs ->]|[m ->]].
  { intros [= <- <-]. split; [apply onlyUnfriended_other|]. simpl.
    rewrite lists_arrayRemove. by intros [_ []]. }
  simpl. case_bool_decide as Hin.
  - destruct (setFriends_cases (atAlternativeUpdate faults) (user_uid user)
                (filter (λ friendId, friendId ≠ currentUser)
                   (default [] (friends otherUserDoc))) fs)
      as [(u & Hu & ->)|[m' ->]].
    + intros [= <- <-]. simpl. split.
      * split; [done|]. split.
        { intros w. simpl. destruct (decide (w = user_uid user)) as [->|].
          - rewrite lookup_insert_eq, Hu. split; eauto.
          - by rewrite lookup_insert_ne. }
        simpl.
        assert (∀ y, y ∈ default [] (friends otherUserDoc) → y ≠ currentUser
                     → lists (users fs) (user_uid user) y) as Hold.
        { intros y Hy Hne. destruct Hsnap as [Hs|(-> & u0 & Hs & Hf)].
          - exists otherUserDoc. by split.
          - eexists. split; [exact Hs|]. simpl. rewrite Hf in Hy.
            apply list_elem_of_filter. by split. }
        assert (∀ y, lists (users fs) (user_uid user) y →
                     y ∈ default [] (friends otherUserDoc)) as Hnew.
        { intros y (u0 & Hu0 & Hy).
          destruct Hsnap as [Hs|(-> & u1 & Hs & Hf)].
          - congruence.
          - rewrite Hs in Hu0. injection Hu0 as <-. simpl in Hy.
            apply list_elem_of_filter in Hy as [_ Hy]. by rewrite Hf. }
        split.
        -- intros owner y H. apply lists_setFriends in H as [[-> Hy]|[_ H]];
             [|done].
           apply list_elem_of_filter in Hy as [Hne Hy]. by apply Hold.
        -- intros owner y H1 H2 H. apply lists_setFriends.
           destruct (decide (owner = user_uid user)) as [->|Hne];
             [left|by right].
           split; [done|]. apply list_elem_of_filter. split.
           ++ intros ->. by apply H2.
           ++ by apply Hnew.
      * rewrite lists_setFriends. intros [[_ Hy]|[? _]]; [|done].
        by apply list_elem_of_filter in Hy as [? _].
    + intros [= <- <-]. split; [apply onlyUnfriended_refl|]. done.
  - intros [= <- <-]. split; [apply onlyUnfriended_refl|].
    intros (u0 & Hu0 & Hy). apply Hin.
    destruct Hsnap as [Hs|(-> & u1 & Hs & Hf)].
    + congruence.
    + rewrite Hs in Hu0. injection Hu0 as <-. simpl in Hy.
      by apply list_elem_of_filter in Hy as [? _].
Qed.

Lemma removeFriendBody_cases faults currentUser user fs fs' r :
  removeFriendBody faults currentUser user fs = (fs', r) →
  match r with
  | Returned ok =>
      onlyUnfriended currentUser (user_uid user) fs fs'
      ∧ ¬ lists (users fs') currentUser (user_uid user)
      ∧ (if ok then ¬ lists (users fs') (user_uid user) currentUser
         else currentUser ≠ user_uid user →
              lists (users fs') (user_uid user) currentUser)
  | Threw _ => fs' = fs
  end.
Proof.
  unfold removeFriendBody, mbind, Op_bind, getUserOrThrow.
  destruct (users fs !! user_uid user) as [otherUserDoc|] eqn:Hother;
    [|by intros [= <- <-]].
  destruct (removeFromFriends_cases (atOwnUpdate faults) currentUser
              (user_uid user) fs) as [[Hs ->]|[m ->]];
    [|by intros [= <- <-]].
  set (fs1 := {| users := alter (arrayRemove (user_uid user)) currentUser
                            (users fs);
                 friendRequests := friendRequests fs |}).
  destruct (updateOtherUser faults currentUser user otherUserDoc fs1)
    as [fs2 ok] eqn:Hupd.
  intros [= <- <-].
  assert (¬ lists (users fs1) currentUser (user_uid user)) as Hown.
  { simpl. rewrite lists_arrayRemove. by intros [_ []]. }
  apply updateOtherUser_cases in Hupd as [Hframe Hok].
  - split; [eapply onlyUnfriended_trans;
            [apply onlyUnfriended_own|exact Hframe]|].
    split.
    { intros H. apply Hown. by apply Hframe in H. }
    destruct ok; [done|]. destruct Hok as [-> Hin]. intros Hne. simpl.
    apply lists_arrayRemove. split.
    + exists otherUserDoc. by split.
    + intros [Heq _]. by apply Hne.
  - simpl. rewrite lookup_alter. case_decide as Heq.
    + right. split; [done|]. rewrite Heq, Hother. simpl. eauto.
    + left. done.
Qed.

Lemma truthyFlag_hasFriend us owner (data : UserDoc) x :
  us !! owner = Some data →
  truthyFlag (hasFriend data x) = true ↔ lists us owner x.
Proof.
  intros Hdata. unfold truthyFlag, hasFriend, lists.
  destruct (friends data) as [l|] eqn:Hl; simpl.
  - rewrite bool_decide_eq_true. split.
    + intros Hx. exists data. by rewrite Hl.
    + intros (u & Hu & Hx). rewrite Hdata in Hu. injection Hu as <-.
      by rewrite Hl in Hx.
  - split; [done|]. intros (u & Hu & Hx). rewrite Hdata in Hu.
    injection Hu as <-. rewrite Hl in Hx. by apply elem_of_nil in Hx.
Qed.

Lemma fixInconsistency_cases faults currentUser other fs fs' fixed :
  fixInconsistency faults currentUser other fs = (fs', fixed) →
  onlyUnfriended currentUser other fs fs'
  ∧ (if fixed
     then neitherLists (users fs') currentUser other
          ∧ ¬ (lists (users fs) currentUser other
               ∧ lists (users fs) other currentUser)
     else fs' = fs).
Proof.
  unfold fixInconsistency.
  destruct (users fs !! currentUser) as [cu|] eqn:Hcu;
    [|intros [= <- <-]; split; [apply onlyUnfriended_refl|done]].
  destruct (users fs !! other) as [ou|] eqn:Hou;
    [|intros [= <- <-]; split; [apply onlyUnfriended_refl|done]].
  cbv zeta. case_bool_decide as Hdiff;
    [|intros [= <- <-]; split; [apply onlyUnfriended_refl|done]].
  pose proof (truthyFlag_hasFriend _ _ _ other Hcu) as Tcu.
  pose proof (truthyFlag_hasFriend _ _ _ currentUser Hou) as Tou.
  unfold mbind, Op_bind, mret, Op_ret.
  destruct (truthyFlag (hasFriend cu other)) eqn:Fcu;
    destruct (truthyFlag (hasFriend ou currentUser)) eqn:Fou.
  - exfalso. apply Hdiff. unfold truthyFlag in Fcu, Fou.
    destruct (hasFriend cu other) as [[]|], (hasFriend ou currentUser)
      as [[]|]; simpl in *; congruence.
  - destruct (removeFromFriends_cases (atFixOwn faults) currentUser other fs)
      as [[_ ->]|[m ->]]; intros [= <- <-];
      [|split; [apply onlyUnfriended_refl|done]].
    split; [apply onlyUnfriended_own|]. simpl. split; [split|].
    + rewrite lists_arrayRemove. by intros [_ []].
    + rewrite lists_arrayRemove. intros [H _]. apply Tou in H. done.
    + intros [_ H]. apply Tou in H. done.
  - destruct (removeFromFriends_cases (atFixOther faults) other currentUser
                fs) as [[_ ->]|[m ->]]; intros [= <- <-];
      [|split; [apply onlyUnfriended_refl|done]].
    split; [apply onlyUnfriended_other|]. simpl. split; [split|].
    + rewrite lists_arrayRemove. intros [H _]. apply Tcu in H. done.
    + rewrite lists_arrayRemove. by intros [_ []].
    + intros [H _]. apply Tcu in H. done.
  - intros [= <- <-]. split; [apply onlyUnfriended_refl|].
    split; [split|].
    + intros H. apply Tcu in H. done.
    + intros H. apply Tou in H. done.
    + intros [H _]. apply Tcu in H. done.
Qed.

(** X12.  The outcome of [removeFriend] tells the state it leaves.  After
    the plain success banner neither profile lists the other.  After the
    banner that warns about the other side the caller's profile no longer
    lists the friend, whose profile still lists the caller.  After a failure
    without repair the store is as before the call; after a failure with
    the banner 'Fixed inconsistent friendship state' neither profile lists
    the other, and that banner is never reached from a friendship that both
    profiles listed before the call. *)
Theorem removeFriend_outcome_tells_the_state_it_leaves (faults : Faults)
    (currentUser : string) (user : User) (fs : Firestore) :
  let '(fs', o) := removeFriendOutcome faults currentUser user fs in
  match o with
  | Removed => neitherLists (users fs') currentUser (user_uid user)
  | RemovedOwnSideOnly =>
      ¬ isFriendOf fs' currentUser (user_uid user)
      ∧ (currentUser ≠ user_uid user →
         isFriendOf fs' (user_uid user) currentUser)
  | Failed _ false => fs' = fs
  | Failed _ true =>
      neitherLists (users fs') currentUser (user_uid user)
      ∧ ¬ mutualFriends fs currentUser (user_uid user)
  end.
Proof.
  unfold removeFriendOutcome.
  destruct (removeFriendBody faults currentUser user fs) as [fs1 r] eqn:Hbody.
  apply removeFriendBody_cases in Hbody.
  destruct r as [[]|message].
  - by destruct Hbody as (_ & ? & ?).
  - by destruct Hbody as (_ & ? & ?).
  - subst fs1.
    destruct (fixInconsistency faults currentUser (user_uid user) fs)
      as [fs2 fixed] eqn:Hfix.
    apply fixInconsistency_cases in Hfix as [_ Hfix].
    by destruct fixed.
Qed.

(** X13.  Whatever happens, [removeFriend] takes nothing from the store but
    the two ids, each from the other's [friends] array: it adds nobody to
    any array, keeps every other entry of every array, creates and deletes
    no profile and leaves the friend requests alone. *)
Theorem removeFriend_touches_only_the_two_ids (faults : Faults)
    (currentUser : string) (user : User) (fs : Firestore) :
  let fs' := (removeFriend faults currentUser user fs).1 in
  friendRequests fs' = friendRequests fs
  ∧ (∀ w, is_Some (users fs' !! w) ↔ is_Some (users fs !! w))
  ∧ (∀ owner y, isFriendOf fs' owner y → isFriendOf fs owner y)
  ∧ (∀ owner y,
       ¬ (owner = currentUser ∧ y = user_uid user) →
       ¬ (owner = user_uid user ∧ y = currentUser) →
       isFriendOf fs owner y → isFriendOf fs' owner y).
Proof.
  intros fs'. subst fs'. unfold removeFriend, removeFriendOutcome.
  destruct (removeFriendBody faults currentUser user fs) as [fs1 r] eqn:Hbody.
  apply removeFriendBody_cases in Hbody.
  destruct r as [[]|message].
  - by destruct Hbody as (? & _).
  - by destruct Hbody as (? & _).
  - subst fs1.
    destruct (fixInconsistency faults currentUser (user_uid user) fs)
      as [fs2 fixed] eqn:Hfix.
    by apply fixInconsistency_cases in Hfix as [? _].
Qed.

Example removeFriend_plain :
  removeFriend noFaults "alice" bob friendsAliceBob
  = ({| users :=
          {[ "alice" := {| displayName := "Alice";
                           friends := Some ["carol"] |};
             "bob" := {| displayName := "Bob"; friends := Some [] |};
             "carol" := {| displayName := "Carol";
                           friends := Some ["alice"] |} ]};
        friendRequests := ∅ |},
     {| error := ""; success := "Bob removed from your friends" |}).
Proof. by vm_compute. Qed.

Example removeFriend_other_profile_locked :
  let '(fs', o) :=
    removeFriendOutcome otherProfileLocked "alice" bob friendsAliceBob in
  o = RemovedOwnSideOnly
  ∧ ¬ isFriendOf fs' "alice" "bob" ∧ isFriendOf fs' "bob" "alice".
Proof.
  vm_compute. split; [done|]. split.
  - intros (u & [= <-] & H). simpl in H. by apply list_elem_of_singleton in H.
  - eexists. split; [done|]. simpl. by left.
Qed.

(** The repair removes the one remaining entry after a failed call ... *)
Example removeFriend_repairs_one_sided :
  removeFriend ownUpdateFails "alice" bob oneSided
  = ({| users :=
          {[ "alice" := {| displayName := "Alice"; friends := Some [] |};
             "bob" := {| displayName := "Bob"; friends := Some [] |} ]};
        friendRequests := ∅ |},
     {| error := "Failed to remove friend: unavailable";
        success := "Fixed inconsistent friendship state" |}).
Proof. by vm_compute. Qed.

(** ... and reports a repair without writing anything when one profile has
    no [friends] field and the other an array without the id: [undefined]
    and [false] are different values for [!==]. *)
Example removeFriend_reports_repair_without_a_write :
  removeFriend ownUpdateFails "alice" bob strangers
  = (strangers,
     {| error := "Failed to remove friend: unavailable";
        success := "Fixed inconsistent friendship state" |}).
Proof. by vm_compute. Qed.

End RemovalFacts.

(** ** Requests and friends arrays over a series of calls *)

Section RequestFacts.
Import Friends FriendRemoval FriendRequests.

(** Every pending request of [after] is the same document in [before]. *)
Lemma no_new_pending_keeps (before after : Firestore) :
  (∀ i r, friendRequests after !! i = Some r → status r = pending →
          friendRequests before !! i = Some r) →
  onePendingPerPair before → onePendingPerPair after.
Proof.
  intros Hold Hinv i j ri rj Hi Hj Pi Pj Hsame.
  eapply Hinv; eauto.
Qed.

Lemma updateRequestStatus_no_new_pending fault rid newStatus fs i r :
  newStatus ≠ pending →
  friendRequests (updateRequestStatus fault rid newStatus fs).1 !! i = Some r →
  status r = pending → friendRequests fs !! i = Some r.
Proof.
  intros Hne. unfold updateRequestStatus.
  destruct fault; [done|].
  destruct (friendRequests fs !! rid) as [r0|] eqn:Hr0; [|done]. simpl.
  destruct (decide (i = rid)) as [->|Hi].
  - rewrite lookup_insert_eq. intros [= <-]. done.
  - by rewrite lookup_insert_ne.
Qed.

Lemma acceptRequestDoc_is_update fault rid :
  acceptRequestDoc fault rid = updateRequestStatus fault rid accepted.
Proof. done. Qed.

Lemma commit_requests fault batch fs :
  friendRequests (commit fault batch fs).1 = friendRequests fs.
Proof.
  unfold commit. destruct fault; [done|]. by destruct (forallb _ _).
Qed.

Lemma addFriend_requests fault t x fs :
  friendRequests (addFriend fault t x fs).1 = friendRequests fs.
Proof.
  unfold addFriend. destruct fault; [done|]. by destruct (users fs !! t).
Qed.

Lemma acceptRequestDoc_users fault rid fs :
  users (acceptRequestDoc fault rid fs).1 = users fs.
Proof.
  unfold acceptRequestDoc. destruct fault; [done|].
  by destruct (friendRequests fs !! rid).
Qed.

(** The requests after either version of [acceptFriendRequest] are those
    after its first write. *)
Lemma acceptFriendRequest_requests faults currentUser request fs :
  friendRequests (acceptFriendRequest faults currentUser request fs).1
  = friendRequests
      (acceptRequestDoc (atRequestUpdate faults) (id request) fs).1.
Proof.
  unfold acceptFriendRequest, acceptFriendRequestBody, mbind, Op_bind.
  destruct (acceptRequestDoc (atRequestUpdate faults) (id request) fs)
    as [fs1 [[]|m]]; [|done]. unfold getUserOrThrow.
  destruct (users fs1 !! currentUser); [|done].
  destruct (users fs1 !! sender_uid request); [|done].
  cbv zeta.
  match goal with
  | |- context [commit ?f ?b fs1] =>
      pose proof (commit_requests f b fs1) as Hc;
      destruct (commit f b fs1) as [fs2 r]
  end.
  done.
Qed.

Lemma sequential_requests faults currentUser request fs :
  friendRequests
    (Sequential.acceptFriendRequest faults currentUser request fs).1
  = friendRequests
      (acceptRequestDoc (Sequential.atRequestUpdate faults) (id request)
         fs).1.
Proof.
  unfold Sequential.acceptFriendRequest, Sequential.acceptFriendRequestBody,
    mbind, Op_bind.
  destruct (acceptRequestDoc (Sequential.atRequestUpdate faults)
              (id request) fs) as [fs1 [[]|m]]; [|done].
  pose proof (addFriend_requests (Sequential.atCurrentUserUpdate faults)
                currentUser (sender_uid request) fs1) as H1.
  destruct (addFriend (Sequential.atCurrentUserUpdate faults) currentUser
              (sender_uid request) fs1) as [fs2 [[]|m]]; [|done].
  pose proof (addFriend_requests (Sequential.atSenderUpdate faults)
                (sender_uid request) currentUser fs2) as H2.
  destruct (addFriend (Sequential.atSenderUpdate faults)
              (sender_uid request) currentUser fs2) as [fs3 r].
  simpl in *. congruence.
Qed.

Lemma pendingQuery_empty sender receiver fs i r :
  pendingQuery sender receiver fs = [] →
  friendRequests fs !! i = Some r → status r = pending →
  ¬ (senderId r = sender ∧ receiverId r = receiver).
Proof.
  intros Hempty Hi Hp [Hs Hr].
  assert ((i, r) ∈ pendingQuery sender receiver fs) as Hin.
  { apply list_elem_of_filter. split; [done|].
    by apply elem_of_map_to_list. }
  rewrite Hempty in Hin. by apply elem_of_nil in Hin.
Qed.

Lemma sendFriendRequest_keeps faults currentUser user requestId fs :
  atCheck faults = None →
  onePendingPerPair fs →
  onePendingPerPair
    (sendFriendRequest faults currentUser user requestId fs).1.
Proof.
  intros Hcheck Hinv. unfold sendFriendRequest.
  destruct (users fs !! user_uid user); [|done].
  unfold existingRequestError. rewrite Hcheck.
  case_bool_decide as Hsent; [done|].
  case_bool_decide as Hreceived; [done|].
  destruct (alreadyFriends _ _ _); [done|].
  destruct (atWrite faults) as [writeErr|].
  { by destruct (String.eqb _ _). }
  assert (pendingQuery currentUser (user_uid user) fs = []) as Es.
  { by destruct (pendingQuery currentUser (user_uid user) fs). }
  assert (pendingQuery (user_uid user) currentUser fs = []) as Er.
  { by destruct (pendingQuery (user_uid user) currentUser fs). }
  simpl. intros i j ri rj Hi Hj Pi Pj Hsame. simpl in Hi, Hj.
  destruct (decide (i = requestId)) as [->|Ni];
    destruct (decide (j = requestId)) as [->|Nj]; [done| | |].
  - rewrite lookup_insert_eq in Hi. injection Hi as <-.
    rewrite lookup_insert_ne in Hj by done. simpl in Hsame. exfalso.
    destruct Hsame as [[Hs Hr]|[Hs Hr]].
    + by apply (pendingQuery_empty _ _ _ _ _ Es Hj Pj).
    + by apply (pendingQuery_empty _ _ _ _ _ Er Hj Pj).
  - rewrite lookup_insert_eq in Hj. injection Hj as <-.
    rewrite lookup_insert_ne in Hi by done. simpl in Hsame. exfalso.
    destruct Hsame as [[Hs Hr]|[Hs Hr]].
    + by apply (pendingQuery_empty _ _ _ _ _ Es Hi Pi).
    + by apply (pendingQuery_empty _ _ _ _ _ Er Hi Pi).
  - rewrite lookup_insert_ne in Hi, Hj by done. eauto.
Qed.

Lemma removeFriend_frame faults currentUser user fs :
  onlyUnfriended currentUser (user_uid user) fs
    (removeFriend faults currentUser user fs).1.
Proof.
  unfold removeFriend, removeFriendOutcome.
  destruct (removeFriendBody faults currentUser user fs) as [fs1 r] eqn:Hbody.
  apply removeFriendBody_cases in Hbody.
  destruct r as [[]|m].
  - by destruct Hbody as (? & _).
  - by destruct Hbody as (? & _).
  - subst fs1.
    destruct (fixInconsistency faults currentUser (user_uid user) fs)
      as [fs2 fixed] eqn:Hfix.
    by apply fixInconsistency_cases in Hfix as [? _].
Qed.

Lemma act_keeps_onePendingPerPair fs a :
  checkAnswered a → onePendingPerPair fs → onePendingPerPair (act fs a).
Proof.
  destruct a as [faults cu user rid|faults cu request|faults cu request
                |fault request|fault request name|faults cu user];
    simpl; intros Hcheck Hinv.
  - by apply sendFriendRequest_keeps.
  - apply (no_new_pending_keeps fs); [|done]. intros i r.
    rewrite acceptFriendRequest_requests, acceptRequestDoc_is_update.
    by apply updateRequestStatus_no_new_pending.
  - apply (no_new_pending_keeps fs); [|done]. intros i r.
    rewrite sequential_requests, acceptRequestDoc_is_update.
    by apply updateRequestStatus_no_new_pending.
  - apply (no_new_pending_keeps fs); [|done]. intros i r.
    unfold rejectFriendRequest.
    pose proof (updateRequestStatus_no_new_pending fault (id request)
                  rejected fs i r) as H.
    destruct (updateRequestStatus fault (id request) rejected fs)
      as [fs' [[]|m]]; by apply H.
  - apply (no_new_pending_keeps fs); [|done]. intros i r.
    unfold cancelFriendRequest.
    pose proof (updateRequestStatus_no_new_pending fault (id request)
                  cancelled fs i r) as H.
    destruct (updateRequestStatus fault (id request) cancelled fs)
      as [fs' [[]|m]]; by apply H.
  - apply (no_new_pending_keeps fs); [|done]. intros i r.
    destruct (removeFriend_frame faults cu user fs) as [-> _]. done.
Qed.

(** X14.  Through any series of calls of the friends page (sending,
    accepting in either version, rejecting, cancelling, removing a friend)
    in which the queries of each [sendFriendRequest] are answered, no two
    pending requests are ever between the same two users, in either
    direction, if that was so at the start. *)
Theorem friends_page_keeps_one_pending_request_per_pair (fs : Firestore)
    (actions : list Action) :
  Forall checkAnswered actions →
  onePendingPerPair fs → onePendingPerPair (run fs actions).
Proof.
  intros Hchecks. revert fs.
  induction Hchecks as [|a actions Ha _ IH]; intros fs Hinv; [done|].
  apply IH. by apply act_keeps_onePendingPerPair.
Qed.

Lemma friends_page_keeps_one_pending_request_per_pair_witness :
  onePendingPerPair
    (run aliceAndBob
       [Send sendOk "bob" alice "request1";
        Send sendOk "alice" bob "request2";
        Reject None {| id := "request1"; sender_uid := "bob";
                       sender_displayName := "Bob" |};
        Send sendOk "alice" bob "request3";
        Send sendOk "bob" alice "request4"]).
Proof.
  apply friends_page_keeps_one_pending_request_per_pair.
  - repeat constructor.
  - intros i j ri rj Hi. simpl in Hi. by rewrite lookup_empty in Hi.
Defined.

(** The second [Send] of the witness is refused, the last one too. *)
Example second_request_is_refused :
  friendRequests
    (run aliceAndBob
       [Send sendOk "bob" alice "request1";
        Send sendOk "alice" bob "request2";
        Reject None {| id := "request1"; sender_uid := "bob";
                       sender_displayName := "Bob" |};
        Send sendOk "alice" bob "request3";
        Send sendOk "bob" alice "request4"])
  = {[ "request1" := {| senderId := "bob"; receiverId := "alice";
                        status := rejected |};
       "request3" := {| senderId := "alice"; receiverId := "bob";
                        status := pending |} ]}.
Proof. by vm_compute. Qed.

(** When the queries fail the call goes on and writes a second pending
    request. *)
Example unanswered_check_lets_a_duplicate_through :
  friendRequests
    (run aliceAndBob
       [Send sendOk "bob" alice "request1";
        Send queriesFail "bob" alice "request2"])
  = {[ "request1" := {| senderId := "bob"; receiverId := "alice";
                        status := pending |};
       "request2" := {| senderId := "bob"; receiverId := "alice";
                        status := pending |} ]}.
Proof. by vm_compute. Qed.

Lemma shrinks_refl fs : shrinks fs fs.
Proof. intros w u Hu. eauto. Qed.

Lemma shrinks_trans fs1 fs2 fs3 :
  shrinks fs1 fs2 → shrinks fs2 fs3 → shrinks fs1 fs3.
Proof.
  intros H12 H23 w u3 Hu3.
  destruct (H23 _ _ Hu3) as (u2 & Hu2 & S23).
  destruct (H12 _ _ Hu2) as (u1 & Hu1 & S12).
  exists u1. split; [done|]. by etrans.
Qed.

Lemma shrinks_NoDup before after :
  shrinks before after → friendsNoDup before → friendsNoDup after.
Proof.
  intros Hs Hnd w u' Hu'. destruct (Hs _ _ Hu') as (u & Hu & Hsub).
  eapply sublist_NoDup; [|exact Hsub]. eauto.
Qed.

Lemma removeFromFriends_shrinks fault t x fs :
  shrinks fs (removeFromFriends fault t x fs).1.
Proof.
  destruct (removeFromFriends_cases fault t x fs) as [[_ ->]|[m ->]];
    [|apply shrinks_refl].
  intros w u'. simpl. rewrite lookup_alter. case_decide as Heq.
  - subst w. destruct (users fs !! t) as [u|]; [|done]. simpl.
    intros [= <-]. exists u. split; [done|]. simpl. apply sublist_filter.
  - eauto.
Qed.

Lemma updateOtherUser_shrinks faults currentUser user otherUserDoc fs0 fs :
  users fs0 !! user_uid user = Some otherUserDoc →
  shrinks fs0 fs →
  shrinks fs0 (updateOtherUser faults currentUser user otherUserDoc fs).1.
Proof.
  intros Hsnap H0. unfold updateOtherUser.
  pose proof (removeFromFriends_shrinks (atOtherUpdate faults)
                (user_uid user) currentUser fs) as H1.
  destruct (removeFromFriends_cases (atOtherUpdate faults) (user_uid user)
              currentUser fs) as [[_ Hr]|[m Hr]]; rewrite Hr in H1 |- *.
  { eapply shrinks_trans; [exact H0|exact H1]. }
  simpl. case_bool_decide; [|done].
  destruct (setFriends_cases (atAlternativeUpdate faults) (user_uid user)
              (filter (λ friendId, friendId ≠ currentUser)
                 (default [] (friends otherUserDoc))) fs)
    as [(u & Hu & ->)|[m' ->]]; [|done].
  intros w u'. simpl. destruct (decide (w = user_uid user)) as [->|Hne].
  - rewrite lookup_insert_eq. intros [= <-]. exists otherUserDoc.
    split; [done|]. simpl. apply sublist_filter.
  - rewrite lookup_insert_ne by done. apply H0.
Qed.

Lemma removeFriend_shrinks faults currentUser user fs :
  shrinks fs (removeFriend faults currentUser user fs).1.
Proof.
  assert (∀ fs1, shrinks fs1
                   (fixInconsistency faults currentUser (user_uid user)
                      fs1).1) as Hfix.
  { intros fs1. unfold fixInconsistency.
    destruct (users fs1 !! currentUser); [|apply shrinks_refl].
    destruct (users fs1 !! user_uid user); [|apply shrinks_refl].
    cbv zeta. case_bool_decide; [|apply shrinks_refl].
    unfold mbind, Op_bind, mret, Op_ret.
    destruct (truthyFlag _).
    - pose proof (removeFromFriends_shrinks (atFixOwn faults) currentUser
                    (user_uid user) fs1) as H1.
      destruct (removeFromFriends (atFixOwn faults) currentUser
                  (user_uid user) fs1) as [fs2 [[]|m]]; [|done].
      destruct (truthyFlag _); [|done].
      pose proof (removeFromFriends_shrinks (atFixOther faults)
                    (user_uid user) currentUser fs2) as H2.
      destruct (removeFromFriends (atFixOther faults) (user_uid user)
                  currentUser fs2) as [fs3 [[]|m]];
        by eapply shrinks_trans.
    - destruct (truthyFlag _); [|apply shrinks_refl].
      pose proof (removeFromFriends_shrinks (atFixOther faults)
                    (user_uid user) currentUser fs1) as H2.
      by destruct (removeFromFriends (atFixOther faults) (user_uid user)
                     currentUser fs1) as [fs3 [[]|m]]. }
  unfold removeFriend, removeFriendOutcome, removeFriendBody, mbind, Op_bind,
    getUserOrThrow.
  destruct (users fs !! user_uid user) as [otherUserDoc|] eqn:Hother.
  - pose proof (removeFromFriends_shrinks (atOwnUpdate faults) currentUser
                  (user_uid user) fs) as H1.
    destruct (removeFromFriends (atOwnUpdate faults) currentUser
                (user_uid user) fs) as [fs1 [[]|m]]; simpl in H1.
    + pose proof (updateOtherUser_shrinks faults currentUser user
                    otherUserDoc fs fs1 Hother H1) as H2.
      destruct (updateOtherUser faults currentUser user otherUserDoc fs1)
        as [fs2 []]; done.
    + specialize (Hfix fs1).
      destruct (fixInconsistency faults currentUser (user_uid user) fs1)
        as [fs2 fixed]. by eapply shrinks_trans.
  - specialize (Hfix fs).
    by destruct (fixInconsistency faults currentUser (user_uid user) fs)
      as [fs2 fixed].
Qed.

Lemma arrayUnion_NoDup x (u : UserDoc) :
  NoDup (default [] (friends u)) →
  NoDup (default [] (friends (arrayUnion x u))).
Proof.
  intros Hnd. unfold arrayUnion. simpl. case_bool_decide as Hin; [done|].
  apply NoDup_app. split; [done|]. split.
  - intros y Hy ->%list_elem_of_singleton. done.
  - apply NoDup_singleton.
Qed.

Lemma alter_arrayUnion_NoDup x k (us : gmap string UserDoc) :
  (∀ w u, us !! w = Some u → NoDup (default [] (friends u))) →
  ∀ w u, alter (arrayUnion x) k us !! w = Some u →
         NoDup (default [] (friends u)).
Proof.
  intros Hnd w u'. rewrite lookup_alter. case_decide as Heq.
  - subst w. destruct (us !! k) as [u|] eqn:Hu; [|done]. simpl.
    intros [= <-]. apply arrayUnion_NoDup. eauto.
  - eauto.
Qed.

Lemma commit_NoDup fault batch fs :
  friendsNoDup fs → friendsNoDup (commit fault batch fs).1.
Proof.
  unfold commit. destruct fault; [done|].
  destruct (forallb _ _); [|done]. unfold friendsNoDup. simpl.
  generalize (users fs). induction batch as [|w batch IH]; intros us Hnd.
  - done.
  - simpl. apply IH. by apply alter_arrayUnion_NoDup.
Qed.

Lemma addFriend_NoDup fault t x fs :
  friendsNoDup fs → friendsNoDup (addFriend fault t x fs).1.
Proof.
  unfold addFriend. destruct fault; [done|].
  destruct (users fs !! t) as [u|] eqn:Hu; [|done]. simpl.
  intros Hnd w u'. simpl. destruct (decide (w = t)) as [->|Hne].
  - rewrite lookup_insert_eq. intros [= <-]. apply arrayUnion_NoDup. eauto.
  - rewrite lookup_insert_ne by done. eauto.
Qed.

Lemma same_users_NoDup fs fs' :
  users fs' = users fs → friendsNoDup fs → friendsNoDup fs'.
Proof. intros Heq Hnd w u. rewrite Heq. apply Hnd. Qed.

Lemma updateRequestStatus_users fault rid newStatus fs :
  users (updateRequestStatus fault rid newStatus fs).1 = users fs.
Proof.
  unfold updateRequestStatus. destruct fault; [done|].
  by destruct (friendRequests fs !! rid).
Qed.

Lemma sendFriendRequest_users faults currentUser user requestId fs :
  users (sendFriendRequest faults currentUser user requestId fs).1
  = users fs.
Proof.
  unfold sendFriendRequest.
  destruct (users fs !! user_uid user); [|done].
  destruct (existingRequestError _ _ _ _); [done|].
  destruct (alreadyFriends _ _ _); [done|].
  destruct (atWrite faults); [|done]. by destruct (String.eqb _ _).
Qed.

Lemma act_keeps_friendsNoDup fs a :
  friendsNoDup fs → friendsNoDup (act fs a).
Proof.
  intros Hnd.
  destruct a as [faults cu user rid|faults cu request|faults cu request
                |fault request|fault request name|faults cu user]; simpl.
  - eapply same_users_NoDup; [apply sendFriendRequest_users|done].
  - unfold acceptFriendRequest, acceptFriendRequestBody, mbind, Op_bind.
    pose proof (acceptRequestDoc_users (atRequestUpdate faults)
                  (id request) fs) as H1.
    destruct (acceptRequestDoc (atRequestUpdate faults) (id request) fs)
      as [fs1 [[]|m]]; simpl in H1;
      [|by eapply same_users_NoDup].
    assert (friendsNoDup fs1) as Hnd1 by by eapply same_users_NoDup.
    unfold getUserOrThrow.
    destruct (users fs1 !! cu); [|done].
    destruct (users fs1 !! sender_uid request); [|done].
    cbv zeta.
    match goal with
    | |- context [commit ?f ?b fs1] =>
        pose proof (commit_NoDup f b fs1 Hnd1) as Hc;
        destruct (commit f b fs1) as [fs2 r]
    end.
    done.
  - unfold Sequential.acceptFriendRequest,
      Sequential.acceptFriendRequestBody, mbind, Op_bind.
    pose proof (acceptRequestDoc_users (Sequential.atRequestUpdate faults)
                  (id request) fs) as H1.
    destruct (acceptRequestDoc (Sequential.atRequestUpdate faults)
                (id request) fs) as [fs1 [[]|m]]; simpl in H1;
      [|by eapply same_users_NoDup].
    assert (friendsNoDup fs1) as Hnd1 by by eapply same_users_NoDup.
    pose proof (addFriend_NoDup (Sequential.atCurrentUserUpdate faults) cu
                  (sender_uid request) fs1 Hnd1) as H2.
    destruct (addFriend (Sequential.atCurrentUserUpdate faults) cu
                (sender_uid request) fs1) as [fs2 [[]|m]]; [|done].
    pose proof (addFriend_NoDup (Sequential.atSenderUpdate faults)
                  (sender_uid request) cu fs2 H2) as H3.
    by destruct (addFriend (Sequential.atSenderUpdate faults)
                   (sender_uid request) cu fs2) as [fs3 r].
  - unfold rejectFriendRequest.
    pose proof (updateRequestStatus_users fault (id request) rejected fs)
      as H.
    destruct (updateRequestStatus fault (id request) rejected fs)
      as [fs' [[]|m]]; by eapply same_users_NoDup.
  - unfold cancelFriendRequest.
    pose proof (updateRequestStatus_users fault (id request) cancelled fs)
      as H.
    destruct (updateRequestStatus fault (id request) cancelled fs)
      as [fs' [[]|m]]; by eapply same_users_NoDup.
  - eapply shrinks_NoDup; [apply removeFriend_shrinks|done].
Qed.

(** X15.  No call of the friends page puts an id twice into a [friends]
    array: if no array holds an id twice at the start, none does after any
    series of calls, whatever the platform errors.  And [removeFriend]
    keeps the order of the entries it leaves: each array after the call is
    the array before with some entries taken out. *)
Theorem friends_arrays_stay_free_of_duplicates (fs : Firestore)
    (actions : list Action) :
  friendsNoDup fs →
  friendsNoDup (run fs actions)
  ∧ ∀ faults currentUser user,
      shrinks (run fs actions)
        (act (run fs actions) (Remove faults currentUser user)).
Proof.
  intros Hnd. split.
  - revert fs Hnd. induction actions as [|a actions IH]; intros fs Hnd;
      [done|].
    apply IH. by apply act_keeps_friendsNoDup.
  - intros faults currentUser user. apply removeFriend_shrinks.
Qed.

Lemma friends_arrays_stay_free_of_duplicates_witness :
  friendsNoDup
    (run aliceAndBob
       [Send sendOk "bob" alice "request1";
        Accept Friends.noFaults "alice"
          {| id := "request1"; sender_uid := "bob";
             sender_displayName := "Bob" |};
        AcceptSequential senderUpdateFails "alice"
          {| id := "request1"; sender_uid := "bob";
             sender_displayName := "Bob" |};
        Remove otherProfileLocked "alice" bob]).
Proof.
  apply friends_arrays_stay_free_of_duplicates.
  intros w u. unfold aliceAndBob. simpl. intros Hu.
  apply lookup_insert_Some in Hu as [[_ <-]|[_ Hu]]; [constructor|].
  apply lookup_singleton_Some in Hu as [_ <-]. constructor.
Defined.

End RequestFacts.

(** ** What the caches serve, and to whom *)

Section CacheUseFacts.
Import CacheUse.

Lemma split_at_bar (x y r1 r2 : string) :
  hasBar x = false → hasBar y = false → tailOfJoin r1 → tailOfJoin r2 →
  (x ++ r1 = y ++ r2)%string → x = y ∧ r1 = r2.
Proof.
  revert y. induction x as [|a x IH]; intros [|b y] Hx Hy T1 T2 Heq;
    simpl in *.
  - done.
  - exfalso. apply orb_false_iff in Hy as [Hb _].
    destruct T1 as [->|[r' ->]]; [done|]. injection Heq as <- _.
    by rewrite Ascii.eqb_refl in Hb.
  - exfalso. apply orb_false_iff in Hx as [Ha _].
    destruct T2 as [->|[r' ->]]; [done|]. injection Heq as -> _.
    by rewrite Ascii.eqb_refl in Ha.
  - apply orb_false_iff in Hx as [_ Hx]. apply orb_false_iff in Hy as [_ Hy].
    injection Heq as -> Heq.
    destruct (IH y Hx Hy T1 T2 Heq) as [-> ->]. done.
Qed.

Lemma concat_cons (x : string) (l : list string) :
  ∃ r, String.concat "|" (x :: l) = (x ++ r)%string ∧ tailOfJoin r
       ∧ (l = [] → r = "")
       ∧ (l ≠ [] → r = String "|" (String.concat "|" l)).
Proof.
  destruct l as [|y l].
  - exists "". simpl. split; [|split; [by left|done]].
    clear. induction x as [|a x IH]; [done|]. exact (f_equal (String a) IH).
  - eexists. split; [reflexivity|]. split; [right; eauto|]. done.
Qed.

Lemma join_injective (l1 l2 : list string) :
  Forall plainId l1 → Forall plainId l2 →
  String.concat "|" l1 = String.concat "|" l2 → l1 = l2.
Proof.
  intros H1. revert l2. induction H1 as [|x l1 [Nx Bx] H1 IH];
    intros l2 H2 Heq.
  - destruct H2 as [|y l2 [Ny By] H2]; [done|]. exfalso.
    destruct (concat_cons y l2) as (r & Hr & _). rewrite Hr in Heq.
    simpl in Heq. destruct y; [done|]. done.
  - destruct H2 as [|y l2 [Ny By] H2].
    + exfalso. destruct (concat_cons x l1) as (r & Hr & _).
      rewrite Hr in Heq. simpl in Heq. destruct x; [done|]. done.
    + destruct (concat_cons x l1) as (r1 & Hr1 & T1 & E1 & C1).
      destruct (concat_cons y l2) as (r2 & Hr2 & T2 & E2 & C2).
      rewrite Hr1, Hr2 in Heq.
      destruct (split_at_bar x y r1 r2 Bx By T1 T2 Heq) as [-> Hr].
      f_equal. destruct l1 as [|x1 l1], l2 as [|y1 l2].
      * done.
      * rewrite E1, C2 in Hr by done. done.
      * rewrite C1, E2 in Hr by done. done.
      * rewrite C1, C2 in Hr by done. injection Hr as Hr. by apply IH.
Qed.

Lemma hash_tells_the_friends (l1 l2 : list string) :
  Forall plainId l1 → Forall plainId l2 →
  String.concat "|" (merge_sort String.le l1)
  = String.concat "|" (merge_sort String.le l2) →
  l1 ≡ₚ l2.
Proof.
  intros H1 H2 Heq.
  rewrite <- (merge_sort_Permutation String.le l1).
  rewrite <- (merge_sort_Permutation String.le l2).
  rewrite (join_injective (merge_sort String.le l1)
             (merge_sort String.le l2)); [done| | |done].
  - by rewrite merge_sort_Permutation.
  - by rewrite merge_sort_Permutation.
Qed.

(** X16.  For ids that are not empty and hold no ['|'], an entry of either
    cache is served exactly when it is not older than [maxAge] and the
    friend list asked with has the same ids as the one it was written
    for, as often each: a cached timeline or list of recommendations is
    never served for other friends. *)
Theorem cache_entry_is_served_only_for_its_own_friends
    (writtenFor askedWith : list string)
    (recs : list FriendService.RecommendedFriend) (sampled : list string)
    (Tweet : Type) (tweets : list Tweet) (lastLoadedActivity : option Z)
    (written now maxAge : Z) :
  Forall plainId writtenFor → Forall plainId askedWith →
  (FriendService.getCachedRecommendations
     (Some (FriendService.cacheRecommendations recs writtenFor sampled
              written))
     askedWith now maxAge = Some recs
   ↔ (now - written ≤ maxAge)%Z ∧ writtenFor ≡ₚ askedWith)
  ∧ (TweetCache.getCachedTimeline
       (Some (TweetCache.cacheTimeline tweets writtenFor lastLoadedActivity
                written))
       askedWith now maxAge
     = Some (TweetCache.cacheTimeline tweets writtenFor lastLoadedActivity
               written)
     ↔ (now - written ≤ maxAge)%Z ∧ writtenFor ≡ₚ askedWith).
Proof.
  intros H1 H2.
  assert (∀ h1 h2 : list string → string,
            h1 = (λ l, String.concat "|" (merge_sort String.le l)) →
            h2 = h1 → ∀ A (v : A),
            (if bool_decide (now - written > maxAge)%Z
                || negb (String.eqb (h1 writtenFor) (h2 askedWith))
             then None else Some v) = Some v
            ↔ (now - written ≤ maxAge)%Z ∧ writtenFor ≡ₚ askedWith) as Hkey.
  { intros h1 h2 -> -> A v. case_bool_decide as Hold; simpl.
    - split; [done|]. intros [? _]. lia.
    - destruct (String.eqb_spec
                  (String.concat "|" (merge_sort String.le writtenFor))
                  (String.concat "|" (merge_sort String.le askedWith)))
        as [Heq|Hne]; simpl.
      + split; [|done]. intros _. split; [lia|].
        by apply hash_tells_the_friends.
      + split; [done|]. intros [_ Hp]. exfalso. apply Hne.
        by rewrite (sorted_ids_permutation _ _ Hp). }
  split.
  - apply (Hkey FriendService.generateFriendsHash
             FriendService.generateFriendsHash); done.
  - apply (Hkey TweetCache.generateFriendsHash
             TweetCache.generateFriendsHash); done.
Qed.

Lemma cache_entry_is_served_only_for_its_own_friends_witness :
  FriendService.getCachedRecommendations
    (Some (FriendService.cacheRecommendations [] ["bob"; "alice"] ["bob"]
             1000))
    ["alice"; "bob"] 2000 FriendService.defaultMaxAge
  = Some []
  ↔ (2000 - 1000 ≤ FriendService.defaultMaxAge)%Z
    ∧ ["bob"; "alice"] ≡ₚ ["alice"; "bob"].
Proof.
  apply (cache_entry_is_served_only_for_its_own_friends
           ["bob"; "alice"] ["alice"; "bob"] [] ["bob"]
           unit [] None 1000 2000 FriendService.defaultMaxAge).
  - repeat constructor; by vm_compute.
  - repeat constructor; by vm_compute.
Defined.

(** With one friend more the entry is not served. *)
Example cache_is_not_served_after_a_new_friend :
  FriendService.getCachedRecommendations
    (Some (FriendService.cacheRecommendations [] ["bob"; "alice"] ["bob"]
             1000))
    ["alice"; "bob"; "carol"] 2000 FriendService.defaultMaxAge
  = None.
Proof. by vm_compute. Qed.

(** An id with the separator in it makes two friend lists share a key. *)
Example separator_in_an_id_confuses_the_key :
  FriendService.generateFriendsHash ["a|b"]
  = FriendService.generateFriendsHash ["a"; "b"].
Proof. by vm_compute. Qed.

(** X17.  [ignoreRecommendation] takes the ignored id, and nothing else,
    out of what the cache serves, keeping the order: a lookup after it
    gives the result of the lookup before it without the entries of that
    id.  It does not renew the entry: whether the cache answers at all is
    as before. *)
Theorem ignoreRecommendation_filters_what_is_served
    (recommendationId : string)
    (cachedData : option FriendService.FriendRecommendationsCache)
    (friends : list string) (now maxAge : Z) :
  FriendService.getCachedRecommendations
    (ignoreRecommendation recommendationId cachedData) friends now maxAge
  = filter (λ rec, FriendService.rf_uid rec ≠ recommendationId)
      <$> FriendService.getCachedRecommendations cachedData friends now
            maxAge
  ∧ ∀ served,
      FriendService.getCachedRecommendations
        (ignoreRecommendation recommendationId cachedData) friends now maxAge
      = Some served →
      recommendationId ∉ FriendService.rf_uid <$> served.
Proof.
  assert (FriendService.getCachedRecommendations
            (ignoreRecommendation recommendationId cachedData) friends now
            maxAge
          = filter (λ rec, FriendService.rf_uid rec ≠ recommendationId)
              <$> FriendService.getCachedRecommendations cachedData friends
                    now maxAge) as Heq.
  { destruct cachedData as [cache|]; [|done].
    unfold ignoreRecommendation, FriendService.getCachedRecommendations.
    simpl. by destruct (_ || _). }
  split; [done|]. intros served. rewrite Heq.
  destruct (FriendService.getCachedRecommendations cachedData friends now
              maxAge) as [l|]; [|done].
  simpl. intros [= <-]. rewrite list_elem_of_fmap.
  intros (rec & -> & Hin). apply list_elem_of_filter in Hin as [Hne _].
  done.
Qed.

End CacheUseFacts.

(** ** Tweets and likes *)

Section TweetFacts.
Import TweetService.

Lemma toggleLikeTweet_cases fault id user st :
  (∃ t, tweets st !! id = Some t ∧ fault = None
        ∧ toggleLikeTweet fault id user st
          = ({| tweets :=
                  <[id := {| authorId := authorId t;
                             authorName := authorName t;
                             content := content t;
                             createdAt := createdAt t;
                             likes :=
                               if bool_decide
                                    (user ∈ default [] (likedBy t))
                               then likes t - 1 else likes t + 1;
                             likedBy :=
                               Some
                                 (if bool_decide
                                       (user ∈ default [] (likedBy t))
                                  then filter (λ i, i ≠ user)
                                         (default [] (likedBy t))
                                  else (default [] (likedBy t) ++ [user])
                                       %list);
                             media := media t;
                             isPublic := isPublic t |}]> (tweets st);
                tweetActivity := tweetActivity st |},
             Friends.Returned ()))
  ∨ ∃ m, toggleLikeTweet fault id user st = (st, Friends.Threw m).
Proof.
  unfold toggleLikeTweet, toggleLikeTweetFrom.
  destruct (tweets st !! id) as [t|]; [|eauto].
  destruct fault; [eauto|]. left. exists t. split; [done|]. split; [done|].
  by case_bool_decide.
Qed.

Lemma length_filter_out (user : string) (l : list string) :
  NoDup l → user ∈ l →
  Z.of_nat (length (filter (λ i, i ≠ user) l)) = (Z.of_nat (length l) - 1)%Z.
Proof.
  induction 1 as [|x l Hx Hnd IH]; intros Hin.
  - by apply elem_of_nil in Hin.
  - destruct (decide (x = user)) as [->|Hne].
    + rewrite filter_cons_False by (by intros ?).
      assert (filter (λ i, i ≠ user) l = l) as ->.
      { clear IH Hin Hnd. induction l as [|y l IH]; [done|].
        apply not_elem_of_cons in Hx as [Hy Hx].
        rewrite filter_cons_True by done. by rewrite IH. }
      simpl. lia.
    + rewrite filter_cons_True by done. simpl length.
      apply elem_of_cons in Hin as [->|Hin]; [done|].
      specialize (IH Hin). lia.
Qed.

Lemma toggle_keeps_likesCounted (user : string) (t : Tweet) :
  likesCounted t →
  likesCounted
    {| authorId := authorId t; authorName := authorName t;
       content := content t; createdAt := createdAt t;
       likes := if bool_decide (user ∈ default [] (likedBy t))
                then likes t - 1 else likes t + 1;
       likedBy :=
         Some (if bool_decide (user ∈ default [] (likedBy t))
               then filter (λ i, i ≠ user) (default [] (likedBy t))
               else (default [] (likedBy t) ++ [user])%list);
       media := media t; isPublic := isPublic t |}.
Proof.
  intros [Hnd Hlikes]. unfold likesCounted. simpl.
  case_bool_decide as Hin.
  - split; [by apply NoDup_filter|].
    rewrite length_filter_out by done. lia.
  - split.
    + apply NoDup_app. split; [done|]. split; [|apply NoDup_singleton].
      intros y Hy ->%list_elem_of_singleton. done.
    + rewrite length_app. simpl. lia.
Qed.

Lemma call_keeps_allLikesCounted st c :
  allLikesCounted st → allLikesCounted (call st c).
Proof.
  intros Hinv.
  destruct c as [fault tweet tid aid now|fault id user|fault id user]; simpl.
  - unfold createTweet. destruct fault; [done|]. simpl.
    intros id t. simpl. destruct (decide (id = tid)) as [->|Hne].
    + rewrite lookup_insert_eq. intros [= <-]. split; [constructor|done].
    + rewrite lookup_insert_ne by done. apply Hinv.
  - destruct (toggleLikeTweet_cases fault id user st)
      as [(t & Ht & _ & ->)|[m ->]]; [|done].
    intros id' t'. simpl. destruct (decide (id' = id)) as [->|Hne].
    + rewrite lookup_insert_eq. intros [= <-].
      apply toggle_keeps_likesCounted. eauto.
    + rewrite lookup_insert_ne by done. apply Hinv.
  - unfold deleteTweet. destruct (tweets st !! id) as [t|]; [|done].
    case_bool_decide; [done|]. destruct fault; [done|]. simpl.
    intros id' t'. simpl. intros Ht'. apply lookup_delete_Some in Ht'.
    destruct Ht' as [_ Ht']. eauto.
Qed.

(** X18.  Through any series of calls of the tweet service, made one after
    another and whatever their errors, the [likes] counter of every stored
    tweet is the number of entries of its [likedBy], and no user is in a
    [likedBy] twice, if that was so at the start (as it is for every tweet
    that [createTweet] wrote). *)
Theorem likes_counter_is_the_number_of_likers (st : TweetStore)
    (cs : list Call) :
  allLikesCounted st → allLikesCounted (calls st cs).
Proof.
  revert st. induction cs as [|c cs IH]; intros st Hinv; [done|].
  apply IH. by apply call_keeps_allLikesCounted.
Qed.

Lemma likes_counter_is_the_number_of_likers_witness :
  allLikesCounted
    (calls emptyStore
       [Create None hello "tweet1" "activity1" 1000;
        ToggleLike None "tweet1" "bob";
        ToggleLike None "tweet1" "carol";
        ToggleLike (Some "unavailable") "tweet1" "dan";
        ToggleLike None "tweet1" "bob"]).
Proof.
  apply likes_counter_is_the_number_of_likers.
  intros id t Ht. simpl in Ht. by rewrite lookup_empty in Ht.
Defined.

Example likes_after_three_toggles :
  (λ t, (likes t, likedBy t))
    <$> tweets
          (calls emptyStore
             [Create None hello "tweet1" "activity1" 1000;
              ToggleLike None "tweet1" "bob";
              ToggleLike None "tweet1" "carol";
              ToggleLike (Some "unavailable") "tweet1" "dan";
              ToggleLike None "tweet1" "bob"]) !! "tweet1"
  = Some (1%Z, Some ["carol"]).
Proof. by vm_compute. Qed.

(** When a stored [likedBy] holds an id twice, one unlike takes both
    entries out and one from the counter. *)
Example unlike_of_a_double_entry_miscounts :
  (λ t, (likes t, likedBy t))
    <$> tweets (toggleLikeTweet None "tweet1" "bob" likedTwice).1 !! "tweet1"
  = Some (1%Z, Some []).
Proof. by vm_compute. Qed.

(** X19.  [toggleLikeTweet] reads the tweet and then writes the
    [likedBy] and [likes] it computed from what it read.  After a call
    that returns, the user is in [likedBy] exactly if the snapshot did not
    have them there, and every other user exactly if the snapshot had
    them, so a like that was written between the read and the write is
    erased; the other fields of the tweet, all other tweets and the
    activity log are as stored.  When nothing was written to the tweet
    between the read and the write, the call changes whether the user
    likes the tweet and nothing else about who likes what.  A call that
    throws (the tweet is missing, or the update fails) changes nothing. *)
Theorem toggleLikeTweet_writes_the_likes_it_read (fault : option string)
    (tweetSnap : option Tweet) (id user : string) (st : TweetStore) :
  (let '(st', r) := toggleLikeTweetFrom fault tweetSnap id user st in
   match r with
   | Friends.Returned _ =>
       (∃ read stored after,
          tweetSnap = Some read ∧ tweets st !! id = Some stored
          ∧ tweets st' !! id = Some after
          ∧ (user ∈ default [] (likedBy after)
             ↔ user ∉ default [] (likedBy read))
          ∧ (∀ user', user' ≠ user →
               user' ∈ default [] (likedBy after)
               ↔ user' ∈ default [] (likedBy read))
          ∧ authorId after = authorId stored
          ∧ authorName after = authorName stored
          ∧ content after = content stored
          ∧ createdAt after = createdAt stored
          ∧ media after = media stored
          ∧ isPublic after = isPublic stored)
       ∧ (∀ id', id' ≠ id → tweets st' !! id' = tweets st !! id')
       ∧ tweetActivity st' = tweetActivity st
   | Friends.Threw _ => st' = st
   end)
  ∧ (let '(st', r) := toggleLikeTweet fault id user st in
     match r with
     | Friends.Returned _ =>
         (likedByUser st' id user ↔ ¬ likedByUser st id user)
         ∧ (∀ id' user', ¬ (id' = id ∧ user' = user) →
              likedByUser st' id' user' ↔ likedByUser st id' user')
         ∧ tweetActivity st' = tweetActivity st
     | Friends.Threw _ => st' = st
     end).
Proof.
  split.
  - unfold toggleLikeTweetFrom. destruct tweetSnap as [read|]; [|done].
    destruct fault; [done|].
    destruct (tweets st !! id) as [stored|] eqn:Hstored; [|done].
    simpl. split; [|split; [|done]].
    + eexists read, stored, _. split; [done|]. split; [done|].
      split; [by rewrite lookup_insert_eq|]. simpl.
      split; [|split; [|done]].
      * case_bool_decide as Hin; simpl.
        -- rewrite list_elem_of_filter. split; [by intros [? _]|done].
        -- rewrite elem_of_app, list_elem_of_singleton. split; auto.
      * intros user' Hne. case_bool_decide as Hin; simpl.
        -- rewrite list_elem_of_filter. split; [by intros [_ ?]|done].
        -- rewrite elem_of_app, list_elem_of_singleton.
           split; [by intros [?|?]|auto].
    + intros id' Hne. by rewrite lookup_insert_ne.
  - destruct (toggleLikeTweet_cases fault id user st)
      as [(t & Ht & _ & ->)|[m ->]]; [|done].
    unfold likedByUser. simpl. split; [|split; [|done]].
    + rewrite lookup_insert_eq. split.
      * intros (t' & [= <-] & Hin) (t'' & Ht'' & Hin'').
        rewrite Ht in Ht''. injection Ht'' as <-. simpl in Hin.
        rewrite bool_decide_eq_true_2 in Hin by done.
        by apply list_elem_of_filter in Hin as [? _].
      * intros Hnot. eexists. split; [done|]. simpl.
        case_bool_decide as Hin; [exfalso; apply Hnot; eauto|].
        apply elem_of_app. right. by apply list_elem_of_singleton.
    + intros id' user' Hother. destruct (decide (id' = id)) as [->|Hne].
      * rewrite lookup_insert_eq, Ht.
        assert (user' ≠ user) as Hu by (intros ->; by apply Hother).
        split.
        -- intros (t' & [= <-] & Hin). exists t. split; [done|].
           simpl in Hin. case_bool_decide.
           ++ by apply list_elem_of_filter in Hin as [_ ?].
           ++ apply elem_of_app in Hin as [?|Hin]; [done|].
              by apply list_elem_of_singleton in Hin.
        -- intros (t' & [= <-] & Hin). eexists. split; [done|]. simpl.
           case_bool_decide.
           ++ by apply list_elem_of_filter.
           ++ apply elem_of_app. by left.
      * by rewrite lookup_insert_ne.
Qed.

(** ["bob"] reads the tweet before ["carol"] likes it and writes after:
    his write stores the list he computed, and her like is gone. *)
Example like_written_after_the_read_is_erased :
  likedBy <$> tweets carolLikes !! "tweet1" = Some (Some ["carol"])
  ∧ (λ t, (likes t, likedBy t))
      <$> tweets (toggleLikeTweetFrom None (tweets helloStored !! "tweet1")
                    "tweet1" "bob" carolLikes).1 !! "tweet1"
    = Some (1%Z, Some ["bob"]).
Proof. by vm_compute. Qed.

(** X20.  [deleteTweet] deletes for the author only: a call that returns
    was made by the author of a stored tweet and leaves the store without
    that tweet and without any activity entry of it, all other tweets and
    entries as they were; every other call changes nothing.  Deleting a
    tweet right after creating it gives back the store as it was before,
    when the two new ids were unused and no entry of the log named the
    tweet id. *)
Theorem deleteTweet_is_for_the_author_and_undoes_createTweet
    (fault : option string) (id user : string) (st : TweetStore)
    (tweet : NewTweet) (tweetRefId activityRefId : string) (now : Z) :
  (let '(st', r) := deleteTweet fault id user st in
   match r with
   | Friends.Returned _ =>
       (∃ t, tweets st !! id = Some t ∧ authorId t = user)
       ∧ tweets st' = delete id (tweets st)
       ∧ ∀ a e, tweetActivity st' !! a = Some e
                ↔ tweetActivity st !! a = Some e ∧ tweetId e ≠ id
   | Friends.Threw _ => st' = st
   end)
  ∧ (tweets st !! tweetRefId = None →
     tweetActivity st !! activityRefId = None →
     (∀ a e, tweetActivity st !! a = Some e → tweetId e ≠ tweetRefId) →
     deleteTweet None tweetRefId (new_authorId tweet)
       (createTweet None tweet tweetRefId activityRefId now st).1
     = (st, Friends.Returned ())).
Proof.
  split.
  - unfold deleteTweet. destruct (tweets st !! id) as [t|] eqn:Ht; [|done].
    case_bool_decide as Hauthor; [done|]. destruct fault; [done|].
    simpl. split; [|split; [done|]].
    + exists t. split; [done|]. by destruct (decide (authorId t = user)).
    + intros a e. by rewrite map_lookup_filter_Some.
  - intros Hfresh Hafresh Hdangling. unfold createTweet, deleteTweet. simpl.
    rewrite lookup_insert_eq. simpl.
    rewrite bool_decide_eq_false_2 by (by intros ?).
    destruct st as [ts acts]. simpl in *. f_equal. f_equal.
    + rewrite delete_insert_eq. by apply delete_id.
    + rewrite map_filter_insert_False by (simpl; by intros ?).
      rewrite map_filter_delete. rewrite delete_id.
      * apply map_filter_id. intros a e He. simpl. eauto.
      * by rewrite map_lookup_filter_None; left.
Qed.

Lemma deleteTweet_is_for_the_author_and_undoes_createTweet_witness :
  deleteTweet None "tweet1" "alice"
    (createTweet None hello "tweet1" "activity1" 1000 emptyStore).1
  = (emptyStore, Friends.Returned ()).
Proof.
  apply (deleteTweet_is_for_the_author_and_undoes_createTweet
           None "tweet1" "alice" emptyStore hello "tweet1" "activity1" 1000).
  - done.
  - done.
  - intros a e He. simpl in He. by rewrite lookup_empty in He.
Defined.

Example only_the_author_deletes :
  deleteTweet None "tweet1" "bob"
    (createTweet None hello "tweet1" "activity1" 1000 emptyStore).1
  = ((createTweet None hello "tweet1" "activity1" 1000 emptyStore).1,
     Friends.Threw "Not authorized to delete this tweet").
Proof. by vm_compute. Qed.

End TweetFacts.

(** ** What [getFriendRecommendations] returns *)

Section RecommendationFacts.
Import FriendService.

Lemma omap_sorted {A B} (R : A → A → Prop) (R' : B → B → Prop)
    (f : A → option B) (l : list A) :
  (∀ x x' y y', f x = Some y → f x' = Some y' → R x x' → R' y y') →
  StronglySorted R l → StronglySorted R' (omap f l).
Proof.
  intros Hf. induction 1 as [|x l Hs IH Hx]; simpl; [constructor|].
  destruct (f x) as [y|] eqn:Hy; [|done]. constructor; [done|].
  apply Forall_forall. intros y' Hy'.
  apply list_elem_of_omap in Hy' as (x' & Hx' & Hfx').
  rewrite Forall_forall in Hx. eauto.
Qed.

Lemma elem_of_take_list {A} (x : A) (n : nat) (l : list A) :
  x ∈ take n l → x ∈ l.
Proof.
  intros H. apply elem_of_take in H as (i & Hi & _).
  by eapply list_elem_of_lookup_2.
Qed.

Lemma length_omap_le {A B} (f : A → option B) (l : list A) :
  (length (omap f l) ≤ length l)%nat.
Proof.
  induction l as [|x l IH]; [done|].
  cbn. destruct (f x); cbn; lia.
Qed.

Lemma take_sorted {A} (R : A → A → Prop) (n : nat) (l : list A) :
  StronglySorted R l → StronglySorted R (take n l).
Proof.
  intros Hs. revert n. induction Hs as [|x l Hs IH Hx]; intros [|n]; simpl;
    try constructor; [done|].
  apply Forall_forall. intros y Hy. rewrite Forall_forall in Hx.
  apply Hx. by eapply elem_of_take_list.
Qed.

Lemma occurrences_positive (c : string)
    (friendsOfFriends : JsMap (list string)) :
  c ∈ potentialFriends friendsOfFriends →
  (1 ≤ occurrences c friendsOfFriends)%nat.
Proof.
  unfold occurrences, occurrencesIn.
  induction (potentialFriends friendsOfFriends) as [|x l IH]; intros Hc.
  - by apply elem_of_nil in Hc.
  - rewrite filter_cons. case_decide; simpl; [lia|].
    apply elem_of_cons in Hc as [->|Hc]; [done|]. by apply IH.
Qed.

Lemma finalRecommendations_uids (limit : nat)
    (userMap : gmap string (string * string)) (recs : list Recommendation) :
  rf_uid <$> finalRecommendations limit userMap recs
  `sublist_of` uid <$> recs.
Proof.
  unfold finalRecommendations. trans (uid <$> take limit recs).
  - induction (take limit recs) as [|rec l IH]; simpl; [done|].
    destruct (userMap !! uid rec); simpl.
    + by apply sublist_skip.
    + by apply sublist_cons.
  - apply fmap_sublist, sublist_take.
Qed.

Lemma scoredCandidates_uids currentUserId allCurrentUserFriends
    friendsOfFriends :
  uid <$> scoredCandidates currentUserId allCurrentUserFriends
            friendsOfFriends
  = candidatesInOrder currentUserId allCurrentUserFriends friendsOfFriends.
Proof.
  unfold scoredCandidates.
  induction (candidatesInOrder currentUserId allCurrentUserFriends
               friendsOfFriends) as [|c l IH]; [done|].
  cbn. f_equal. exact IH.
Qed.

(** X21.  The list that [getFriendRecommendations] builds when it does not
    answer from the cache has at most [limit] entries and names nobody
    twice; each entry is somebody in the [friends] array of a sampled
    friend who is neither the user nor one of the user's friends, and its
    [mutualFriends] is the number of times the sampled arrays name that
    id, at least one; the entries come with [mutualFriends] never going
    up. *)
Theorem recommendations_are_strangers_known_to_friends
    (currentUserId : string) (allCurrentUserFriends : list string)
    (friendsOfFriends : JsMap (list string)) (limit : nat)
    (userMap : gmap string (string * string)) :
  let result :=
    finalRecommendations limit userMap
      (calculateRecommendations currentUserId allCurrentUserFriends
         friendsOfFriends) in
  (length result ≤ limit)%nat
  ∧ NoDup (rf_uid <$> result)
  ∧ (∀ r, r ∈ result →
       rf_uid r ≠ currentUserId
       ∧ (rf_uid r ∉ allCurrentUserFriends)
       ∧ rf_uid r ∈ potentialFriends friendsOfFriends
       ∧ rf_mutualFriends r = occurrences (rf_uid r) friendsOfFriends
       ∧ (1 ≤ rf_mutualFriends r)%nat
       ∧ userMap !! rf_uid r = Some (rf_displayName r, rf_email r))
  ∧ StronglySorted (λ a b, (rf_mutualFriends b ≤ rf_mutualFriends a)%nat)
      result.
Proof.
  intros result. subst result. unfold calculateRecommendations.
  rewrite countCandidates_scored.
  set (scored := scoredCandidates currentUserId allCurrentUserFriends
                   friendsOfFriends).
  set (recs := sortBy byMutualFriendsDesc scored).
  assert (recs ≡ₚ scored) as Hperm by apply sortBy_Permutation.
  split; [|split; [|split]].
  - unfold finalRecommendations.
    etrans; [apply length_omap_le|]. rewrite length_take. lia.
  - eapply sublist_NoDup; [|apply finalRecommendations_uids].
    rewrite Hperm. unfold scored. rewrite scoredCandidates_uids.
    apply firstSeen_NoDup.
  - intros r Hr. unfold finalRecommendations in Hr.
    apply list_elem_of_omap in Hr as (rec & Hrec & Hf).
    apply elem_of_take_list in Hrec. rewrite Hperm in Hrec.
    unfold scored, scoredCandidates in Hrec.
    apply list_elem_of_fmap in Hrec as (c & -> & Hc).
    apply candidatesInOrder_elem_of in Hc as [[Hme Hfriend] Hc].
    simpl in Hf. destruct (userMap !! c) as [[name email]|] eqn:Hu;
      [|done].
    injection Hf as <-. simpl. repeat split; try done.
    by apply occurrences_positive.
  - unfold finalRecommendations.
    apply (omap_sorted descending); [|apply take_sorted, sortBy_descending].
    intros x x' y y' Hy Hy' Hxx'.
    destruct (userMap !! uid x); [|done].
    destruct (userMap !! uid x'); [|done].
    injection Hy as <-. injection Hy' as <-. done.
Qed.

Example recommendations_for_the_sample_graph :
  finalRecommendations 3
    {[ "zoe" := ("Zoe", "zoe@example.org");
       "bea" := ("Bea", "bea@example.org") ]}
    (calculateRecommendations "me" sampleFriends sampleGraph)
  = [ {| rf_uid := "zoe"; rf_displayName := "Zoe";
         rf_email := "zoe@example.org"; rf_mutualFriends := 3 |};
      {| rf_uid := "bea"; rf_displayName := "Bea";
         rf_email := "bea@example.org"; rf_mutualFriends := 2 |} ].
Proof. by vm_compute. Qed.

End RecommendationFacts.



(** ** The newest entries of a list, and of its parts *)

Section TopK.
Import FriendService TweetActivityLog.
Context {A : Type} (key : A → Z).


Lemma insertBy_key_sorted (x : A) (l : list A) :
  StronglySorted (weakly key) l → StronglySorted (weakly key) (insertBy (byKey key) x l).
Proof.
  induction 1 as [|y l Hs IH Hy]; simpl.
  - repeat constructor.
  - destruct (Z.ltb_spec 0 ((byKey key) x y)) as [Hlt|Hge].
    + constructor; [done|]. rewrite insertBy_Permutation.
      constructor; [|done]. unfold weakly, strictly, byKey in *. lia.
    + constructor; [by constructor|]. constructor.
      * unfold weakly, strictly, byKey in *. lia.
      * eapply Forall_impl; [exact Hy|]. intros z Hz.
        unfold weakly, strictly, byKey in *. lia.
Qed.

Lemma sortBy_key_sorted (l : list A) :
  StronglySorted (weakly key) (sortBy (byKey key) l).
Proof.
  induction l as [|x l IH]; simpl; [constructor|].
  by apply insertBy_key_sorted.
Qed.

Lemma insertBy_key_stable (k : Z) (x : A) (l : list A) :
  filter (λ y, key y = k) (insertBy (byKey key) x l)
  = filter (λ y, key y = k) (x :: l).
Proof.
  induction l as [|y l IH]; simpl; [done|].
  destruct (Z.ltb_spec 0 (byKey key x y)) as [Hlt|Hge]; [|done].
  rewrite (filter_cons _ y (insertBy _ _ _)), IH.
  rewrite !filter_cons. unfold byKey in Hlt.
  repeat case_decide; try done. lia.
Qed.

(** [sortBy] keeps elements with equal keys in the order they had. *)
Lemma sortBy_key_stable (k : Z) (l : list A) :
  filter (λ y, key y = k) (sortBy (byKey key) l)
  = filter (λ y, key y = k) l.
Proof.
  induction l as [|x l IH]; simpl; [done|].
  change (foldr (insertBy (byKey key)) [] l) with (sortBy (byKey key) l).
  by rewrite insertBy_key_stable, !filter_cons, IH.
Qed.

Lemma weakly_strictly (s : list A) :
  StronglySorted (weakly key) s → NoDup (key <$> s) → StronglySorted (strictly key) s.
Proof.
  induction 1 as [|x s Hs IH Hx]; intros Hnd; [constructor|].
  rewrite fmap_cons in Hnd. apply NoDup_cons in Hnd as [Hx' Hnd].
  constructor; [by apply IH|].
  apply Forall_forall. intros y Hy. rewrite Forall_forall in Hx.
  specialize (Hx y Hy). unfold weakly, strictly, byKey in *.
  destruct (decide (key y = key x)) as [Heq|Hne]; [|lia].
  exfalso. apply Hx'. rewrite <- Heq. apply list_elem_of_fmap. eauto.
Qed.

Lemma sortBy_strictly (l : list A) :
  NoDup (key <$> l) → StronglySorted (strictly key) (sortBy (byKey key) l).
Proof.
  intros Hnd. apply weakly_strictly; [apply sortBy_key_sorted|].
  by rewrite sortBy_Permutation.
Qed.

Lemma strictly_ext (s1 s2 : list A) :
  StronglySorted (strictly key) s1 → StronglySorted (strictly key) s2 →
  (∀ x, x ∈ s1 ↔ x ∈ s2) → s1 = s2.
Proof.
  intros H1. revert s2. induction H1 as [|a s1 H1 IH Ha];
    intros s2 H2 Hext.
  - destruct s2 as [|b s2]; [done|].
    exfalso. eapply elem_of_nil, Hext. by left.
  - destruct H2 as [|b s2 H2 Hb].
    { exfalso. eapply elem_of_nil, Hext. by left. }
    rewrite Forall_forall in Ha, Hb.
    assert (a = b) as ->.
    { assert (a ∈ b :: s2) as Hab by (apply Hext; by left).
      assert (b ∈ a :: s1) as Hba by (apply Hext; by left).
      apply elem_of_cons in Hab as [?|Hab]; [done|].
      apply elem_of_cons in Hba as [?|Hba]; [done|].
      specialize (Ha _ Hba). specialize (Hb _ Hab).
      unfold weakly, strictly, byKey in *. lia. }
    f_equal. apply IH; [done|]. intros x. split; intros Hx.
    + assert (x ∈ b :: s2) as Hx' by (apply Hext; by right).
      apply elem_of_cons in Hx' as [->|?]; [|done].
      specialize (Ha _ Hx). unfold strictly in Ha. lia.
    + assert (x ∈ b :: s1) as Hx' by (apply Hext; by right).
      apply elem_of_cons in Hx' as [->|?]; [|done].
      specialize (Hb _ Hx). unfold strictly in Hb. lia.
Qed.

Lemma elem_sortBy (l : list A) (x : A) :
  x ∈ sortBy (byKey key) l ↔ x ∈ l.
Proof. by rewrite sortBy_Permutation. Qed.

Lemma sortBy_same_elements (l l' : list A) :
  NoDup (key <$> l) → NoDup (key <$> l') → (∀ x, x ∈ l ↔ x ∈ l') →
  sortBy (byKey key) l = sortBy (byKey key) l'.
Proof.
  intros Hl Hl' Hext. apply strictly_ext; try by apply sortBy_strictly.
  intros x. by rewrite !elem_sortBy.
Qed.

Lemma keys_submseteq (l l' : list A) :
  l ⊆+ l' → NoDup (key <$> l') → NoDup (key <$> l).
Proof.
  intros Hsub Hnd. apply submseteq_sublist_r in Hsub as (l2 & Hp & Hs).
  rewrite Hp. eapply sublist_NoDup; [exact Hnd|]. by apply fmap_sublist.
Qed.

Lemma rank_Permutation (l l' : list A) (x : A) :
  l ≡ₚ l' → rank key l x = rank key l' x.
Proof. intros Hp. unfold rank. by rewrite Hp. Qed.

Lemma rank_sortBy (l : list A) (x : A) :
  rank key (sortBy (byKey key) l) x = rank key l x.
Proof. apply rank_Permutation, sortBy_Permutation. Qed.

Lemma rank_app (l l' : list A) (x : A) :
  rank key (l ++ l')%list x = (rank key l x + rank key l' x)%nat.
Proof. unfold rank. by rewrite filter_app, length_app. Qed.

Lemma rank_below (s : list A) (x : A) :
  Forall (λ y, (key y ≤ key x)%Z) s → rank key s x = 0%nat.
Proof.
  unfold rank. induction 1 as [|y s Hy Hs IH]; [done|].
  rewrite filter_cons_False by lia. done.
Qed.

Lemma rank_cons (a : A) (s : list A) (x : A) :
  rank key (a :: s) x
  = ((if decide (key x < key a)%Z then 1 else 0) + rank key s x)%nat.
Proof. unfold rank. rewrite filter_cons. by case_decide. Qed.

Lemma take_elem_rank (s : list A) (k : nat) (x : A) :
  StronglySorted (strictly key) s →
  x ∈ take k s ↔ x ∈ s ∧ (rank key s x < k)%nat.
Proof.
  intros Hs. revert k. induction Hs as [|a s Hs IH Ha]; intros k.
  - rewrite take_nil. split; [by intros ?%elem_of_nil|].
    by intros [?%elem_of_nil _].
  - rewrite Forall_forall in Ha. destruct k as [|k].
    + simpl. split; [by intros ?%elem_of_nil|]. intros [_ ?]. lia.
    + simpl. rewrite rank_cons, !elem_of_cons, IH. split.
      * intros [->|[Hx Hr]].
        -- split; [by left|]. rewrite decide_False by lia.
           rewrite rank_below; [lia|]. apply Forall_forall.
           intros y Hy. specialize (Ha _ Hy). unfold strictly in Ha. lia.
        -- split; [by right|]. case_decide; lia.
      * intros [[->|Hx] Hr]; [by left|]. right. split; [done|].
        specialize (Ha _ Hx). unfold strictly in Ha.
        rewrite decide_True in Hr by done. lia.
Qed.

Lemma rank_take (s : list A) (k : nat) (x : A) :
  StronglySorted (strictly key) s →
  rank key (take k s) x = (rank key s x `min` k)%nat.
Proof.
  intros Hs. revert k. induction Hs as [|a s Hs IH Ha]; intros k.
  - rewrite take_nil. unfold rank. simpl. lia.
  - rewrite Forall_forall in Ha. destruct k as [|k].
    + simpl. unfold rank at 1. simpl. lia.
    + simpl. rewrite !rank_cons. case_decide as Hlt.
      * rewrite IH. lia.
      * rewrite !rank_below; [lia| |].
        -- apply Forall_forall. intros y Hy. specialize (Ha _ Hy).
           unfold strictly in Ha. lia.
        -- apply Forall_forall. intros y Hy.
           apply elem_of_take_list in Hy. specialize (Ha _ Hy).
           unfold strictly in Ha. lia.
Qed.

(** The newest [k] of two lists together can be taken after cutting the
    second list to its newest [k]. *)
Lemma newest_absorb_r (a b : list A) (k : nat) :
  NoDup (key <$> (a ++ b)%list) →
  take k (sortBy (byKey key) (a ++ take k (sortBy (byKey key) b))%list)
  = take k (sortBy (byKey key) (a ++ b)%list).
Proof.
  intros Hnd.
  assert (NoDup (key <$> b)) as Hb.
  { apply (keys_submseteq b (a ++ b)%list); [|done].
    by apply submseteq_inserts_l. }
  assert (take k (sortBy (byKey key) b) ⊆+ b) as Hsub.
  { etrans; [apply sublist_submseteq, sublist_take|].
    apply Permutation_submseteq, sortBy_Permutation. }
  assert (NoDup (key <$> (a ++ take k (sortBy (byKey key) b))%list)) as Hnd'.
  { apply (keys_submseteq _ (a ++ b)%list); [|done].
    by apply submseteq_skips_l. }
  pose proof (sortBy_strictly b Hb) as Sb.
  apply strictly_ext.
  - by apply take_sorted, sortBy_strictly.
  - by apply take_sorted, sortBy_strictly.
  - intros x.
    rewrite !take_elem_rank by (by apply sortBy_strictly).
    rewrite !elem_sortBy, !rank_sortBy, !elem_of_app, !rank_app.
    rewrite take_elem_rank by done. rewrite rank_take by done.
    rewrite elem_sortBy, rank_sortBy.
    split.
    + intros [[Ha|[Hb' Hr]] Hk]; (split; [tauto|lia]).
    + intros [[Ha|Hb'] Hk]; (split; [|lia]); [by left|].
      right. split; [done|lia].
Qed.

Lemma newest_absorb_l (a b : list A) (k : nat) :
  NoDup (key <$> (a ++ b)%list) →
  take k (sortBy (byKey key) (take k (sortBy (byKey key) a) ++ b)%list)
  = take k (sortBy (byKey key) (a ++ b)%list).
Proof.
  intros Hnd.
  assert (NoDup (key <$> (b ++ a)%list)) as Hnd'.
  { apply (keys_submseteq _ (a ++ b)%list); [|done].
    apply Permutation_submseteq, Permutation_app_comm. }
  assert (take k (sortBy (byKey key) a) ⊆+ a) as Hsub.
  { etrans; [apply sublist_submseteq, sublist_take|].
    apply Permutation_submseteq, sortBy_Permutation. }
  rewrite (sortBy_same_elements (take k (sortBy (byKey key) a) ++ b)%list
             (b ++ take k (sortBy (byKey key) a))%list).
  - rewrite newest_absorb_r by done. f_equal.
    apply sortBy_same_elements; [done..|]. intros x.
    rewrite !elem_of_app. tauto.
  - apply (keys_submseteq _ (a ++ b)%list); [|done].
    by apply submseteq_skips_r.
  - apply (keys_submseteq _ (b ++ a)%list); [|done].
    by apply submseteq_skips_l.
  - intros x. rewrite !elem_of_app. tauto.
Qed.

Lemma concat_newest_submseteq (ls : list (list A)) (k : nat) :
  mjoin ((λ l, take k (sortBy (byKey key) l)) <$> ls) ⊆+ mjoin ls.
Proof.
  induction ls as [|l ls IH]; [done|]. simpl. apply submseteq_app; [|done].
  etrans; [apply sublist_submseteq, sublist_take|].
  apply Permutation_submseteq, sortBy_Permutation.
Qed.

(** The newest [k] of several lists together are the newest [k] of their
    newest [k]. *)
Lemma newest_of_parts (ls : list (list A)) (k : nat) :
  NoDup (key <$> mjoin ls) →
  take k (sortBy (byKey key) (mjoin ((λ l, take k (sortBy (byKey key) l)) <$> ls)))
  = take k (sortBy (byKey key) (mjoin ls)).
Proof.
  induction ls as [|l ls IH]; intros Hnd; [done|].
  change (mjoin (l :: ls)) with (l ++ mjoin ls)%list in *.
  change (mjoin ((λ l, take k (sortBy (byKey key) l)) <$> l :: ls))
    with (take k (sortBy (byKey key) l)
          ++ mjoin ((λ l, take k (sortBy (byKey key) l)) <$> ls))%list.
  assert (NoDup (key <$> mjoin ls)) as Hls.
  { apply (keys_submseteq _ (l ++ mjoin ls)%list); [|done].
    by apply submseteq_inserts_l. }
  pose proof (concat_newest_submseteq ls k) as Hparts.
  assert (take k (sortBy (byKey key) l) ⊆+ l) as Hl.
  { etrans; [apply sublist_submseteq, sublist_take|].
    apply Permutation_submseteq, sortBy_Permutation. }
  rewrite <- (newest_absorb_r (take k (sortBy (byKey key) l))
                (mjoin ((λ l, take k (sortBy (byKey key) l)) <$> ls)) k).
  2:{ apply (keys_submseteq _ (l ++ mjoin ls)%list); [|done].
      by apply submseteq_app. }
  rewrite IH by done.
  rewrite (newest_absorb_r (take k (sortBy (byKey key) l)) (mjoin ls) k).
  2:{ apply (keys_submseteq _ (l ++ mjoin ls)%list); [|done].
      by apply submseteq_skips_r. }
  by apply newest_absorb_l.
Qed.

End TopK.

(** ** The recent activity of friends *)

Section ActivityFacts.
Import FriendService TweetService TweetActivityLog.

Lemma slices_spec (fuel : nat) (friendIds : list string) :
  (length friendIds ≤ fuel)%nat →
  mjoin (slices fuel friendIds) = friendIds
  ∧ Forall (λ b, (1 ≤ length b ≤ 10)%nat) (slices fuel friendIds).
Proof.
  revert friendIds. induction fuel as [|fuel IH]; intros friendIds Hlen.
  - destruct friendIds; [done|]. simpl in Hlen. lia.
  - destruct friendIds as [|x l]; [done|].
    change (slices (S fuel) (x :: l))
      with (take 10 (x :: l) :: slices fuel (drop 10 (x :: l))).
    destruct (IH (drop 10 (x :: l))) as [Hjoin Hall].
    { rewrite length_drop. simpl in *. lia. }
    split.
    + change (mjoin (take 10 (x :: l) :: slices fuel (drop 10 (x :: l))))
        with (take 10 (x :: l)
              ++ mjoin (slices fuel (drop 10 (x :: l))))%list.
      rewrite Hjoin. apply take_drop.
    + constructor; [|done]. rewrite length_take.
      change (length (x :: l)) with (S (length l)). lia.
Qed.

Lemma batches_spec (friendIds : list string) :
  mjoin (batches friendIds) = friendIds
  ∧ Forall (λ b, (1 ≤ length b ≤ 10)%nat) (batches friendIds).
Proof. by apply slices_spec. Qed.

Lemma activityQuery_elem st batch lastTimestamp (d : ActivityDoc) :
  d ∈ activityQuery st batch lastTimestamp →
  tweetActivity st !! d.1 = Some d.2
  ∧ matches batch (since lastTimestamp) d.
Proof.
  unfold activityQuery. intros Hd. apply elem_of_take_list in Hd.
  rewrite sortBy_Permutation in Hd.
  apply list_elem_of_filter in Hd as [Hm Hd]. split; [|done].
  apply elem_of_map_to_list. by destruct d.
Qed.

(** X23.  [getRecentTweetActivity] asks in batches that hold between one
    and ten ids each and together are the given ids in their order.  Its
    result has at most fifty entries, newest first, each of them a stored
    entry of one of the given friends, and newer than [lastTimestamp] when
    one is given that is not 0. *)
Theorem getRecentTweetActivity_returns_recent_entries_of_friends
    (st : TweetStore) (friendIds : list string) (lastTimestamp : option Z) :
  let result := getRecentTweetActivity st friendIds lastTimestamp in
  mjoin (batches friendIds) = friendIds
  ∧ Forall (λ b, (1 ≤ length b ≤ 10)%nat) (batches friendIds)
  ∧ (length result ≤ 50)%nat
  ∧ StronglySorted (weakly timeOf) result
  ∧ ∀ d, d ∈ result →
      tweetActivity st !! d.1 = Some d.2
      ∧ userId d.2 ∈ friendIds
      ∧ ∀ t, lastTimestamp = Some t → t ≠ 0%Z → (t < timeOf d)%Z.
Proof.
  intros result. subst result.
  destruct (batches_spec friendIds) as [Hjoin Hall].
  split; [done|]. split; [done|].
  unfold getRecentTweetActivity.
  destruct friendIds as [|f friendIds].
  { split; [simpl; lia|]. split; [constructor|].
    by intros d ?%elem_of_nil. }
  cbv zeta. split; [rewrite length_take; lia|]. split.
  - apply take_sorted. apply (sortBy_key_sorted timeOf).
  - intros d Hd. apply elem_of_take_list in Hd.
    rewrite sortBy_Permutation in Hd.
    apply list_elem_of_join in Hd as (l & Hd & Hl).
    apply list_elem_of_fmap in Hl as (b & -> & Hb).
    apply activityQuery_elem in Hd as [Hstored [Huser Hafter]].
    split; [done|]. split.
    + rewrite <- Hjoin. apply list_elem_of_join. eauto.
    + intros t -> Ht. simpl in Hafter.
      destruct (Z.eqb_spec t 0); [done|]. done.
Qed.

Lemma same_key_same_element {A} (key : A → Z) (l : list A) (x y : A) :
  NoDup (key <$> l) → x ∈ l → y ∈ l → key x = key y → x = y.
Proof.
  induction l as [|a l IH]; intros Hnd Hx Hy Hkey.
  - by apply elem_of_nil in Hx.
  - rewrite fmap_cons in Hnd. apply NoDup_cons in Hnd as [Ha Hnd].
    apply elem_of_cons in Hx as [->|Hx]; apply elem_of_cons in Hy as [->|Hy].
    + done.
    + exfalso. apply Ha. rewrite Hkey. apply list_elem_of_fmap. eauto.
    + exfalso. apply Ha. rewrite <- Hkey. apply list_elem_of_fmap. eauto.
    + by apply IH.
Qed.

Lemma batch_results_have_distinct_times (all : list ActivityDoc)
    (after : option Z) (bs : list (list string)) :
  NoDup (timeOf <$> all) → NoDup (mjoin bs) →
  NoDup (timeOf <$> mjoin ((λ b, filter (matches b after) all) <$> bs)).
Proof.
  intros Hall. induction bs as [|b bs IH]; intros Hnd; [constructor|].
  change (mjoin (b :: bs)) with (b ++ mjoin bs)%list in Hnd.
  apply NoDup_app in Hnd as (Hb & Hdisj & Hbs).
  change (mjoin ((λ b, filter (matches b after) all) <$> b :: bs))
    with (filter (matches b after) all
          ++ mjoin ((λ b, filter (matches b after) all) <$> bs))%list.
  rewrite fmap_app. apply NoDup_app. split; [|split; [|by apply IH]].
  - eapply sublist_NoDup; [exact Hall|]. apply fmap_sublist, sublist_filter.
  - intros t Ht1 Ht2.
    apply list_elem_of_fmap in Ht1 as (x1 & -> & Hx1).
    apply list_elem_of_fmap in Ht2 as (x2 & Heq & Hx2).
    apply list_elem_of_filter in Hx1 as [[Hu1 _] Hx1].
    apply list_elem_of_join in Hx2 as (l & Hx2 & Hl).
    apply list_elem_of_fmap in Hl as (b' & -> & Hb').
    apply list_elem_of_filter in Hx2 as [[Hu2 _] Hx2].
    assert (x1 = x2) as -> by by eapply same_key_same_element.
    apply (Hdisj _ Hu1). apply list_elem_of_join. eauto.
Qed.

Lemma batch_results_elements (all : list ActivityDoc) (after : option Z)
    (bs : list (list string)) (x : ActivityDoc) :
  x ∈ mjoin ((λ b, filter (matches b after) all) <$> bs)
  ↔ x ∈ filter (matches (mjoin bs) after) all.
Proof.
  rewrite list_elem_of_join, list_elem_of_filter. split.
  - intros (l & Hx & Hl). apply list_elem_of_fmap in Hl as (b & -> & Hb).
    apply list_elem_of_filter in Hx as [[Hu Ha] Hx].
    split; [|done]. split; [|done]. apply list_elem_of_join. eauto.
  - intros [[Hu Ha] Hx]. apply list_elem_of_join in Hu as (b & Hu & Hb).
    exists (filter (matches b after) all). split.
    + by apply list_elem_of_filter.
    + apply list_elem_of_fmap. eauto.
Qed.

(** X24.  Asking in batches loses nothing: when no friend id is given
    twice and no two entries of the log have the same timestamp, the
    result of [getRecentTweetActivity] is what one query for all the
    friends at once would give, the fifty newest matching entries, newest
    first. *)
Theorem batched_activity_queries_give_the_newest_fifty
    (st : TweetStore) (friendIds : list string) (lastTimestamp : option Z) :
  NoDup friendIds →
  NoDup (timeOf <$> map_to_list (tweetActivity st)) →
  getRecentTweetActivity st friendIds lastTimestamp
  = activityQuery st friendIds lastTimestamp.
Proof.
  intros Hids Htimes. unfold getRecentTweetActivity, activityQuery.
  set (all := map_to_list (tweetActivity st)) in *.
  set (after := since lastTimestamp).
  destruct friendIds as [|f friendIds].
  { destruct (filter (matches [] after) all) as [|d l] eqn:Hf; [done|].
    assert (d ∈ filter (matches [] after) all) as Hd
      by (rewrite Hf; by left).
    apply list_elem_of_filter in Hd as [[Hu _] _].
    by apply elem_of_nil in Hu. }
  cbv zeta. set (ids := f :: friendIds) in *.
  destruct (batches_spec ids) as [Hjoin _].
  change newestFirst with (byKey timeOf).
  rewrite (list_fmap_compose (λ b, filter (matches b after) all)
             (λ l, take 50 (sortBy (byKey timeOf) l)) (batches ids)
           : (λ b, take 50 (sortBy (byKey timeOf)
                              (filter (matches b after) all)))
             <$> batches ids = _).
  rewrite newest_of_parts.
  - f_equal. apply sortBy_same_elements.
    + apply batch_results_have_distinct_times; [done|]. by rewrite Hjoin.
    + eapply sublist_NoDup; [exact Htimes|].
      apply fmap_sublist, sublist_filter.
    + intros x. by rewrite batch_results_elements, Hjoin.
  - apply batch_results_have_distinct_times; [done|]. by rewrite Hjoin.
Qed.

Lemma batched_activity_queries_give_the_newest_fifty_witness :
  getRecentTweetActivity twelveEntries twelveFriends None
  = activityQuery twelveEntries twelveFriends None.
Proof.
  apply batched_activity_queries_give_the_newest_fifty.
  - apply (bool_decide_unpack _). by vm_compute.
  - apply (bool_decide_unpack _). by vm_compute.
Defined.

Example twelve_friends_are_asked_in_two_batches :
  length <$> batches twelveFriends = [10; 2]%nat
  ∧ (λ d, userId d.2) <$> getRecentTweetActivity twelveEntries twelveFriends
                            (Some 1008%Z)
    = ["f12"; "f11"; "f10"].
Proof. by vm_compute. Qed.

Lemma head_is_newest {A} (key : A → Z) (x : A) (s : list A) (y : A) :
  StronglySorted (weakly key) (x :: s) → y ∈ x :: s → (key y ≤ key x)%Z.
Proof.
  intros Hs Hy. apply StronglySorted_inv in Hs as [_ Hx].
  apply elem_of_cons in Hy as [->|Hy]; [lia|].
  rewrite Forall_forall in Hx. by apply Hx.
Qed.

Lemma newest_of_take {A} (key : A → Z) (l : list A) (y : A) (n : nat) :
  y ∈ l →
  ∃ h, h ∈ take (S n) (sortBy (byKey key) l) ∧ (key y ≤ key h)%Z.
Proof.
  intros Hy. pose proof (sortBy_key_sorted key l) as Hs.
  assert (y ∈ sortBy (byKey key) l) as Hy' by by rewrite sortBy_Permutation.
  destruct (sortBy (byKey key) l) as [|h s]; [by apply elem_of_nil in Hy'|].
  exists h. split; [by left|]. by eapply head_is_newest.
Qed.

(** X25.  The newest entry returned is a cursor: when [lastTimestamp] is
    set to the timestamp of the first entry of a result, as
    [getTimelineTweets] does, the next call on the same log returns
    nothing, whatever the batches and the limits cut off.  (A timestamp 0
    is no cursor: it asks for everything.) *)
Theorem newest_entry_is_a_cursor (st : TweetStore)
    (friendIds : list string) (lastTimestamp : option Z)
    (d : ActivityDoc) (rest : list ActivityDoc) :
  getRecentTweetActivity st friendIds lastTimestamp = d :: rest →
  timeOf d ≠ 0%Z →
  getRecentTweetActivity st friendIds (Some (timeOf d)) = [].
Proof.
  intros Hfirst Hnonzero.
  destruct (getRecentTweetActivity st friendIds (Some (timeOf d)))
    as [|x more] eqn:Hsecond; [done|]. exfalso.
  assert (d ∈ getRecentTweetActivity st friendIds lastTimestamp) as Hd
    by (rewrite Hfirst; by left).
  assert (x ∈ getRecentTweetActivity st friendIds (Some (timeOf d))) as Hx
    by (rewrite Hsecond; by left).
  unfold getRecentTweetActivity in Hfirst, Hd, Hx.
  destruct friendIds as [|f friendIds]; [done|]. cbv zeta in *.
  set (ids := f :: friendIds) in *. clearbody ids.
  (* what [x] is *)
  apply elem_of_take_list in Hx. rewrite sortBy_Permutation in Hx.
  apply list_elem_of_join in Hx as (l & Hx & Hl).
  apply list_elem_of_fmap in Hl as (b & -> & Hb).
  unfold activityQuery in Hx. apply elem_of_take_list in Hx.
  rewrite sortBy_Permutation in Hx.
  apply list_elem_of_filter in Hx as [[Hu Hlater] Hx].
  simpl in Hlater. destruct (Z.eqb_spec (timeOf d) 0); [done|].
  (* what [d] is *)
  apply elem_of_take_list in Hd. rewrite sortBy_Permutation in Hd.
  apply list_elem_of_join in Hd as (l & Hd & Hl).
  apply list_elem_of_fmap in Hl as (b' & -> & Hb').
  unfold activityQuery in Hd. apply elem_of_take_list in Hd.
  rewrite sortBy_Permutation in Hd.
  apply list_elem_of_filter in Hd as [[_ Hafter] _].
  (* [x] was a match of the first call *)
  assert (x ∈ filter (matches b (since lastTimestamp))
                (map_to_list (tweetActivity st))) as Hmatch.
  { apply list_elem_of_filter. split; [|done]. split; [done|].
    destruct (since lastTimestamp); [lia|done]. }
  destruct (newest_of_take timeOf _ x 49 Hmatch) as (h & Hh & Hxh).
  assert (h ∈ mjoin ((λ batchFriendIds,
                        activityQuery st batchFriendIds lastTimestamp)
                     <$> batches ids)) as HhL.
  { apply list_elem_of_join. eexists. split; [exact Hh|].
    apply list_elem_of_fmap. eauto. }
  pose proof (sortBy_key_sorted timeOf
                (mjoin ((λ batchFriendIds,
                           activityQuery st batchFriendIds lastTimestamp)
                        <$> batches ids))) as Hsorted.
  rewrite <- (sortBy_Permutation newestFirst) in HhL.
  change (byKey timeOf) with newestFirst in Hsorted.
  destruct (sortBy newestFirst _) as [|d' s]; [done|].
  injection Hfirst as -> _.
  pose proof (head_is_newest timeOf _ _ _ Hsorted HhL). lia.
Qed.

Lemma newest_entry_is_a_cursor_witness :
  getRecentTweetActivity twelveEntries twelveFriends
    (Some (timeOf ("activity_f12",
                   {| userId := "f12"; tweetId := "tweet_f12";
                      timestamp := 1011 |})))
  = [].
Proof.
  apply (newest_entry_is_a_cursor twelveEntries twelveFriends None _
           (tail (getRecentTweetActivity twelveEntries twelveFriends None))).
  - by vm_compute.
  - by vm_compute.
Defined.

End ActivityFacts.

(** ** The rows on screen and the state of the game *)

Section DisplayFacts.
Import Wordle WordleRuns.

Lemma string_ext (s1 s2 : string) :
  (∀ i, String.get i s1 = String.get i s2) → s1 = s2.
Proof.
  revert s2. induction s1 as [|a s1 IH]; intros [|b s2] Hget.
  - done.
  - by specialize (Hget 0%nat).
  - by specialize (Hget 0%nat).
  - pose proof (Hget 0%nat) as H0. simpl in H0. injection H0 as ->.
    f_equal. apply IH. intros i. apply (Hget (S i)).
Qed.

Lemma get_beyond (s : string) (i : nat) :
  String.get i s = None ↔ (String.length s ≤ i)%nat.
Proof.
  revert i. induction s as [|a s IH]; intros [|i]; simpl.
  - done.
  - split; [lia|done].
  - split; [done|lia].
  - rewrite IH. lia.
Qed.

(** A row is green all over exactly when the guess is the word. *)
Lemma all_exact_iff (w guess : string) :
  String.length guess = String.length w →
  Forall (eq exact) (renderGuessResult w guess) ↔ guess = w.
Proof.
  intros Hlen. rewrite Forall_lookup. split.
  - intros Hall. apply string_ext. intros i.
    destruct (String.get i guess) as [letter|] eqn:Hg.
    + specialize (Hall i (letterClass w i letter)).
      rewrite renderGuessResult_lookup, Hg in Hall.
      specialize (Hall eq_refl). unfold letterClass in Hall.
      case_bool_decide; [done|]. by destruct (includes w letter).
    + symmetry. apply get_beyond. apply get_beyond in Hg. lia.
  - intros -> i c. rewrite renderGuessResult_lookup.
    destruct (String.get i w) as [letter|] eqn:Hg; [|done].
    simpl. intros [= <-]. unfold letterClass.
    by rewrite bool_decide_eq_true_2.
Qed.

End DisplayFacts.

(** ** Games shown in several tabs *)

Section TabFacts.
Import Wordle WordleRuns WordleTabs.

Lemma submitFrom_refused (snapshot doc : GameState) (uid guess : string) :
  accepted snapshot uid guess = false →
  submitFrom (Some snapshot) doc uid guess = doc.
Proof.
  unfold accepted, submitFrom.
  destruct (handleSubmitGuess (Some snapshot) (Some uid) guess); congruence.
Qed.

(** The fields of the stored document after an accepted submission: the
    turn and the guess list of the caller come from the snapshot. *)
Lemma submitFrom_fields (snapshot doc : GameState) (uid guess : string) :
  accepted snapshot uid guess = true →
  let after := submitFrom (Some snapshot) doc uid guess in
  currentPlayer after
    = (if String.eqb uid (player1 snapshot)
       then player2 snapshot else player1 snapshot)
  ∧ player1Guesses after
    = (if String.eqb uid (player1 snapshot)
       then (player1Guesses snapshot ++ [guess])%list
       else player1Guesses doc)
  ∧ player2Guesses after
    = (if String.eqb uid (player1 snapshot)
       then player2Guesses doc
       else (player2Guesses snapshot ++ [guess])%list)
  ∧ status after
    = (if String.eqb guess (word snapshot) then completed else status doc)
  ∧ winner after
    = (if String.eqb guess (word snapshot) then Some uid else winner doc)
  ∧ word after = word doc ∧ player1 after = player1 doc
  ∧ player2 after = player2 doc ∧ createdAt after = createdAt doc.
Proof.
  intros Hacc. pose proof Hacc as Hacc'.
  apply handleSubmitGuess_sent in Hacc' as [Hcp Hlen].
  unfold submitFrom, handleSubmitGuess.
  rewrite Hcp, String.eqb_refl, Hlen. simpl.
  destruct (String.eqb uid (player1 snapshot)),
    (String.eqb guess (word snapshot)); done.
Qed.

Lemma keyboardRendered_inv (l s : bool) (gameState : option GameState)
    (uid : string) :
  keyboardRendered l s gameState (Some uid) = true →
  ∃ snapshot, gameState = Some snapshot
    ∧ status snapshot ≠ completed ∧ currentPlayer snapshot = uid.
Proof.
  unfold keyboardRendered.
  destruct (screen l s gameState); try done.
  destruct gameState as [snapshot|]; [|done].
  intros [Hs Hc]%andb_true_iff. exists snapshot. split; [done|].
  split.
  - intros Hdone. by rewrite (bool_decide_eq_true_2 _ Hdone) in Hs.
  - by apply String.eqb_eq.
Qed.

(** A click that gets through is a submission the handler accepts, made on
    a snapshot that is not completed. *)
Lemma clickPasses_inv (t : Tab) (guess : string) :
  clickPasses t guess = true →
  ∃ snapshot, gameState t = Some snapshot
    ∧ status snapshot ≠ completed
    ∧ accepted snapshot (currentUser t) guess = true.
Proof.
  unfold clickPasses. intros [Hk Hd]%andb_true_iff.
  apply keyboardRendered_inv in Hk as (snapshot & Hs & Hst & Hcp).
  exists snapshot. split; [done|]. split; [done|].
  apply handleSubmitGuess_sent. split; [done|].
  apply negb_true_iff in Hd. apply orb_false_iff in Hd as [Hlen _].
  apply negb_false_iff in Hlen. by apply Nat.eqb_eq.
Qed.

Lemma click_unfold (t : Tab) (doc : GameState) (guess : string) :
  click t doc guess
  = if clickPasses t guess
    then submitFrom (gameState t) doc (currentUser t) guess else doc.
Proof. reflexivity. Qed.

Lemma click_sound (g0 : GameState) (t : Tab) (doc : GameState)
    (guess : string) :
  (∀ snapshot, gameState t = Some snapshot → sound g0 snapshot) →
  sound g0 doc → sound g0 (click t doc guess).
Proof.
  intros Htab Hdoc. rewrite click_unfold.
  destruct (clickPasses t guess) eqn:Hpass; [|done].
  apply clickPasses_inv in Hpass as (snapshot & Hs & Hst & Hacc).
  rewrite Hs.
  destruct (Htab _ Hs) as ((Hw & Hp1 & Hp2) & Hfive & Hset).
  destruct Hdoc as ((Hw' & Hp1' & Hp2') & Hfive' & Hset').
  destruct (submitFrom_fields snapshot doc (currentUser t) guess Hacc)
    as (_ & Hg1 & Hg2 & Hstatus & Hwin & Hword & Hq1 & Hq2 & _).
  apply handleSubmitGuess_sent in Hacc as [_ Hlen].
  unfold fiveLetters in Hfive, Hfive'.
  apply Forall_app in Hfive as [Hf1 Hf2].
  apply Forall_app in Hfive' as [Hf1' Hf2'].
  split; [|split].
  - unfold sameGame. rewrite Hword, Hq1, Hq2. done.
  - unfold fiveLetters. rewrite Hg1, Hg2.
    destruct (String.eqb (currentUser t) (player1 snapshot));
      rewrite !Forall_app; repeat split; try done; by repeat constructor.
  - unfold settled. rewrite Hstatus, Hwin, Hword, Hg1, Hg2.
    destruct (String.eqb_spec guess (word snapshot)) as [Hright|Hwrong].
    + right. split; [done|]. by eexists.
    + destruct Hset' as [(Ha & Hn & H1 & H2)|Hover]; [|by right].
      left. destruct Hset as [(_ & _ & Hs1 & Hs2)|[Hdone _]]; [|done].
      rewrite Hw' , <- Hw. rewrite Hw', <- Hw in H1, H2.
      repeat split; try done;
        destruct (String.eqb (currentUser t) (player1 snapshot)); try done;
        rewrite elem_of_app, list_elem_of_singleton; intros [?|?];
        congruence.
Qed.

Lemma onSnapshot_gameState (data : GameState) (t : Tab) :
  gameState (onSnapshot data t) = Some data.
Proof. reflexivity. Qed.

Lemma localEcho_sound (g0 : GameState) (t : Tab) (guess : string) :
  (∀ snapshot, gameState t = Some snapshot → sound g0 snapshot) →
  ∀ snapshot, gameState (localEcho t guess) = Some snapshot →
    sound g0 snapshot.
Proof.
  intros Htab snapshot. unfold localEcho.
  destruct (gameState t) as [held|] eqn:Hheld; [|by rewrite Hheld].
  destruct (clickPasses t guess) eqn:Hpass.
  - rewrite onSnapshot_gameState. intros [= <-].
    apply click_sound; [|by apply Htab].
    intros s Hs. apply Htab. congruence.
  - intros Hs. apply Htab. congruence.
Qed.

(** Every step keeps the stored document and every snapshot sound. *)
Lemma step_sound (g0 : GameState) (w : Table) (e : Event) :
  sound g0 (stored w) →
  Forall (λ t, ∀ snapshot, gameState t = Some snapshot → sound g0 snapshot)
    (tabs w) →
  sound g0 (stored (step w e))
  ∧ Forall (λ t, ∀ snapshot, gameState t = Some snapshot →
                   sound g0 snapshot) (tabs (step w e)).
Proof.
  intros Hdoc Htabs. destruct e as [i|i guess echo]; simpl.
  - split; [done|]. apply Forall_alter; [done|].
    intros t _ _ snapshot. rewrite onSnapshot_gameState. by intros [= <-].
  - destruct (tabs w !! i) as [t|] eqn:Ht; [|done]. simpl.
    assert (∀ snapshot, gameState t = Some snapshot → sound g0 snapshot)
      as Htab.
    { rewrite Forall_lookup in Htabs. exact (Htabs i t Ht). }
    split; [by apply click_sound|].
    destruct echo; [|done].
    apply Forall_insert; [done|]. by apply localEcho_sound.
Qed.

Lemma run_sound (g0 : GameState) (events : list Event) (w : Table) :
  sound g0 (stored w) →
  Forall (λ t, ∀ snapshot, gameState t = Some snapshot → sound g0 snapshot)
    (tabs w) →
  sound g0 (stored (run w events)).
Proof.
  revert w. induction events as [|e events IH]; intros w Hdoc Htabs;
    [done|].
  destruct (step_sound g0 w e Hdoc Htabs) as [Hdoc' Htabs'].
  exact (IH (step w e) Hdoc' Htabs').
Qed.

Lemma opened_sound (c : Client) (uids : list string) (events : list Event) :
  sound (newGameState c)
    (stored (run (opened (newGameState c) uids) events)).
Proof.
  apply run_sound.
  - split; [done|]. split; [constructor|].
    left. simpl. repeat split; try done; apply not_elem_of_nil.
  - simpl. apply Forall_fmap, Forall_true. intros uid snapshot. done.
Qed.

(** A step whose click comes from a tab that is up to date is a
    submission on the stored document, or nothing. *)
Lemma step_current (w : Table) (e : Event) :
  clickIsCurrent w e = true →
  stored (step w e) = stored w
  ∨ ∃ uid guess, stored (step w e) = submitGuess (stored w) uid guess.
Proof.
  destruct e as [i|i guess echo]; simpl; [by left|].
  destruct (tabs w !! i) as [t|] eqn:Ht; [|by left]. simpl.
  rewrite click_unfold.
  destruct (clickPasses t guess); [|by left].
  simpl. intros Hcur%bool_decide_eq_true. right.
  exists (currentUser t), guess. by rewrite Hcur.
Qed.

Lemma run_current (P : GameState → Prop) (events : list Event) (w : Table) :
  (∀ g uid guess, P g → P (submitGuess g uid guess)) →
  upToDate w events = true → P (stored w) → P (stored (run w events)).
Proof.
  intros Hkeep. revert w.
  induction events as [|e events IH]; intros w Hup Hw; [done|].
  simpl in Hup. apply andb_true_iff in Hup as [He Hup].
  apply (IH (step w e) Hup).
  destruct (step_current w e He) as [->|(uid & guess & ->)]; auto.
Qed.

(** What the stored document of a run says about the word, shared by the
    statements below. *)
Lemma word_among_guesses_means_completed (c : Client)
    (uids : list string) (events : list Event) :
  let g := stored (run (opened (newGameState c) uids) events) in
  (word g ∈ (player1Guesses g ++ player2Guesses g)%list →
   status g = completed)
  ∧ (upToDate (opened (newGameState c) uids) events = true →
     outcomeAgrees g
     ∧ (status g = completed
        ↔ word g ∈ (player1Guesses g ++ player2Guesses g)%list)).
Proof.
  intros g.
  destruct (opened_sound c uids events) as (_ & _ & Hset). fold g in Hset.
  split.
  - intros Hin. destruct Hset as [(_ & _ & H1 & H2)|(? & _)]; [|done].
    apply elem_of_app in Hin as [?|?]; done.
  - intros Hup.
    assert (outcomeAgrees g) as Hout.
    { apply (run_current outcomeAgrees events
               (opened (newGameState c) uids)); [|done|].
      - intros g' uid guess. apply submitGuess_keeps_outcomeAgrees.
      - left. simpl. repeat split; try done; apply not_elem_of_nil. }
    split; [done|].
    destruct Hout as [(Ha & _ & H1 & H2)|(Hc & w & _ & Hin)].
    + split; [congruence|]. rewrite elem_of_app. tauto.
    + split; [|done]. intros _. apply elem_of_app.
      unfold guessesOf in Hin. destruct (String.eqb w (player1 g)); auto.
Qed.

(** C1, as the code has it.  [handleSubmitGuess] works on the snapshot
    of its tab and writes to the stored document.  A submission that passes
    the turn and length checks on the snapshot sets [currentPlayer] to the
    other player than the caller, as the snapshot names the players, and
    replaces the caller's guess list by the snapshot's list with the guess
    appended; [status] and [winner] are written only when the guess is the
    word.  When the snapshot is the stored document this hands the turn
    from [player1] to [player2] and from [player2] to [player1].  A refused
    submission writes nothing.  A tab whose snapshot is ['completed']
    renders no keyboard and no Enter button, so it cannot submit; and no
    click in any tab takes a stored document out of ['completed']. *)
Theorem turn_goes_to_the_other_player_of_the_snapshot
    (snapshot doc : GameState) (uid guess : string)
    (loading showGameOver : bool) :
  (accepted snapshot uid guess = true →
     let after := submitFrom (Some snapshot) doc uid guess in
     currentPlayer after
       = (if String.eqb uid (player1 snapshot)
          then player2 snapshot else player1 snapshot)
     ∧ player1Guesses after
       = (if String.eqb uid (player1 snapshot)
          then (player1Guesses snapshot ++ [guess])%list
          else player1Guesses doc)
     ∧ player2Guesses after
       = (if String.eqb uid (player1 snapshot)
          then player2Guesses doc
          else (player2Guesses snapshot ++ [guess])%list)
     ∧ status after
       = (if String.eqb guess (word snapshot) then completed
          else status doc)
     ∧ winner after
       = (if String.eqb guess (word snapshot) then Some uid
          else winner doc)
     ∧ word after = word doc ∧ player1 after = player1 doc
     ∧ player2 after = player2 doc ∧ createdAt after = createdAt doc)
  ∧ (accepted doc uid guess = true →
       (currentPlayer doc = player1 doc →
          currentPlayer (submitGuess doc uid guess) = player2 doc)
       ∧ (currentPlayer doc = player2 doc →
            currentPlayer (submitGuess doc uid guess) = player1 doc))
  ∧ (accepted snapshot uid guess = false →
       submitFrom (Some snapshot) doc uid guess = doc)
  ∧ (status snapshot = completed →
       keyboardRendered loading showGameOver (Some snapshot) (Some uid)
         = false
       ∧ clickEnterFrom loading showGameOver (Some snapshot) doc uid guess
         = doc)
  ∧ (status doc = completed →
       status (clickEnterFrom loading showGameOver (Some snapshot) doc
                 uid guess) = completed).
Proof.
  split; [|split; [|split; [|split]]].
  - apply submitFrom_fields.
  - intros Hacc. rewrite submitGuess_currentPlayer by done.
    apply handleSubmitGuess_sent in Hacc as [Hcp _]. rewrite <- Hcp.
    split; intros Hp.
    + by rewrite Hp, String.eqb_refl.
    + destruct (String.eqb_spec (currentPlayer doc) (player1 doc));
        congruence.
  - apply submitFrom_refused.
  - intros Hc.
    assert (keyboardRendered loading showGameOver (Some snapshot)
              (Some uid) = false) as Hk.
    { unfold keyboardRendered, screen.
      destruct loading; [done|].
      rewrite (bool_decide_eq_true_2 _ Hc).
      destruct showGameOver; done. }
    split; [done|]. unfold clickEnterFrom. by rewrite Hk.
  - intros Hc. unfold clickEnterFrom.
    destruct (keyboardRendered loading showGameOver (Some snapshot)
                (Some uid)
              && negb (enterDisabled (Some snapshot) (Some uid) guess));
      [|done].
    destruct (accepted snapshot uid guess) eqn:Hacc.
    + destruct (submitFrom_fields snapshot doc uid guess Hacc)
        as (_ & _ & _ & -> & _).
      by destruct (String.eqb guess (word snapshot)).
    + by rewrite submitFrom_refused.
Qed.

Lemma turn_goes_to_the_other_player_of_the_snapshot_witness :
  currentPlayer (submitGuess sampleGame "alice" "WIPES") = "bob"
  ∧ currentPlayer (submitGuess (submitGuess sampleGame "alice" "WIPES")
                     "bob" "PIPES") = "alice"
  ∧ player1Guesses (submitFrom (Some sampleGame) wonGame "alice" "WIPES")
    = ["WIPES"]
  ∧ clickEnterFrom false true (Some wonGame) wonGame "bob" "WIPES" = wonGame
  ∧ status (clickEnterFrom false false (Some sampleGame) wonGame
              "alice" "WIPES") = completed.
Proof.
  split; [|split; [|split; [|split]]].
  - destruct (turn_goes_to_the_other_player_of_the_snapshot
                sampleGame sampleGame "alice" "WIPES" false true)
      as (_ & Hflip & _).
    apply Hflip; reflexivity.
  - destruct (turn_goes_to_the_other_player_of_the_snapshot
                (submitGuess sampleGame "alice" "WIPES")
                (submitGuess sampleGame "alice" "WIPES") "bob" "PIPES"
                false true) as (_ & Hflip & _).
    apply Hflip; reflexivity.
  - destruct (turn_goes_to_the_other_player_of_the_snapshot
                sampleGame wonGame "alice" "WIPES" false false)
      as (Hwrite & _).
    destruct (Hwrite eq_refl) as (_ & Hg1 & _). exact Hg1.
  - destruct (turn_goes_to_the_other_player_of_the_snapshot
                wonGame wonGame "bob" "WIPES" false true)
      as (_ & _ & _ & Hdone & _).
    apply Hdone; reflexivity.
  - destruct (turn_goes_to_the_other_player_of_the_snapshot
                sampleGame wonGame "alice" "WIPES" false false)
      as (_ & _ & _ & _ & Hstays).
    apply Hstays; reflexivity.
Defined.

(** C1, counterexample to the specified behaviour.  ["alice"] has the new
    game open in two tabs and finds the word in the first; the second has
    not received the completed document yet, still shows her the keyboard,
    and her next guess there passes the turn and length checks.  The write
    replaces her guess list in the completed game, and [currentPlayer],
    which the first write had set to ["bob"], is ["bob"] after this
    accepted submission as well. *)
Lemma late_tab_rewrites_a_completed_game :
  status (stored (run threeTabs aliceWins)) = completed
  ∧ getsThrough (run threeTabs aliceWins) lateClick = true
  ∧ player1Guesses (stored (run threeTabs aliceWins)) = ["FLUSH"]
  ∧ player1Guesses (stored (step (run threeTabs aliceWins) lateClick))
    = ["WIPES"]
  ∧ status (stored (step (run threeTabs aliceWins) lateClick)) = completed
  ∧ currentPlayer (stored (run threeTabs aliceWins)) = "bob"
  ∧ currentPlayer (stored (step (run threeTabs aliceWins) lateClick))
    = "bob".
Proof. vm_compute. done. Qed.

(** X3.  In every run of snapshot deliveries and Enter clicks, in any
    number of tabs and in any order, on a document that [initializeGame]
    created, the word and the two players stay as created and every stored
    guess has five characters.  When the players are two different users
    and every click that gets through comes from a tab whose snapshot is the
    stored document, the turn also agrees with the guess counts: on player
    1's turn both have guessed equally often, on player 2's turn player 1
    is one guess ahead. *)
Theorem game_run_keeps_word_players_and_guess_length (c : Client)
    (uids : list string) (events : list Event) :
  let g := stored (run (opened (newGameState c) uids) events) in
  word g = word (newGameState c)
  ∧ player1 g = c_uid c ∧ player2 g = c_opponentId c
  ∧ fiveLetters g
  ∧ (c_uid c ≠ c_opponentId c →
     upToDate (opened (newGameState c) uids) events = true →
     turnsAgree g).
Proof.
  intros g.
  destruct (opened_sound c uids events) as ((Hw & Hp1 & Hp2) & Hfive & _).
  fold g in Hw, Hp1, Hp2, Hfive.
  repeat split; try done.
  intros Hne Hup.
  assert (player1 g ≠ player2 g ∧ turnsAgree g) as [_ Hturn]; [|done].
  apply (run_current (λ g, (player1 g = c_uid c ∧ player2 g = c_opponentId c)
                           ∧ player1 g ≠ player2 g ∧ turnsAgree g)
           events (opened (newGameState c) uids)) in Hup as (_ & ? & ?);
    [done| |].
  - intros g' uid guess ([Hq1 Hq2] & Hd & Ht).
    assert (player1 (submitGuess g' uid guess) = player1 g'
            ∧ player2 (submitGuess g' uid guess) = player2 g') as [Hr1 Hr2].
    { destruct (accepted g' uid guess) eqn:Hacc.
      - destruct (submitGuess_fields g' uid guess Hacc) as (_ & ? & ? & _).
        done.
      - by rewrite submitGuess_refused. }
    rewrite Hr1, Hr2. repeat split; try done.
    by apply submitGuess_keeps_turnsAgree.
  - simpl. repeat split; try done. by left.
Qed.

Lemma game_run_keeps_word_players_and_guess_length_witness :
  turnsAgree (stored (run threeTabs inTurn)).
Proof.
  destruct (game_run_keeps_word_players_and_guess_length clientA
              ["alice"; "alice"; "bob"] inTurn) as (_ & _ & _ & _ & Hturn).
  apply Hturn; [discriminate|reflexivity].
Defined.

(** A tab that is behind breaks the count: the second tab of ["alice"]
    writes her guess list anew after ["bob"] has answered her first
    guess. *)
Example late_tab_drops_a_guess :
  upToDate threeTabs behind = false
  ∧ player1Guesses (stored (run threeTabs behind)) = ["PIPES"]
  ∧ player2Guesses (stored (run threeTabs behind)) = ["DRAIN"]
  ∧ currentPlayer (stored (run threeTabs behind)) = "bob".
Proof. vm_compute. done. Qed.

(** X4.  In every run of snapshot deliveries and Enter clicks, in any
    number of tabs and in any order, on a document that [initializeGame]
    created, the status is ['active'] or ['completed']; the game is
    ['completed'] as soon as the secret word is among the stored guesses,
    it has a winner exactly when it is ['completed'].  When every click
    that gets through comes from a tab whose snapshot is the stored
    document, the game is ['completed'] exactly when the word is among the
    stored guesses, and the winner's own list holds it. *)
Theorem game_is_completed_once_the_word_is_guessed (c : Client)
    (uids : list string) (events : list Event) :
  let g := stored (run (opened (newGameState c) uids) events) in
  (status g = active ∨ status g = completed)
  ∧ (word g ∈ (player1Guesses g ++ player2Guesses g)%list →
     status g = completed)
  ∧ (status g = completed ↔ is_Some (winner g))
  ∧ (upToDate (opened (newGameState c) uids) events = true →
     outcomeAgrees g
     ∧ (status g = completed
        ↔ word g ∈ (player1Guesses g ++ player2Guesses g)%list)).
Proof.
  intros g.
  destruct (opened_sound c uids events) as (_ & _ & Hset). fold g in Hset.
  split; [|split; [|split]].
  - destruct Hset as [(? & _)|(? & _)]; auto.
  - intros Hin. destruct Hset as [(_ & _ & H1 & H2)|(? & _)]; [|done].
    apply elem_of_app in Hin as [?|?]; done.
  - destruct Hset as [(Ha & Hn & _)|(Hc & Hwin)].
    + rewrite Ha, Hn. split; [done|]. by intros [? ?].
    + by rewrite Hc.
  - intros Hup.
    assert (outcomeAgrees g) as Hout.
    { apply (run_current outcomeAgrees events
               (opened (newGameState c) uids)); [|done|].
      - intros g' uid guess. apply submitGuess_keeps_outcomeAgrees.
      - left. simpl. repeat split; try done; apply not_elem_of_nil. }
    split; [done|].
    destruct Hout as [(Ha & _ & H1 & H2)|(Hc & w & _ & Hin)].
    + split; [congruence|]. rewrite elem_of_app. tauto.
    + split; [|done]. intros _. apply elem_of_app.
      unfold guessesOf in Hin. destruct (String.eqb w (player1 g)); auto.
Qed.

Lemma game_is_completed_once_the_word_is_guessed_witness :
  status (stored (run threeTabs inTurn)) = completed
  ↔ word (stored (run threeTabs inTurn))
    ∈ (player1Guesses (stored (run threeTabs inTurn))
       ++ player2Guesses (stored (run threeTabs inTurn)))%list.
Proof.
  destruct (game_is_completed_once_the_word_is_guessed clientA
              ["alice"; "alice"; "bob"] inTurn) as (_ & _ & _ & Hup).
  apply Hup. reflexivity.
Defined.

(** The late click in the second tab of ["alice"] leaves a completed game
    whose word is in no guess list. *)
Example late_tab_leaves_no_winning_guess :
  status (stored (step (run threeTabs aliceWins) lateClick)) = completed
  ∧ winner (stored (step (run threeTabs aliceWins) lateClick)) = Some "alice"
  ∧ player1Guesses (stored (step (run threeTabs aliceWins) lateClick))
    = ["WIPES"]
  ∧ player2Guesses (stored (step (run threeTabs aliceWins) lateClick)) = [].
Proof. vm_compute. done. Qed.

(** X26.  [renderGuessResult] on the stored guesses agrees with the state
    of the game.  In every run of snapshot deliveries and Enter clicks, in
    any number of tabs and in any order, on a document that
    [initializeGame] created with a word of its list, a stored guess gets
    the green class at all five letters exactly when it is the secret
    word, and a document with such a guess is ['completed'].  When every
    click that gets through comes from a tab whose snapshot is the stored
    document, the game is ['completed'] exactly when a stored guess is
    green all over. *)
Theorem stored_guess_is_all_green_iff_it_is_the_word (c : Client)
    (uids : list string) (events : list Event) :
  (c_randomIndex c < length WORDS)%nat →
  let g := stored (run (opened (newGameState c) uids) events) in
  (∀ guess, guess ∈ (player1Guesses g ++ player2Guesses g)%list →
     Forall (eq exact) (renderGuessResult (word g) guess) ↔ guess = word g)
  ∧ (hasGreenRow g → status g = completed)
  ∧ (upToDate (opened (newGameState c) uids) events = true →
     (status g = completed ↔ hasGreenRow g)).
Proof.
  intros Hindex g.
  destruct (opened_sound c uids events) as ((Hword & _) & Hfive & _).
  fold g in Hword, Hfive.
  destruct (word_among_guesses_means_completed c uids events)
    as (Hin & Hup). fold g in Hin, Hup.
  assert (String.length (word g) = 5%nat) as Hlen.
  { rewrite Hword.
    change (word (newGameState c)) with (nth (c_randomIndex c) WORDS "").
    assert (Forall (λ s, String.length s = 5%nat) WORDS) as Hall
      by (apply (bool_decide_unpack _); by vm_compute).
    rewrite Forall_forall in Hall. apply Hall.
    apply list_elem_of_In, nth_In. exact Hindex. }
  assert (∀ guess, guess ∈ (player1Guesses g ++ player2Guesses g)%list →
            Forall (eq exact) (renderGuessResult (word g) guess)
            ↔ guess = word g) as Hrow.
  { intros guess Hguess. apply all_exact_iff.
    unfold fiveLetters in Hfive. rewrite Forall_forall in Hfive.
    rewrite (Hfive _ Hguess). done. }
  assert (hasGreenRow g
          ↔ word g ∈ (player1Guesses g ++ player2Guesses g)%list) as Hgreen.
  { unfold hasGreenRow. rewrite Exists_exists. split.
    - intros (guess & Hguess & Hall). apply Hrow in Hall; [|done].
      by subst guess.
    - intros Hguess. exists (word g). split; [done|]. by apply Hrow. }
  split; [exact Hrow|]. split.
  - intros Hg. apply Hin. by apply Hgreen.
  - intros Hcur. rewrite Hgreen. by apply Hup.
Qed.

Lemma stored_guess_is_all_green_iff_it_is_the_word_witness :
  status (stored (run threeTabs inTurn)) = completed
  ↔ hasGreenRow (stored (run threeTabs inTurn)).
Proof.
  destruct (stored_guess_is_all_green_iff_it_is_the_word clientA
              ["alice"; "alice"; "bob"] inTurn) as (_ & _ & Hup).
  - vm_compute. lia.
  - apply Hup. reflexivity.
Defined.

End TabFacts.

(** ** Loading the timeline *)

Section TimelineFacts.
Import FriendService TweetService TweetsPage TweetActivityLog Timeline.

Lemma findIndex_here (p : list LocalTweet) (t : LocalTweet)
    (l : list LocalTweet) :
  findIndex (tweet_id t) (p ++ t :: l) = Some (length p)
  ↔ tweet_id t ∉ tweet_id <$> p.
Proof.
  unfold findIndex. split.
  - intros Hfind Hin.
    destruct (list_find (λ t' : LocalTweet, tweet_id t' = tweet_id t)
                (p ++ t :: l)) as [[i x]|] eqn:Hf; [|done].
    simpl in Hfind. injection Hfind as ->.
    apply list_find_Some in Hf as (_ & _ & Hfirst).
    apply list_elem_of_fmap in Hin as (t' & Heq & Hin).
    apply list_elem_of_lookup_1 in Hin as [j Hj].
    apply (Hfirst j t').
    + by apply lookup_app_l_Some.
    + by eapply lookup_lt_Some.
    + done.
  - intros Hnot.
    assert (list_find (λ t' : LocalTweet, tweet_id t' = tweet_id t) p = None)
      as Hp.
    { apply list_find_None, Forall_forall. intros t' Hin Heq.
      apply Hnot. rewrite <- Heq. apply list_elem_of_fmap. eauto. }
    rewrite list_find_app_r by done. simpl.
    by rewrite decide_True.
Qed.

Lemma keepFirst_firstById (p l : list LocalTweet) :
  keepFirst (p ++ l) (length p) l
  = filter (λ t : LocalTweet, tweet_id t ∉ tweet_id <$> p) (firstById l).
Proof.
  revert p. induction l as [|t l IH]; intros p; [done|].
  simpl keepFirst. simpl firstById.
  specialize (IH (p ++ [t])%list).
  rewrite <- app_assoc, length_app in IH. simpl in IH.
  rewrite Nat.add_1_r in IH. rewrite IH.
  rewrite filter_cons. rewrite list_filter_filter.
  assert (filter (λ t0 : LocalTweet,
                    tweet_id t0 ∉ tweet_id <$> (p ++ [t])%list)
            (firstById l)
          = filter (λ t0 : LocalTweet,
                      (tweet_id t0 ∉ tweet_id <$> p)
                      ∧ tweet_id t0 ≠ tweet_id t)
              (firstById l)) as ->.
  { apply list_filter_iff. intros t0.
    rewrite fmap_app, elem_of_app. simpl.
    rewrite list_elem_of_singleton. tauto. }
  case_bool_decide as Hfind; rewrite findIndex_here in Hfind.
  - by rewrite decide_True.
  - by rewrite decide_False.
Qed.

Lemma uniqueById_firstById (l : list LocalTweet) :
  uniqueById l = firstById l.
Proof.
  unfold uniqueById.
  change (keepFirst l 0 l)
    with (keepFirst ([] ++ l) (length (@nil LocalTweet)) l).
  rewrite (keepFirst_firstById [] l).
  induction (firstById l) as [|t l' IH]; [done|].
  rewrite filter_cons_True by (simpl; apply not_elem_of_nil).
  by rewrite IH.
Qed.

Lemma firstById_elem (l : list LocalTweet) (t : LocalTweet) :
  t ∈ firstById l → t ∈ l.
Proof.
  induction l as [|a l IH]; [done|]. simpl.
  rewrite !elem_of_cons, list_elem_of_filter. intros [->|[_ Hin]]; auto.
Qed.

Lemma firstById_ids (l : list LocalTweet) (id : string) :
  id ∈ tweet_id <$> firstById l ↔ id ∈ tweet_id <$> l.
Proof.
  induction l as [|a l IH]; [done|]. simpl. rewrite !elem_of_cons, <- IH.
  rewrite !list_elem_of_fmap. split.
  - intros [->|(t & -> & Hin)]; [by left|].
    apply list_elem_of_filter in Hin as [_ Hin]. right. eauto.
  - intros [->|(t & -> & Hin)]; [by left|].
    destruct (decide (tweet_id t = tweet_id a)) as [Heq|Hne]; [by left|].
    right. exists t. split; [done|]. by apply list_elem_of_filter.
Qed.

Lemma firstById_NoDup (l : list LocalTweet) :
  NoDup (tweet_id <$> firstById l).
Proof.
  induction l as [|a l IH]; simpl; constructor.
  - rewrite list_elem_of_fmap. intros (t & Heq & Hin).
    apply list_elem_of_filter in Hin as [Hne _]. by apply Hne.
  - eapply sublist_NoDup; [exact IH|]. apply fmap_sublist, sublist_filter.
Qed.

Lemma firstById_app (a b : list LocalTweet) :
  firstById (a ++ b)
  = (firstById a
     ++ filter (λ t : LocalTweet, tweet_id t ∉ tweet_id <$> a)
          (firstById b))%list.
Proof.
  induction a as [|x a IH]; simpl.
  - induction (firstById b) as [|t l' IHl]; [done|].
    rewrite filter_cons_True by (simpl; apply not_elem_of_nil).
    by rewrite <- IHl.
  - f_equal. rewrite IH, filter_app. f_equal.
    rewrite list_filter_filter. apply list_filter_iff. intros t.
    rewrite elem_of_cons. split.
    + intros [Hne Hnot] [?|?]; [by apply Hne|by apply Hnot].
    + intros Hnot. split; [intros ?|intros ?]; apply Hnot; auto.
Qed.

Lemma filter_nothing {A} (P : A → Prop) `{!∀ x, Decision (P x)} (l : list A) :
  (∀ x, x ∈ l → ¬ P x) → filter P l = [].
Proof.
  induction l as [|x l IH]; intros Hl; [done|].
  rewrite filter_cons_False by (apply Hl; by left).
  apply IH. intros y Hy. apply Hl. by right.
Qed.

Lemma filter_everything {A} (P : A → Prop) `{!∀ x, Decision (P x)} (l : list A) :
  (∀ x, x ∈ l → P x) → filter P l = l.
Proof.
  induction l as [|x l IH]; intros Hl; [done|].
  rewrite filter_cons_True by (apply Hl; by left).
  f_equal. apply IH. intros y Hy. apply Hl. by right.
Qed.

(** A fetched tweet has a [Timestamp], a tweet of the parsed cache has
    not. *)
Lemma getTweetsByIds_timestamps (st : TweetStore) (tweetIds : list string)
    (t : LocalTweet) :
  t ∈ getTweetsByIds st tweetIds → createdAtIsTimestamp t = true.
Proof.
  unfold getTweetsByIds. destruct tweetIds as [|i tweetIds].
  { by intros ?%elem_of_nil. }
  rewrite sortBy_Permutation. intros Hin.
  apply list_elem_of_join in Hin as (l & Hin & Hl).
  apply list_elem_of_fmap in Hl as (batch & -> & _).
  unfold tweetsQuery in Hin.
  by apply list_elem_of_fmap in Hin as (d & -> & _).
Qed.

Lemma getCachedTimeline_parsed
    (cacheJson : option (TweetCache.TimelineCache LocalTweet))
    (cachedTimeline : TweetCache.TimelineCache LocalTweet)
    (friends : list string) (now maxAge : Z) :
  TweetCache.getCachedTimeline (parseCache <$> cacheJson) friends now maxAge
    = Some cachedTimeline →
  ∃ cache, cacheJson = Some cache ∧ cachedTimeline = parseCache cache.
Proof.
  destruct cacheJson as [cache|]; [|done]. simpl.
  unfold TweetCache.getCachedTimeline.
  destruct (bool_decide _ || negb _); [done|].
  intros [= <-]. eauto.
Qed.

Lemma parseCache_plain (cache : TweetCache.TimelineCache LocalTweet)
    (t : LocalTweet) :
  t ∈ TweetCache.tweets (parseCache cache) → createdAtIsTimestamp t = false.
Proof.
  simpl. by intros (t' & -> & _)%list_elem_of_fmap.
Qed.

(** X27.  A refresh of a cached timeline merges what is new into it.
    When the cache is served and the activity log has entries after its
    cursor, [getTimelineTweets] caches a timeline that holds every id of
    the fetched and of the cached tweets once, a fetched tweet taking the
    place of the cached one with the same id.  The timeline is sorted,
    newest first, by the time the comparator reads from a tweet: the
    creation time of a fetched tweet, and 0 for a tweet read back from the
    cache, whose [createdAt] has no [toMillis] after the JSON round trip.
    So the tweets taken over from the cache keep the order they had in
    the cache, whatever their creation times.  The call moves the cursor
    to the newest entry, keeps the key of the friends, and returns the
    first five tweets of that timeline. *)
Theorem refresh_merges_new_tweets_into_the_cached_timeline
    (st : TweetStore)
    (cacheJson : option (TweetCache.TimelineCache LocalTweet))
    (cachedTimeline : TweetCache.TimelineCache LocalTweet)
    (currentUserId : string) (friends : list string) (now : Z)
    (newest : ActivityDoc) (others : list ActivityDoc) :
  TweetCache.getCachedTimeline (parseCache <$> cacheJson) friends now
    TweetCache.defaultMaxAge = Some cachedTimeline →
  getRecentTweetActivity st
    (friendsAfterLookup cacheJson friends ++ [currentUserId])%list
    (Some (TweetCache.lastLoadedActivity cachedTimeline))
  = newest :: others →
  let fetched :=
    getTweetsByIds st
      ((λ activity : ActivityDoc, tweetId activity.2)
       <$> newest :: others) in
  let cached := TweetCache.tweets cachedTimeline in
  let loaded := getTimelineTweets st cacheJson currentUserId friends now in
  ∃ merged,
    cacheAfter loaded
    = Some (TweetCache.cacheTimeline merged
              (merge_sort String.le friends) (Some (timeOf newest)) now)
    ∧ TweetCache.friendsHash (TweetCache.cacheTimeline merged
                                (merge_sort String.le friends)
                                (Some (timeOf newest)) now)
      = TweetCache.friendsHash cachedTimeline
    ∧ shown loaded = take 5 merged
    ∧ NoDup (tweet_id <$> merged)
    ∧ (∀ id, id ∈ tweet_id <$> merged
             ↔ id ∈ tweet_id <$> fetched ∨ id ∈ tweet_id <$> cached)
    ∧ (∀ t, t ∈ merged →
            t ∈ fetched
            ∨ (t ∈ cached ∧ tweet_id t ∉ tweet_id <$> fetched))
    ∧ StronglySorted (weakly millisOf) merged
    ∧ (∀ t, t ∈ fetched → millisOf t = createdAt (tweet_data t))
    ∧ (∀ t, t ∈ cached → millisOf t = 0%Z)
    ∧ filter (λ t, createdAtIsTimestamp t = false) merged
      = filter (λ t, tweet_id t ∉ tweet_id <$> fetched) (firstById cached).
Proof.
  intros Hcache Hactivity fetched cached loaded. subst loaded.
  unfold getTimelineTweets. cbv zeta. rewrite Hcache, Hactivity.
  fold fetched. fold cached.
  set (merged := sortBy (byKey millisOf) (uniqueById (fetched ++ cached))).
  assert (merged ≡ₚ firstById (fetched ++ cached)) as Hperm.
  { unfold merged. by rewrite sortBy_Permutation, uniqueById_firstById. }
  destruct (getCachedTimeline_parsed _ _ _ _ _ Hcache) as (cache & -> & Hc).
  assert (∀ t, t ∈ fetched → createdAtIsTimestamp t = true) as Hlive.
  { intros t. apply getTweetsByIds_timestamps. }
  assert (∀ t, t ∈ cached → createdAtIsTimestamp t = false) as Hplain.
  { intros t. unfold cached. rewrite Hc. apply parseCache_plain. }
  exists merged. simpl.
  split; [done|].
  split; [|split; [done|split; [|split; [|split; [|split;
    [|split; [|split]]]]]]].
  - simpl in Hcache. unfold TweetCache.getCachedTimeline in Hcache.
    destruct (bool_decide _ || negb _) eqn:Hvalid; [done|].
    apply orb_false_iff in Hvalid as [_ Hhash].
    apply negb_false_iff, String.eqb_eq in Hhash. simpl in Hhash.
    rewrite Hc. simpl. rewrite Hhash.
    unfold TweetCache.generateFriendsHash.
    by rewrite (sorted_ids_permutation _ _
                  (merge_sort_Permutation String.le friends)).
  - rewrite Hperm. apply firstById_NoDup.
  - intros id. rewrite Hperm, firstById_ids, fmap_app, elem_of_app. done.
  - intros t. rewrite Hperm, firstById_app, elem_of_app.
    intros [Hin|Hin].
    + left. by apply firstById_elem.
    + apply list_elem_of_filter in Hin as [Hnot Hin]. right.
      split; [|done]. by apply firstById_elem.
  - apply sortBy_key_sorted.
  - intros t Hin. unfold millisOf. by rewrite (Hlive t Hin).
  - intros t Hin. unfold millisOf. by rewrite (Hplain t Hin).
  - rewrite <- (list_filter_filter_l _ (λ t, millisOf t = 0%Z) merged).
    2:{ intros t Ht. unfold millisOf. by rewrite Ht. }
    unfold merged. rewrite sortBy_key_stable.
    rewrite list_filter_filter_l.
    2:{ intros t Ht. unfold millisOf. by rewrite Ht. }
    rewrite uniqueById_firstById, firstById_app, filter_app.
    rewrite (filter_nothing (λ t, createdAtIsTimestamp t = false)
               (firstById fetched)).
    2:{ intros t Hin%firstById_elem. by rewrite (Hlive t Hin). }
    simpl. apply filter_everything. intros t Hin.
    apply list_elem_of_filter in Hin as [_ Hin%firstById_elem]. auto.
Qed.

Lemma refresh_merges_new_tweets_into_the_cached_timeline_witness :
  ∃ merged,
    cacheAfter (getTimelineTweets twoTweets (Some cachedEarlier) "alice"
                  ["bob"] 3000)
    = Some (TweetCache.cacheTimeline merged (merge_sort String.le ["bob"])
              (Some 2000%Z) 3000)
    ∧ shown (getTimelineTweets twoTweets (Some cachedEarlier) "alice"
               ["bob"] 3000)
      = take 5 merged
    ∧ NoDup (tweet_id <$> merged)
    ∧ StronglySorted (weakly millisOf) merged.
Proof.
  destruct (refresh_merges_new_tweets_into_the_cached_timeline
              twoTweets (Some cachedEarlier) (parseCache cachedEarlier)
              "alice" ["bob"] 3000
              ("a2", {| userId := "bob"; tweetId := "t2";
                        timestamp := 2000 |}) [])
    as (merged & Hcache & _ & Hshown & Hnodup & _ & _ & Hsorted & _).
  - by vm_compute.
  - by vm_compute.
  - exists merged. split; [exact Hcache|]. split; [exact Hshown|].
    split; [exact Hnodup|exact Hsorted].
Defined.

(** The refresh of the sample: the new tweet comes first; the cached
    tweet stays as it was cached, without the like it got since. *)
Example refreshed_sample_timeline :
  shown (getTimelineTweets twoTweets (Some cachedEarlier) "alice" ["bob"]
           3000)
  = [fromDoc ("t2", tweetOf "bob" "second" 2000 0 []);
     throughJson (fromDoc ("t1", tweetOf "alice" "first" 1000 0 []))].
Proof. by vm_compute. Qed.

(** A fetched tweet goes before a cached one also when the cached one was
    created later: the comparator reads 0 from the cached tweet. *)
Example cached_tweet_sorts_as_time_zero :
  tweet_id
    <$> shown (getTimelineTweets olderIsNew (Some cachedNewer) "alice"
                 ["bob"] 3000)
  = ["t0"; "t2"]
  ∧ (createdAt ∘ tweet_data)
      <$> shown (getTimelineTweets olderIsNew (Some cachedNewer) "alice"
                   ["bob"] 3000)
    = [1000%Z; 2000%Z].
Proof. by vm_compute. Qed.

End TimelineFacts.

(** ** pages/Tweets.tsx: likes, deletes and the reload *)

Section TweetsPageFacts.
Import TweetService TweetsPage Timeline.

Lemma mapM_localToggle_elem tweetId user (local local' : list LocalTweet)
    (tweet' : LocalTweet) :
  mapM (localToggle tweetId user) local = Some local' →
  tweet' ∈ local' →
  ∃ tweet, tweet ∈ local ∧ localToggle tweetId user tweet = Some tweet'.
Proof.
  intros Hm Hin. apply mapM_Some in Hm.
  induction Hm as [|x y l l' Hxy Hl IH]; [by apply elem_of_nil in Hin|].
  apply elem_of_cons in Hin as [->|Hin].
  - exists x. split; [by left|done].
  - destruct (IH Hin) as (t & Ht & Hf). exists t. split; [by right|done].
Qed.

(** X22.  What the handlers of the page put on screen, and what the
    reload then does.  When every tweet on screen carries the stored data,
    it still does after [handleToggleLike], whether the call to the
    service returns or throws, and the list keeps its length, so nothing
    is loaded again; the like toggle on screen throws exactly when the
    service call returned and a tweet with that id on screen has no
    [likedBy].  [handleDeleteTweet] takes a tweet that the service deleted
    out of the store and out of the list; a delete that the service
    refuses leaves both as they are and shows the error.  When the deleted
    tweet was on screen the list has become shorter, so [loadTweets] runs
    again: if the timeline cache is served and holds tweets, it puts the
    cached list on screen, the deleted tweet with it when the cache holds
    it, and leaves the cache as it is. *)
Theorem likes_follow_the_store_and_a_reload_shows_the_cache
    (fault : option string) (tweetId user : string) (st : TweetStore)
    (local : list LocalTweet)
    (cacheJson : option (TweetCache.TimelineCache LocalTweet))
    (friends : list string) (now : Z) :
  inStep st local →
  (∀ local',
     (handleToggleLike fault tweetId user st local).2 = Some local' →
     inStep (handleToggleLike fault tweetId user st local).1 local'
     ∧ loadRunsAgain local local' = false)
  ∧ ((handleToggleLike fault tweetId user st local).2 = None
     ↔ (toggleLikeTweet fault tweetId user st).2 = Friends.Returned ()
       ∧ ∃ tweet, tweet ∈ local ∧ tweet_id tweet = tweetId
                  ∧ likedBy (tweet_data tweet) = None)
  ∧ (let '(st', local', banner) :=
       handleDeleteTweet fault tweetId user st local in
     match banner with
     | None =>
         tweets st' !! tweetId = None
         ∧ local' = filter (λ tweet, tweet_id tweet ≠ tweetId) local
         ∧ inStep st' local'
         ∧ (loadRunsAgain local local' = true
            ↔ tweetId ∈ tweet_id <$> local)
         ∧ ∀ cachedData,
             TweetCache.getCachedTimeline (parseCache <$> cacheJson)
               friends now TweetCache.defaultMaxAge = Some cachedData →
             (0 < length (TweetCache.tweets cachedData))%nat →
             shown (loadTweets st' cacheJson user friends now)
               = TweetCache.tweets cachedData
             ∧ cacheAfter (loadTweets st' cacheJson user friends now)
               = cacheJson
     | Some _ => st' = st ∧ local' = local
     end).
Proof.
  intros Hstep. split; [|split].
  - intros local'. unfold handleToggleLike.
    destruct (toggleLikeTweet_cases fault tweetId user st)
      as [(t & Ht & _ & ->)|[m ->]]; simpl.
    + intros Hm. split.
      * intros tweet' Hin.
        destruct (mapM_localToggle_elem _ _ _ _ _ Hm Hin)
          as (tweet & Htweet & Hf).
        specialize (Hstep _ Htweet). unfold localToggle in Hf. simpl.
        destruct (String.eqb_spec (tweet_id tweet) tweetId) as [Heq|Hne].
        -- rewrite Heq, Ht in Hstep. injection Hstep as Hdata.
           destruct (likedBy (tweet_data tweet)) as [liked|] eqn:Hliked;
             [|done].
           injection Hf as <-. simpl. rewrite Heq, lookup_insert_eq.
           rewrite Hdata, Hliked. simpl. by f_equal.
        -- injection Hf as <-. by rewrite lookup_insert_ne.
      * unfold loadRunsAgain. apply length_mapM in Hm. rewrite Hm.
        by rewrite Nat.eqb_refl.
    + intros [= <-]. split; [done|]. unfold loadRunsAgain.
      by rewrite Nat.eqb_refl.
  - unfold handleToggleLike.
    destruct (toggleLikeTweet_cases fault tweetId user st)
      as [(t & Ht & _ & ->)|[m ->]]; simpl.
    + rewrite mapM_None. split.
      * intros Hex. split; [done|].
        apply Exists_exists in Hex as (tweet & Hin & Hf).
        exists tweet. split; [done|]. unfold localToggle in Hf.
        destruct (String.eqb_spec (tweet_id tweet) tweetId) as [Heq|Hne];
          [|done].
        split; [done|]. by destruct (likedBy (tweet_data tweet)).
      * intros (_ & tweet & Hin & Heq & Hliked).
        apply Exists_exists. exists tweet. split; [done|].
        unfold localToggle. rewrite <- Heq, String.eqb_refl.
        by rewrite Hliked.
    + split; [done|]. by intros [? _].
  - unfold handleDeleteTweet, deleteTweet.
    destruct (tweets st !! tweetId) as [t|] eqn:Ht; [|done].
    case_bool_decide; [done|]. destruct fault; [done|]. simpl.
    split; [apply lookup_delete_eq|]. split; [done|].
    split; [|split].
    + intros tweet Hin. apply list_elem_of_filter in Hin as [Hne Hin].
      simpl. rewrite lookup_delete_ne by done. by apply Hstep.
    + unfold loadRunsAgain. rewrite negb_true_iff, Nat.eqb_neq.
      rewrite list_elem_of_fmap. split.
      * intros Hlen.
        destruct (decide (Exists (λ tweet, tweet_id tweet = tweetId) local))
          as [Hex|Hno].
        -- apply Exists_exists in Hex as (tweet & Hin & Heq). eauto.
        -- exfalso. apply Hlen. f_equal. apply filter_everything.
           intros tweet Hin Heq. apply Hno, Exists_exists. eauto.
      * intros (tweet & -> & Hin) Hlen.
        pose proof (length_filter_lt (λ t', tweet_id t' ≠ tweet_id tweet)
                      local tweet Hin) as Hlt.
        rewrite Hlen in Hlt. apply (Nat.lt_irrefl (length local)).
        apply Hlt. by intros ?.
    + intros cachedData Hcache Hsome. unfold loadTweets.
      rewrite Hcache. by rewrite bool_decide_eq_true_2.
Qed.

Lemma likes_follow_the_store_and_a_reload_shows_the_cache_witness :
  inStep (handleToggleLike None "tweet1" "bob" oneTweet onScreen).1
    onScreenLiked
  ∧ loadRunsAgain onScreen onScreenLiked = false.
Proof.
  apply (likes_follow_the_store_and_a_reload_shows_the_cache None "tweet1"
           "bob" oneTweet onScreen None [] 0).
  - intros tweet Hin. apply list_elem_of_singleton in Hin as ->.
    by vm_compute.
  - by vm_compute.
Defined.

(** ["alice"] deletes her tweet while the cached timeline is served: the
    handler empties the list, the list has changed its length, and the
    reload puts the deleted tweet back on screen. *)
Example deleted_tweet_comes_back_from_the_cache :
  tweets (handleDeleteTweet None "t1" "alice" twoTweets aliceOnScreen).1.1
    !! "t1" = None
  ∧ (handleDeleteTweet None "t1" "alice" twoTweets aliceOnScreen).1.2 = []
  ∧ loadRunsAgain aliceOnScreen [] = true
  ∧ shown
      (loadTweets
         (handleDeleteTweet None "t1" "alice" twoTweets aliceOnScreen).1.1
         (Some cachedEarlier) "alice" ["bob"] 1600)
    = aliceOnScreen.
Proof. by vm_compute. Qed.

End TweetsPageFacts.
